(** * BlackRoad project management: the entity store, the critical-path
    engine and the reporting layer of [src/project_management.py].

    The Python module keeps its state in three SQLite tables and computes
    everything else from them.  The development below embeds the tables as
    lists of rows, every method of [ProjectManager] as a function over that
    store, Python dictionaries as finite maps and raised exceptions as an
    error result.  The two [while] loops of [get_critical_path] take fuel;
    the theorems show how much of it is enough. *)

From Stdlib Require Import ZArith Floats Ascii String.
From stdpp Require Import gmap strings list fin_maps relations sorting pretty.

(** stdpp's solvers clear hypotheses that are not always there. *)
Set Warnings "-clear-no-such-hyp".

Open Scope Z_scope.

(** ** Exceptions and results *)

(** What a [ValueError] says: the "Project ... not found" message of
    [export_gantt_csv], or [max] complaining about an empty sequence. *)
Inductive value_error : Set :=
  | ProjectNotFound (project_id : string)
  | EmptySequence.

(** The exceptions the modelled code can raise.  [IntegrityError] is
    SQLite's answer to a repeated primary key; [OverflowError] is raised by
    [datetime] when a date leaves the years 1..9999 and by [sqlite3] when an
    integer does not fit 64 bits. *)
Inductive exn : Set :=
  | KeyError
  | ValueError (why : value_error)
  | ZeroDivisionError
  | OverflowError
  | IntegrityError.

(** The outcome of running a method: a value, a raised exception, or a loop
    that used up its fuel. *)
Inductive result (A : Type) : Type :=
  | Ok (a : A)
  | Raise (e : exn)
  | OutOfFuel.

Arguments Ok {A} a.
Arguments Raise {A} e.
Arguments OutOfFuel {A}.

#[global] Instance result_ret : MRet result := λ A a, Ok a.
#[global] Instance result_bind : MBind result := λ A B f m,
  match m with
  | Ok a => f a
  | Raise e => Raise e
  | OutOfFuel => OutOfFuel
  end.

(** [d[k]] on a dictionary: the value, or [KeyError]. *)
Definition getitem {A} (o : option A) : result A :=
  match o with
  | Some a => Ok a
  | None => Raise KeyError
  end.

(** A [for] loop whose body can raise. *)
Fixpoint for_each {A S : Type} (body : S → A → result S) (xs : list A) (s : S)
  : result S :=
  match xs with
  | [] => Ok s
  | x :: xs' => s' ← body s x; for_each body xs' s'
  end.

(** ** Dates *)

(** A [datetime.date] is its proleptic Gregorian ordinal ([date.toordinal]):
    [date.min] is day 1 and [date.max], 9999-12-31, is day 3652059.  The
    store keeps dates as ISO-8601 text; [isoformat] and [fromisoformat] are
    inverse to each other, and on four-digit years the order of the texts is
    the order of the days, so the model keeps the ordinal in the row. *)
Abbreviation date := Z (only parsing).

Definition MINORDINAL : Z := 1.
Definition MAXORDINAL : Z := 3652059.

Definition valid_date (d : date) : Prop := MINORDINAL ≤ d ≤ MAXORDINAL.

(** [d + timedelta(days=n)]: [OverflowError] outside [date.min .. date.max]
    (a [timedelta] too large to build leaves that range as well). *)
Definition date_add_days (d : date) (n : Z) : result date :=
  if bool_decide (MINORDINAL ≤ d + n ≤ MAXORDINAL) then Ok (d + n)
  else Raise OverflowError.

(** A [datetime.datetime]: its day and the microseconds since midnight. *)
Record datetime : Set := mk_datetime {
  dt_date : date;
  dt_micros : Z;
}.

(** ** Data model *)

Module Project.
Record t : Set := mk {
  name : string;
  owner : string;
  deadline : date;
  id : string;
  status : string;
  description : string;
  created_at : datetime;
}.

(** [Project.days_remaining], with [date.today()] passed in. *)
Definition days_remaining (today : date) (p : t) : Z := deadline p - today.

(** [Project.is_overdue]. *)
Definition is_overdue (today : date) (p : t) : bool :=
  bool_decide (status p ≠ "completed" ∧ status p ≠ "cancelled")
  && bool_decide (deadline p < today).
End Project.

Module Task.
Record t : Set := mk {
  project_id : string;
  title : string;
  assignee : string;
  priority : Z;
  id : string;
  status : string;
  due_date : option date;
  story_points : Z;
  dependencies : list string;
  completed_at : option datetime;
  created_at : datetime;
}.

Definition is_done (x : t) : bool := bool_decide (status x = "done").
End Task.

(** A row of the [tasks] table: a task without its dependency list, which
    lives in the [dependencies] table. *)
Module TaskRow.
Record t : Set := mk {
  id : string;
  project_id : string;
  title : string;
  assignee : string;
  priority : Z;
  status : string;
  due_date : option date;
  story_points : Z;
  completed_at : option datetime;
  created_at : datetime;
}.
End TaskRow.

(** The database behind [self.conn]: the three tables of [DDL], each in
    insertion (rowid) order.  A [dependencies] row is [(task_id, depends_on)]. *)
Record Db : Set := mk_db {
  projects : list Project.t;
  tasks : list TaskRow.t;
  dependencies : list (string * string);
}.

Definition empty_db : Db := mk_db [] [] [].

(** The PRIMARY KEY constraints of [DDL]. *)
Definition wf_db (db : Db) : Prop :=
  NoDup (Project.id <$> projects db)
  ∧ NoDup (TaskRow.id <$> tasks db)
  ∧ NoDup (dependencies db).

(** SQLite's INTEGER is a signed 64-bit number; [sqlite3] raises
    [OverflowError] when asked to bind a Python integer outside of it. *)
Definition fits_int64 (z : Z) : bool :=
  bool_decide (- 2 ^ 63 ≤ z < 2 ^ 63).

(** ** Sorting *)

(** Python's [sorted] and [list.sort] are stable, and a stable sort's result
    is determined by the order alone; insertion sort, which puts an element
    in front of the elements that compare equal to it and came later, is the
    shortest way to write it down.  [leb x y] reads "x may stand before y". *)
Fixpoint insert_sorted {A} (leb : A → A → bool) (x : A) (l : list A) : list A :=
  match l with
  | [] => [x]
  | y :: l' => if leb x y then x :: l else y :: insert_sorted leb x l'
  end.

Definition stable_sort {A} (leb : A → A → bool) (l : list A) : list A :=
  foldr (insert_sorted leb) [] l.

(** [sorted(l, key=key)] for an integer key. *)
Definition sorted_by_key {A} (key : A → Z) (l : list A) : list A :=
  stable_sort (λ x y, bool_decide (key x ≤ key y)) l.

(** SQLite compares NULL as smaller than every value, so in an ascending
    ORDER BY the rows with a NULL come first. *)
Definition null_first_leb (a b : option Z) : bool :=
  match a, b with
  | None, _ => true
  | Some _, None => false
  | Some x, Some y => bool_decide (x ≤ y)
  end.

(** [ORDER BY priority, due_date]. *)
Definition task_order_leb (r1 r2 : TaskRow.t) : bool :=
  bool_decide (TaskRow.priority r1 < TaskRow.priority r2)
  || (bool_decide (TaskRow.priority r1 = TaskRow.priority r2)
      && null_first_leb (TaskRow.due_date r1) (TaskRow.due_date r2)).

(** ** Entity store *)

(** [create_project].  The fresh [uuid4] identifier and [datetime.utcnow()]
    come from the environment. *)
Definition create_project (new_id : string) (now : datetime)
    (name owner : string) (deadline : date) (description : string) (db : Db)
  : result (Db * Project.t) :=
  let p := Project.mk name owner deadline new_id "active" description now in
  if bool_decide (new_id ∈ Project.id <$> projects db) then Raise IntegrityError
  else Ok (mk_db (projects db ++ [p]) (tasks db) (dependencies db), p).

(** [get_project]: [fetchone] of the rows with that id, [None] when there is
    none. *)
Definition get_project (db : Db) (project_id : string) : option Project.t :=
  head (filter (λ p, Project.id p = project_id) (projects db)).

(** [list_projects]: an empty or absent status selects every project. *)
Definition list_projects (db : Db) (status : option string) : list Project.t :=
  let rows :=
    match status with
    | Some s =>
        if bool_decide (s = "") then projects db
        else filter (λ p, Project.status p = s) (projects db)
    | None => projects db
    end in
  sorted_by_key Project.deadline rows.

Definition set_project_status (status : string) (p : Project.t) : Project.t :=
  Project.mk (Project.name p) (Project.owner p) (Project.deadline p)
    (Project.id p) status (Project.description p) (Project.created_at p).

(** [update_project_status]: the new store and [cur.rowcount > 0]. *)
Definition update_project_status (db : Db) (project_id status : string)
  : Db * bool :=
  (mk_db
     ((λ p, if bool_decide (Project.id p = project_id)
            then set_project_status status p else p) <$> projects db)
     (tasks db) (dependencies db),
   bool_decide (project_id ∈ Project.id <$> projects db)).

(** [INSERT OR IGNORE INTO dependencies VALUES (task_id, depends_on)]. *)
Definition insert_or_ignore (deps : list (string * string))
    (task_id depends_on : string) : list (string * string) :=
  if bool_decide ((task_id, depends_on) ∈ deps) then deps
  else deps ++ [(task_id, depends_on)].

Definition task_to_row (x : Task.t) : TaskRow.t :=
  TaskRow.mk (Task.id x) (Task.project_id x) (Task.title x) (Task.assignee x)
    (Task.priority x) (Task.status x) (Task.due_date x) (Task.story_points x)
    (Task.completed_at x) (Task.created_at x).

(** [add_task]: the row is stored as it is given, then one edge per listed
    dependency.  Foreign keys are declared but SQLite does not enforce them
    unless asked to, so neither the project nor a dependency has to exist. *)
Definition add_task (task : Task.t) (db : Db) : result (Db * Task.t) :=
  if negb (fits_int64 (Task.priority task) && fits_int64 (Task.story_points task))
  then Raise OverflowError
  else if bool_decide (Task.id task ∈ TaskRow.id <$> tasks db)
  then Raise IntegrityError
  else
    Ok (mk_db (projects db) (tasks db ++ [task_to_row task])
          (foldl (λ deps dep, insert_or_ignore deps (Task.id task) dep)
             (dependencies db) (Task.dependencies task)),
        task).

(** [SELECT depends_on FROM dependencies WHERE task_id=?].  SQLite answers
    the query from the index of the primary key [(task_id, depends_on)],
    which covers it, so the rows come by ascending [depends_on]; the
    collation of a TEXT column is BINARY, the order of the bytes. *)
Definition select_depends_on (db : Db) (task_id : string) : list string :=
  stable_sort String.leb (snd <$> filter (λ e, e.1 = task_id) (dependencies db)).

Definition _row_to_task (row : TaskRow.t) (deps : list string) : Task.t :=
  Task.mk (TaskRow.project_id row) (TaskRow.title row) (TaskRow.assignee row)
    (TaskRow.priority row) (TaskRow.id row) (TaskRow.status row)
    (TaskRow.due_date row) (TaskRow.story_points row) deps
    (TaskRow.completed_at row) (TaskRow.created_at row).

(** [get_task]. *)
Definition get_task (db : Db) (task_id : string) : option Task.t :=
  match head (filter (λ r, TaskRow.id r = task_id) (tasks db)) with
  | None => None
  | Some row => Some (_row_to_task row (select_depends_on db task_id))
  end.

(** [get_project_tasks]: the project's rows [ORDER BY priority, due_date],
    each with its dependency list.  Rows that agree on both columns stay in
    the order of insertion. *)
Definition get_project_tasks (db : Db) (project_id : string) : list Task.t :=
  let rows :=
    stable_sort task_order_leb
      (filter (λ r, TaskRow.project_id r = project_id) (tasks db)) in
  (λ row, _row_to_task row (select_depends_on db (TaskRow.id row))) <$> rows.

Definition set_task_status (status : string) (completed_at : option datetime)
    (r : TaskRow.t) : TaskRow.t :=
  TaskRow.mk (TaskRow.id r) (TaskRow.project_id r) (TaskRow.title r)
    (TaskRow.assignee r) (TaskRow.priority r) status (TaskRow.due_date r)
    (TaskRow.story_points r) completed_at (TaskRow.created_at r).

(** [update_task_status], with [datetime.utcnow()] passed in. *)
Definition update_task_status (now : datetime) (db : Db)
    (task_id status : string) : Db * bool :=
  let completed_at := if bool_decide (status = "done") then Some now else None in
  (mk_db (projects db)
     ((λ r, if bool_decide (TaskRow.id r = task_id)
            then set_task_status status completed_at r else r) <$> tasks db)
     (dependencies db),
   bool_decide (task_id ∈ TaskRow.id <$> tasks db)).

(** [add_dependency]. *)
Definition add_dependency (db : Db) (task_id depends_on : string) : Db :=
  mk_db (projects db) (tasks db)
    (insert_or_ignore (dependencies db) task_id depends_on).

(** ** Critical-path engine *)

(** [{t.id: t for t in tasks}]: a later task with the same id replaces an
    earlier one. *)
Definition by_id_of (tasks : list Task.t) : gmap string Task.t :=
  foldl (λ m t, <[Task.id t := t]> m) ∅ tasks.

(** [{t.id: v for t in tasks}]. *)
Definition dict_of_ids {V} (v : V) (tasks : list Task.t) : gmap string V :=
  foldl (λ m t, <[Task.id t := v]> m) ∅ tasks.

(** [children[k]] on a [defaultdict(list)]: a missing key reads as the empty
    list. *)
Definition children_get (children : gmap string (list string)) (k : string)
  : list string :=
  default [] (children !! k).

(** The in-degree map and the forward adjacency map while they are built. *)
Record graph : Type := mk_graph {
  g_in_deg : gmap string Z;
  g_children : gmap string (list string);
}.

(** The body of [for dep in task.dependencies]. *)
Definition add_edge (by_id : gmap string Task.t) (task_id : string)
    (g : graph) (dep : string) : result graph :=
  if bool_decide (is_Some (by_id !! dep)) then
    d ← getitem (g_in_deg g !! task_id);
    Ok (mk_graph (<[task_id := d + 1]> (g_in_deg g))
          (<[dep := children_get (g_children g) dep ++ [task_id]]> (g_children g)))
  else Ok g.

(** The body of [for task in tasks]. *)
Definition add_task_edges (by_id : gmap string Task.t) (g : graph)
    (task : Task.t) : result graph :=
  for_each (add_edge by_id (Task.id task)) (Task.dependencies task) g.

Definition build_graph (tasks : list Task.t) : result graph :=
  for_each (add_task_edges (by_id_of tasks)) tasks
    (mk_graph (dict_of_ids 0 tasks) ∅).

(** The variables of the [while queue] loop. *)
Module Kahn.
Record state : Type := mk {
  queue : list string;
  topo_order : list string;
  in_deg : gmap string Z;
  earliest : gmap string Z;
  pred : gmap string (option string);
}.
End Kahn.

(** The body of [for child_id in children[tid]]. *)
Definition relax (tid : string) (finish : Z) (st : Kahn.state)
    (child_id : string) : result Kahn.state :=
  e ← getitem (Kahn.earliest st !! child_id);
  let '(earliest', pred') :=
    if bool_decide (finish > e)
    then (<[child_id := finish]> (Kahn.earliest st),
          <[child_id := Some tid]> (Kahn.pred st))
    else (Kahn.earliest st, Kahn.pred st) in
  d ← getitem (Kahn.in_deg st !! child_id);
  let in_deg' := <[child_id := d - 1]> (Kahn.in_deg st) in
  Ok (Kahn.mk
        (if bool_decide (d - 1 = 0) then Kahn.queue st ++ [child_id]
         else Kahn.queue st)
        (Kahn.topo_order st) in_deg' earliest' pred').

(** The body of [while queue], for a queue whose head is [tid]. *)
Definition kahn_step (by_id : gmap string Task.t)
    (children : gmap string (list string)) (tid : string) (rest : list string)
    (st : Kahn.state) : result Kahn.state :=
  let st1 := Kahn.mk rest (Kahn.topo_order st ++ [tid]) (Kahn.in_deg st)
               (Kahn.earliest st) (Kahn.pred st) in
  task ← getitem (by_id !! tid);
  e ← getitem (Kahn.earliest st !! tid);
  let finish := e + Task.story_points task in
  for_each (relax tid finish) (children_get children tid) st1.

(** [while queue: ...]. *)
Fixpoint kahn_loop (fuel : nat) (by_id : gmap string Task.t)
    (children : gmap string (list string)) (st : Kahn.state)
  : result Kahn.state :=
  match Kahn.queue st with
  | [] => Ok st
  | tid :: rest =>
      match fuel with
      | O => OutOfFuel
      | S fuel' =>
          st' ← kahn_step by_id children tid rest st;
          kahn_loop fuel' by_id children st'
      end
  end.

(** The key of [max]: [earliest[tid] + by_id[tid].story_points]. *)
Definition finish_key (by_id : gmap string Task.t) (earliest : gmap string Z)
    (tid : string) : result Z :=
  e ← getitem (earliest !! tid);
  task ← getitem (by_id !! tid);
  Ok (e + Task.story_points task).

(** [max(l, key=key)] keeps the first of the largest elements. *)
Fixpoint max_from (key : string → result Z) (best : string) (kbest : Z)
    (l : list string) : result string :=
  match l with
  | [] => Ok best
  | x :: l' =>
      kx ← key x;
      if bool_decide (kbest < kx) then max_from key x kx l'
      else max_from key best kbest l'
  end.

Definition py_max (key : string → result Z) (l : list string) : result string :=
  match l with
  | [] => Raise (ValueError EmptySequence)
  | x :: l' => kx ← key x; max_from key x kx l'
  end.

(** [while cur is not None: path.append(cur); cur = pred[cur]]. *)
Fixpoint trace_back (fuel : nat) (pred : gmap string (option string))
    (cur : option string) (path : list string) : result (list string) :=
  match cur with
  | None => Ok path
  | Some c =>
      match fuel with
      | O => OutOfFuel
      | S fuel' =>
          next ← getitem (pred !! c);
          trace_back fuel' pred next (path ++ [c])
      end
  end.

(** [[by_id[tid] for tid in path]]. *)
Fixpoint tasks_of_ids (by_id : gmap string Task.t) (path : list string)
  : result (list Task.t) :=
  match path with
  | [] => Ok []
  | tid :: path' =>
      t ← getitem (by_id !! tid);
      ts ← tasks_of_ids by_id path';
      Ok (t :: ts)
  end.

(** The state the [while queue] loop starts in. *)
Definition kahn_init (tasks : list Task.t) (g : graph) : Kahn.state :=
  Kahn.mk
    (filter (λ tid, g_in_deg g !! tid = Some 0) (Task.id <$> tasks))
    [] (g_in_deg g) (dict_of_ids 0 tasks) (dict_of_ids None tasks).

(** [get_critical_path] from the task list on.  The ready queue is seeded
    from [in_deg.items()], that is in the order the keys were inserted: the
    order of [tasks], whose ids are a primary key. *)
Definition critical_path (fuel : nat) (tasks : list Task.t)
  : result (list Task.t) :=
  match tasks with
  | [] => Ok []
  | _ =>
      let by_id := by_id_of tasks in
      g ← build_graph tasks;
      st ← kahn_loop fuel by_id (g_children g) (kahn_init tasks g);
      if bool_decide (length (Kahn.topo_order st) ≠ length tasks) then
        Ok (sorted_by_key Task.priority tasks)
      else
        end_id ← py_max (finish_key by_id (Kahn.earliest st)) (Kahn.topo_order st);
        path ← trace_back fuel (Kahn.pred st) (Some end_id) [];
        tasks_of_ids by_id (reverse path)
  end.

Definition get_critical_path (fuel : nat) (db : Db) (project_id : string)
  : result (list Task.t) :=
  critical_path fuel (get_project_tasks db project_id).

(** ** Floating point *)

(** Python's [float] is an IEEE 754 binary64, as is Rocq's primitive [float];
    [*] and [-] on it are the primitive operations.  What Python adds is the
    passage from integers and [round], modelled here on the exact values.
    Python raises [OverflowError] where the conversions below would give an
    infinity; story points are SQLite integers of 64 bits, so a project's
    total stays far away from there. *)

(** [float(z)]: the nearest double, ties to even. *)
Definition float_of_Z (z : Z) : float :=
  SF2Prim (binary_normalize prec emax z 0 false).

Definition Z_to_spec_float (z : Z) : spec_float :=
  match z with
  | Z0 => S754_zero false
  | Zpos p => S754_finite false p 0
  | Zneg p => S754_finite true p 0
  end.

(** [a / b] on integers: the double nearest to the exact quotient. *)
Definition int_true_div (a b : Z) : result float :=
  if bool_decide (b = 0) then Raise ZeroDivisionError
  else Ok (SF2Prim (SFdiv prec emax (Z_to_spec_float a) (Z_to_spec_float b))).

(** The integer nearest to [n / d] for a positive [d], ties to even. *)
Definition round_half_even_div (n d : Z) : Z :=
  let q := n / d in
  let r := n mod d in
  if bool_decide (2 * r < d) then q
  else if bool_decide (d < 2 * r) then q + 1
  else if Z.even q then q else q + 1.

(** [round(x, 2)]: CPython prints [x] with two decimals, correctly rounded
    from its exact value, and reads the decimal back: the double nearest to
    [n / 100], where [n] is the integer nearest to [100 * x]. *)
Definition py_round2 (x : float) : float :=
  match Prim2SF x with
  | S754_finite s m e =>
      if bool_decide (0 ≤ e) then x
      else
        match round_half_even_div (Z.pos m * 100) (2 ^ (- e)) with
        | Zpos n =>
            SF2Prim (SFdiv prec emax (S754_finite s n 0) (S754_finite false 100 0))
        | _ => SF2Prim (S754_zero s)
        end
  | _ => x
  end.

(** ** Burndown *)

(** One entry of the chart; ["date"] is kept as the day, not as its text. *)
Record chart_point : Set := mk_point {
  cp_day : Z;
  cp_date : date;
  cp_ideal : float;
  cp_actual : Z;
}.

(** The body of the loop that fills [completed_by_day], a
    [defaultdict(int)]. *)
Definition add_completion (start : date) (completed_by_day : gmap Z Z)
    (task : Task.t) : gmap Z Z :=
  if Task.is_done task then
    match Task.completed_at task with
    | Some c =>
        let d := dt_date c in
        if bool_decide (d >= start)
        then <[d := default 0 (completed_by_day !! d) + Task.story_points task]>
               completed_by_day
        else completed_by_day
    | None => completed_by_day
    end
  else completed_by_day.

(** [round(total_points - ideal_per_day * i, 2)]. *)
Definition ideal_value (total_points : Z) (ideal_per_day : float) (i : Z)
  : float :=
  py_round2 (float_of_Z total_points - ideal_per_day * float_of_Z i)%float.

(** The body of [for i in range(sprint_days + 1)], on the pair of
    [remaining] and [chart]. *)
Definition burndown_day (start : date) (total_points : Z) (ideal_per_day : float)
    (completed_by_day : gmap Z Z) (acc : Z * list chart_point) (i : Z)
  : result (Z * list chart_point) :=
  day ← date_add_days start i;
  let remaining := acc.1 - default 0 (completed_by_day !! day) in
  Ok (remaining,
      acc.2 ++ [mk_point i day (ideal_value total_points ideal_per_day i)
                  remaining]).

(** [sum(t.story_points for t in tasks)]. *)
Definition sum_story_points (tasks : list Task.t) : Z :=
  foldr Z.add 0 (Task.story_points <$> tasks).

(** [calculate_burndown], with [date.today()] passed in. *)
Definition calculate_burndown (today : date) (db : Db) (project_id : string)
    (sprint_days : Z) : result (list chart_point) :=
  let tasks := get_project_tasks db project_id in
  let total_points := sum_story_points tasks in
  if bool_decide (total_points = 0) then Ok []
  else
    start ← date_add_days today (- sprint_days);
    ideal_per_day ← int_true_div total_points sprint_days;
    let completed_by_day := foldl (add_completion start) ∅ tasks in
    acc ← for_each (burndown_day start total_points ideal_per_day completed_by_day)
            (seqZ 0 (sprint_days + 1)) (total_points, []);
    Ok acc.2.

(** ** Gantt CSV *)

Definition quotechar : ascii := ascii_of_nat 34.
Definition CR : ascii := ascii_of_nat 13.
Definition LF : ascii := ascii_of_nat 10.

Fixpoint string_exists (f : ascii → bool) (s : string) : bool :=
  match s with
  | EmptyString => false
  | String c s' => f c || string_exists f s'
  end.

(** Inside a quoted field the quote character is doubled. *)
Fixpoint csv_double_quotes (s : string) : string :=
  match s with
  | EmptyString => EmptyString
  | String c s' =>
      if bool_decide (c = quotechar)
      then String c (String c (csv_double_quotes s'))
      else String c (csv_double_quotes s')
  end.

(** [csv.writer]'s default dialect quotes a field when it holds the
    delimiter, the quote character or a line break. *)
Definition csv_field (s : string) : string :=
  if string_exists
       (λ c, bool_decide (c = ","%char ∨ c = quotechar ∨ c = CR ∨ c = LF)) s
  then String quotechar (csv_double_quotes s +:+ String quotechar EmptyString)
  else s.

(** [writer.writerow] of a row with more than one field. *)
Definition csv_writerow (fields : list string) : string :=
  String.concat "," (csv_field <$> fields) +:+ String CR (String LF EmptyString).

(** How often the character [c] occurs in [s]. *)
Fixpoint string_count (c : ascii) (s : string) : nat :=
  match s with
  | EmptyString => 0%nat
  | String c' s' =>
      ((if bool_decide (c' = c) then 1 else 0) + string_count c s')%nat
  end.

Definition gantt_header : list string :=
  ["Task ID"; "Title"; "Assignee"; "Priority"; "Status"; "Story Points";
   "Due Date"; "Dependencies"; "Critical Path"].

(** A [str] is kept as its UTF-8 bytes; the bytes [10xxxxxx] continue the
    code point that the byte before them began. *)
Definition is_continuation_byte (c : ascii) : bool :=
  bool_decide (128 ≤ nat_of_ascii c < 192)%nat.

(** [s[:n]]: the first [n] code points of [s]. *)
Fixpoint str_prefix (n : nat) (s : string) : string :=
  match s with
  | EmptyString => EmptyString
  | String c s' =>
      if is_continuation_byte c then String c (str_prefix n s')
      else
        match n with
        | O => EmptyString
        | S n' => String c (str_prefix n' s')
        end
  end.

Section gantt.
(** [date.isoformat], the calendar text of a day. *)
Variable isoformat : date → string.

Definition gantt_row (cp_ids : gset string) (task : Task.t) : list string :=
  [ str_prefix 8 (Task.id task);
    Task.title task;
    Task.assignee task;
    pretty (Task.priority task);
    Task.status task;
    pretty (Task.story_points task);
    match Task.due_date task with Some d => isoformat d | None => "" end;
    String.concat "|" (str_prefix 8 <$> Task.dependencies task);
    if bool_decide (Task.id task ∈ cp_ids) then "YES" else "no" ].

(** [export_gantt_csv]: the text written to the buffer. *)
Definition export_gantt_csv (fuel : nat) (db : Db) (project_id : string)
  : result string :=
  match get_project db project_id with
  | None => Raise (ValueError (ProjectNotFound project_id))
  | Some _ =>
      let tasks := get_project_tasks db project_id in
      cp ← get_critical_path fuel db project_id;
      let cp_ids : gset string := list_to_set (Task.id <$> cp) in
      Ok (csv_writerow gantt_header
          +:+ String.concat "" ((λ t, csv_writerow (gantt_row cp_ids t)) <$> tasks))
  end.
End gantt.

(** ** Deadline alerts *)

(** An alert record: the dictionary built for a project and the one built
    for a task, with their dates kept as days. *)
Inductive alert : Set :=
  | ProjectAlert (id name owner : string) (deadline : date)
      (days_remaining : Z) (urgency : string)
  | TaskAlert (id title assignee : string) (due_date : date)
      (days_remaining : Z) (urgency : string).

(** [a["days_remaining"]]. *)
Definition alert_days_remaining (a : alert) : Z :=
  match a with
  | ProjectAlert _ _ _ _ d _ => d
  | TaskAlert _ _ _ _ d _ => d
  end.

(** [a["urgency"]]. *)
Definition alert_urgency (a : alert) : string :=
  match a with
  | ProjectAlert _ _ _ _ _ u => u
  | TaskAlert _ _ _ _ _ u => u
  end.

(** [a["type"]]. *)
Definition alert_type (a : alert) : string :=
  match a with
  | ProjectAlert _ _ _ _ _ _ => "project"
  | TaskAlert _ _ _ _ _ _ => "task"
  end.

(** [a["id"]]. *)
Definition alert_id (a : alert) : string :=
  match a with
  | ProjectAlert id _ _ _ _ _ => id
  | TaskAlert id _ _ _ _ _ => id
  end.

Definition urgency_of (delta : Z) : string :=
  if bool_decide (delta < 0) then "overdue"
  else if bool_decide (delta = 0) then "today" else "upcoming".

(** The body of the loop over the active projects. *)
Definition project_alert (today : date) (days_ahead : Z) (project : Project.t)
  : option alert :=
  let delta := Project.deadline project - today in
  if bool_decide (delta ≤ days_ahead) then
    Some (ProjectAlert (Project.id project) (Project.name project)
            (Project.owner project) (Project.deadline project) delta
            (urgency_of delta))
  else None.

(** The SELECT over [tasks] and the body of the loop over its rows. *)
Definition task_alert (today horizon : date) (row : TaskRow.t) : option alert :=
  if bool_decide (TaskRow.status row ≠ "done" ∧ TaskRow.status row ≠ "blocked")
  then
    match TaskRow.due_date row with
    | Some due =>
        if bool_decide (due ≤ horizon) then
          let delta := due - today in
          Some (TaskAlert (TaskRow.id row) (TaskRow.title row)
                  (TaskRow.assignee row) due delta (urgency_of delta))
        else None
    | None => None
    end
  else None.

(** [check_deadlines], with [date.today()] passed in. *)
Definition check_deadlines (today : date) (db : Db) (days_ahead : Z)
  : result (list alert) :=
  horizon ← date_add_days today days_ahead;
  let project_alerts :=
    omap (project_alert today days_ahead) (list_projects db (Some "active")) in
  let task_alerts := omap (task_alert today horizon) (tasks db) in
  Ok (sorted_by_key alert_days_remaining (project_alerts ++ task_alerts)).

(** ** Vocabulary of the statements *)

Definition task_ids (tasks : list Task.t) : list string := Task.id <$> tasks.

(** What the primary keys of [tasks] and [dependencies] give a task list
    read from the store: no id twice, and no dependency listed twice. *)
Definition wf_tasks (tasks : list Task.t) : Prop :=
  NoDup (task_ids tasks) ∧ ∀ t, t ∈ tasks → NoDup (Task.dependencies t).

(** [dep_edge tasks p c]: the task [c] depends on [p], and [p] is a task of
    the list (the edge survives the restriction to the input set). *)
Definition dep_edge (tasks : list Task.t) (p c : string) : Prop :=
  ∃ t, t ∈ tasks ∧ Task.id t = c ∧ p ∈ Task.dependencies t ∧ p ∈ task_ids tasks.

Definition cyclic (tasks : list Task.t) : Prop :=
  ∃ x, tc (dep_edge tasks) x x.

Definition acyclic (tasks : list Task.t) : Prop := ¬ cyclic tasks.

(** A chain of tasks of the list, each one a prerequisite of the next, in
    execution order. *)
Inductive dep_chain (tasks : list Task.t) : list Task.t → Prop :=
  | chain_one t : t ∈ tasks → dep_chain tasks [t]
  | chain_cons a b l :
      a ∈ tasks → Task.id a ∈ Task.dependencies b →
      dep_chain tasks (b :: l) → dep_chain tasks (a :: b :: l).

(** The finish time of [t]: the largest weight of a chain that ends in [t].
    With positive weights this is the longest-path earliest start of [t],
    the largest finish time among its prerequisites or 0 without any, plus
    the weight of [t] itself. *)
Definition finish_time (tasks : list Task.t) (t : Task.t) (f : Z) : Prop :=
  (∃ l, dep_chain tasks l ∧ last l = Some t ∧ sum_story_points l = f)
  ∧ ∀ l, dep_chain tasks l → last l = Some t → sum_story_points l ≤ f.

(** [w] is the largest finish time over all tasks. *)
Definition max_finish_time (tasks : list Task.t) (w : Z) : Prop :=
  (∃ t, t ∈ tasks ∧ finish_time tasks t w)
  ∧ ∀ t f, t ∈ tasks → finish_time tasks t f → f ≤ w.

(** The restricted prerequisites of the task with id [c]. *)
Definition parents_of (tasks : list Task.t) (c : string) : list string :=
  match by_id_of tasks !! c with
  | Some t => filter (λ p, p ∈ task_ids tasks) (Task.dependencies t)
  | None => []
  end.

(** The ids of the tasks that list [p] as a dependency, in input order. *)
Definition kids_of (tasks : list Task.t) (p : string) : list string :=
  Task.id <$> filter (λ t, p ∈ Task.dependencies t) tasks.

Definition weight_of (tasks : list Task.t) (c : string) : Z :=
  from_option Task.story_points 0 (by_id_of tasks !! c).

(** How many restricted prerequisites of [c] have not been emitted yet. *)
Definition remaining (tasks : list Task.t) (T : list string) (c : string) : nat :=
  length (filter (λ p, p ∉ T) (parents_of tasks c)).

(** [earliest[c] + by_id[c].story_points] as a total function. *)
Definition label_finish (tasks : list Task.t) (earliest : gmap string Z)
    (c : string) : Z :=
  default 0 (earliest !! c) + weight_of tasks c.

(** Whether [finish > earliest[child_id]] holds for the label found. *)
Definition improves (finish : Z) (label : option Z) : bool :=
  match label with
  | Some e => bool_decide (finish > e)
  | None => false
  end.

(** What the labels of [c] say while the tasks of [T] have been emitted. *)
Definition label_ok (tasks : list Task.t) (T : list string)
    (earliest : gmap string Z) (pred : gmap string (option string))
    (c : string) : Prop :=
  ∃ e pr,
    earliest !! c = Some e ∧ pred !! c = Some pr ∧ 0 ≤ e
    ∧ (∀ p ep, p ∈ parents_of tasks c → p ∈ T → earliest !! p = Some ep →
         ep + weight_of tasks p ≤ e)
    ∧ match pr with
      | None => e = 0
      | Some p =>
          p ∈ parents_of tasks c ∧ p ∈ T
          ∧ ∃ ep, earliest !! p = Some ep ∧ e = ep + weight_of tasks p
      end.

(** The invariant of the [while queue] loop.  The emitted tasks followed by
    the waiting ones form one list that only ever grows at its end. *)
Record kahn_inv (tasks : list Task.t) (st : Kahn.state) : Prop := mk_kahn_inv {
  inv_nodup : NoDup (Kahn.topo_order st ++ Kahn.queue st);
  inv_ids : ∀ c, c ∈ Kahn.topo_order st ++ Kahn.queue st → c ∈ task_ids tasks;
  inv_in_deg : ∀ c, c ∈ task_ids tasks →
    Kahn.in_deg st !! c = Some (Z.of_nat (remaining tasks (Kahn.topo_order st) c));
  inv_ready : ∀ c, c ∈ task_ids tasks →
    (c ∈ Kahn.topo_order st ++ Kahn.queue st
     ↔ remaining tasks (Kahn.topo_order st) c = 0%nat);
  inv_order : ∀ i c p,
    (Kahn.topo_order st ++ Kahn.queue st) !! i = Some c →
    p ∈ parents_of tasks c →
    ∃ j, (j < i)%nat ∧ (Kahn.topo_order st ++ Kahn.queue st) !! j = Some p;
  inv_labels : ∀ c, c ∈ task_ids tasks →
    label_ok tasks (Kahn.topo_order st) (Kahn.earliest st) (Kahn.pred st) c;
}.

(** The ids met when walking the predecessor links back from [c]. *)
Inductive back_chain (pred : gmap string (option string))
  : string → list string → Prop :=
  | back_root c : pred !! c = Some None → back_chain pred c [c]
  | back_step c p l :
      pred !! c = Some (Some p) → back_chain pred p l →
      back_chain pred c (c :: l).

(** The invariant of the data model: a completion time exactly on the tasks
    that are done. *)
Definition completed_iff_done (r : TaskRow.t) : Prop :=
  TaskRow.completed_at r ≠ None ↔ TaskRow.status r = "done".

Definition store_inv (db : Db) : Prop :=
  ∀ r, r ∈ tasks db → completed_iff_done r.

(** The operations of the entity store that write a task. *)
Inductive store_op : Set :=
  | OpAddTask (task : Task.t)
  | OpUpdateTaskStatus (now : datetime) (task_id status : string).

(** A failed [add_task] raises and leaves the store as it was. *)
Definition run_op (db : Db) (op : store_op) : Db :=
  match op with
  | OpAddTask task =>
      match add_task task db with
      | Ok (db', _) => db'
      | _ => db
      end
  | OpUpdateTaskStatus now task_id status =>
      (update_task_status now db task_id status).1
  end.

Definition run_ops (ops : list store_op) (db : Db) : Db := foldl run_op db ops.

(** The order the specification asks of [get_project_tasks]: tasks without a
    due date after the dated ones. *)
Definition null_last_leb (a b : option Z) : bool :=
  match a, b with
  | _, None => true
  | None, Some _ => false
  | Some x, Some y => bool_decide (x ≤ y)
  end.

Definition by_priority_then (due_leb : option Z → option Z → bool)
    (t1 t2 : Task.t) : bool :=
  bool_decide (Task.priority t1 < Task.priority t2)
  || (bool_decide (Task.priority t1 = Task.priority t2)
      && due_leb (Task.due_date t1) (Task.due_date t2)).

(** Every element may stand before its successor. *)
Fixpoint is_sorted {A} (leb : A → A → bool) (l : list A) : bool :=
  match l with
  | x :: (y :: _) as l' => leb x y && is_sorted leb l'
  | _ => true
  end.

(** ** Statistics *)

(** A number that is an [int] on one path and a [float] on another. *)
Inductive py_number : Set :=
  | PyInt (z : Z)
  | PyFloat (x : float).

(** [round(x, ndigits)] for the few digits asked for in this module, by the
    recipe of [py_round2]: the double nearest to [n / 10 ^ ndigits], where
    [n] is the integer nearest to [10 ^ ndigits * x]. *)
Definition py_round_digits (ndigits : nat) (x : float) : float :=
  match Prim2SF x with
  | S754_finite s m e =>
      if bool_decide (0 ≤ e) then x
      else
        match round_half_even_div (Z.pos m * 10 ^ Z.of_nat ndigits)
                (2 ^ (- e)) with
        | Zpos n =>
            SF2Prim (SFdiv prec emax (S754_finite s n 0)
                       (Z_to_spec_float (10 ^ Z.of_nat ndigits)))
        | _ => SF2Prim (S754_zero s)
        end
  | _ => x
  end.

(** The dictionary [get_project_stats] returns. *)
Record project_stats : Set := mk_stats {
  total_tasks : Z;
  done_tasks : Z;
  pct_done : py_number;
  total_story_points : Z;
  done_story_points : Z;
  by_assignee : gmap string Z;
}.

(** [by_assignee[t.assignee] += t.story_points] on a [defaultdict(int)]. *)
Definition add_assignee_points (by_assignee : gmap string Z) (t : Task.t)
  : gmap string Z :=
  <[Task.assignee t :=
      default 0 (by_assignee !! Task.assignee t) + Task.story_points t]>
    by_assignee.

(** [get_project_stats]. *)
Definition get_project_stats (db : Db) (project_id : string)
  : result project_stats :=
  let tasks := get_project_tasks db project_id in
  let total := Z.of_nat (length tasks) in
  let done := Z.of_nat (length (filter (λ t, Task.is_done t = true) tasks)) in
  let total_sp := sum_story_points tasks in
  let done_sp := sum_story_points (filter (λ t, Task.is_done t = true) tasks) in
  let by_assignee := foldl add_assignee_points ∅ tasks in
  pct ← (if bool_decide (total = 0) then Ok (PyInt 0)
         else
           ratio ← int_true_div done total;
           Ok (PyFloat (py_round_digits 1 (ratio * float_of_Z 100)%float)));
  Ok (mk_stats total done pct total_sp done_sp by_assignee).

(** ** The calls that write to the store *)

Inductive api_call : Set :=
  | CallCreateProject (new_id : string) (now : datetime) (name owner : string)
      (deadline : date) (description : string)
  | CallUpdateProjectStatus (project_id status : string)
  | CallAddTask (task : Task.t)
  | CallUpdateTaskStatus (now : datetime) (task_id status : string)
  | CallAddDependency (task_id depends_on : string).

(** The store after a call; a call that raises leaves it as it was. *)
Definition run_call (db : Db) (c : api_call) : Db :=
  match c with
  | CallCreateProject new_id now name owner deadline description =>
      match create_project new_id now name owner deadline description db with
      | Ok (db', _) => db'
      | _ => db
      end
  | CallUpdateProjectStatus project_id status =>
      (update_project_status db project_id status).1
  | CallAddTask task =>
      match add_task task db with
      | Ok (db', _) => db'
      | _ => db
      end
  | CallUpdateTaskStatus now task_id status =>
      (update_task_status now db task_id status).1
  | CallAddDependency task_id depends_on =>
      add_dependency db task_id depends_on
  end.

Definition run_calls (calls : list api_call) (db : Db) : Db :=
  foldl run_call db calls.

(** ** Vocabulary of the further statements *)

(** The story points of the tasks that were done on day [d]. *)
Definition completed_on (tasks : list Task.t) (d : date) : Z :=
  sum_story_points
    (filter (λ t, Task.is_done t = true
                  ∧ dt_date <$> Task.completed_at t = Some d) tasks).

(** [sum(f(j) for j in days)]. *)
Definition sum_over (f : Z → Z) (days : list Z) : Z :=
  foldr Z.add 0 (f <$> days).

(** The store of [test_project_stats]: a done task of four points and an
    open one of two. *)
Definition stats_db : Db :=
  run_ops
    [OpAddTask (Task.mk "alpha" "Done" "a" 1 "s1" "todo" None 4 [] None
                  (mk_datetime 739000 0));
     OpAddTask (Task.mk "alpha" "Todo" "b" 2 "s2" "todo" None 2 [] None
                  (mk_datetime 739000 0));
     OpUpdateTaskStatus (mk_datetime 739000 0) "s1" "done"]
    empty_db.

(** ** Example stores *)

Definition epoch : datetime := mk_datetime 739000 0.

(** A task of project "alpha" as the tests build them. *)
Definition example_task (id : string) (priority story_points : Z)
    (due_date : option date) (deps : list string) : Task.t :=
  Task.mk "alpha" "T" "dev" priority id "todo" due_date story_points deps
    None epoch.

Definition store_of (ts : list Task.t) : Db :=
  run_ops (OpAddTask <$> ts) empty_db.

(** The linear chain of [test_critical_path_linear]. *)
Definition chain_a : Task.t := example_task "t1" 1 2 None [].
Definition chain_b : Task.t := example_task "t2" 1 5 None ["t1"].
Definition chain_c : Task.t := example_task "t3" 1 1 None ["t2"].
Definition chain_db : Db := store_of [chain_a; chain_b; chain_c].

(** The same chain with weights of zero. *)
Definition zero_a : Task.t := example_task "t1" 1 0 None [].
Definition zero_b : Task.t := example_task "t2" 1 0 None ["t1"].
Definition zero_c : Task.t := example_task "t3" 1 0 None ["t2"].
Definition zero_chain_db : Db := store_of [zero_a; zero_b; zero_c].

(** The two tasks of [test_critical_path_cycle_fallback], with the edge
    that closes the cycle inserted afterwards. *)
Definition cycle_db : Db :=
  add_dependency
    (store_of [example_task "a" 2 1 None []; example_task "b" 1 1 None ["a"]])
    "a" "b".

(** The same two tasks in a store that holds their project. *)
Definition cycle_project_db : Db :=
  run_calls
    [CallCreateProject "alpha" epoch "Alpha" "ed@br.io" 739002 "";
     CallAddTask (example_task "a" 2 1 None []);
     CallAddTask (example_task "b" 1 1 None ["a"]);
     CallAddDependency "a" "b"]
    empty_db.

(** A task that lists itself as a dependency. *)
Definition self_db : Db :=
  store_of [example_task "s" 1 1 None ["s"]; example_task "u" 1 1 None []].

(** Two tasks of one priority, the first one without a due date. *)
Definition due_db : Db :=
  store_of [example_task "late" 2 1 (Some 739100) [];
            example_task "open" 2 1 None []].

(** A task handed to [add_task] as done, as [Task(..., status="done")]
    builds it: without a completion time. *)
Definition done_task : Task.t :=
  Task.mk "alpha" "T" "dev" 3 "d1" "done" None 1 [] None epoch.

(** The three tasks of [test_burndown_shape]. *)
Definition burndown_db : Db :=
  store_of [example_task "b0" 3 2 None []; example_task "b1" 3 2 None [];
            example_task "b2" 3 2 None []].

(** A task of three story points and one of minus three: one task has
    positive story points, and the total is zero. *)
Definition cancel_db : Db :=
  store_of [example_task "plus" 1 3 None []; example_task "minus" 1 (-3) None []].

(** A task that lists three dependencies out of their alphabetical order. *)
Definition deps_db : Db :=
  store_of [example_task "t" 1 1 None ["z"; "a"; "m"]].

(** A project with a task whose title holds a comma and two quotes. *)
Definition quoted_title : string :=
  "Fix, " +:+ String quotechar "now" +:+ String quotechar EmptyString.

Definition quoted_db : Db :=
  run_calls
    [CallCreateProject "alpha" epoch "Alpha" "ed@br.io" 739002 "";
     CallAddTask (Task.mk "alpha" quoted_title "dev" 1 "q1" "todo" None 1 []
                    None epoch)]
    empty_db.

(** The two projects of [test_check_deadlines], 2 and 60 days ahead of day
    739000, and a task due the day before. *)
Definition deadline_db : Db :=
  mk_db
    [Project.mk "Urgent" "ed@br.io" 739002 "p1" "active" "" epoch;
     Project.mk "Far" "ed@br.io" 739060 "p2" "active" "" epoch]
    [task_to_row (example_task "due" 2 1 (Some 738999) [])]
    [].

(** * Proofs *)

(** ** The result monad *)

Lemma bind_Ok_l {A B} (a : A) (f : A → result B) : Ok a ≫= f = f a.
Proof. done. Qed.

Lemma for_each_cons {A S} (body : S → A → result S) (x : A) (xs : list A)
    (s : S) :
  for_each body (x :: xs) s = body s x ≫= for_each body xs.
Proof. done. Qed.

(** ** Stable sorting *)

Section sorting.
Context {A : Type} (leb : A → A → bool).

Lemma insert_sorted_Permutation (x : A) (l : list A) :
  insert_sorted leb x l ≡ₚ x :: l.
Proof.
  induction l as [|y l IH]; simpl; [done|].
  destruct (leb x y); [done|]. rewrite IH. apply Permutation_swap.
Qed.

Lemma stable_sort_Permutation (l : list A) : stable_sort leb l ≡ₚ l.
Proof.
  induction l as [|x l IH]; simpl; [done|].
  rewrite insert_sorted_Permutation. by f_equiv.
Qed.

Hypothesis leb_total : ∀ x y, leb x y = false → leb y x = true.

Lemma insert_sorted_HdRel (x a : A) (l : list A) :
  leb a x = true → HdRel (λ u v, leb u v = true) a l →
  HdRel (λ u v, leb u v = true) a (insert_sorted leb x l).
Proof.
  intros Hax Hl. destruct l as [|y l]; simpl; [by constructor|].
  destruct (leb x y); constructor; [done|]. by inversion Hl.
Qed.

Lemma insert_sorted_Sorted (x : A) (l : list A) :
  Sorted (λ u v, leb u v = true) l →
  Sorted (λ u v, leb u v = true) (insert_sorted leb x l).
Proof.
  induction 1 as [|y l Hl IH Hhd]; simpl; [by repeat constructor|].
  destruct (leb x y) eqn:Hxy.
  - constructor; [by constructor|by constructor].
  - constructor; [done|]. apply insert_sorted_HdRel; auto.
Qed.

Lemma stable_sort_Sorted (l : list A) :
  Sorted (λ u v, leb u v = true) (stable_sort leb l).
Proof.
  induction l as [|x l IH]; simpl; [constructor|].
  by apply insert_sorted_Sorted.
Qed.
End sorting.

Lemma Sorted_weaken {A} (R1 R2 : A → A → Prop) (l : list A) :
  (∀ x y, R1 x y → R2 x y) → Sorted R1 l → Sorted R2 l.
Proof.
  intros HR. induction 1 as [|x l Hl IH Hhd]; constructor; [done|].
  destruct Hhd; constructor; auto.
Qed.

Section sorted_by_key.
Context {A : Type} (key : A → Z).

Lemma sorted_by_key_Permutation (l : list A) : sorted_by_key key l ≡ₚ l.
Proof. apply stable_sort_Permutation. Qed.

Lemma sorted_by_key_Sorted (l : list A) :
  Sorted (λ u v, key u ≤ key v) (sorted_by_key key l).
Proof.
  eapply Sorted_weaken; [|apply stable_sort_Sorted].
  - intros u v Huv. by apply bool_decide_eq_true in Huv.
  - intros u v Huv. apply bool_decide_eq_false in Huv.
    apply bool_decide_eq_true. lia.
Qed.

(** Stability: the elements of one key keep the order they came in. *)
Lemma insert_sorted_filter_key (k : Z) (x : A) (l : list A) :
  filter (λ y, key y = k) (insert_sorted (λ u v, bool_decide (key u ≤ key v)) x l)
  = filter (λ y, key y = k) (x :: l).
Proof.
  induction l as [|y l IH]; simpl; [done|].
  case_bool_decide as Hxy; [done|].
  rewrite !(filter_cons _ y), IH, !filter_cons.
  repeat case_decide; try done; lia.
Qed.

Lemma sorted_by_key_stable (k : Z) (l : list A) :
  filter (λ y, key y = k) (sorted_by_key key l) = filter (λ y, key y = k) l.
Proof.
  induction l as [|x l IH]; [done|].
  unfold sorted_by_key in *. simpl. rewrite insert_sorted_filter_key.
  by rewrite !filter_cons, IH.
Qed.
End sorted_by_key.

(** ** The task list read from the store *)

Lemma select_depends_on_NoDup (db : Db) (task_id : string) :
  NoDup (dependencies db) → NoDup (select_depends_on db task_id).
Proof.
  unfold select_depends_on. rewrite stable_sort_Permutation.
  generalize (dependencies db) as l.
  induction l as [|[a b] l IH]; intros Hl; [constructor|].
  apply NoDup_cons in Hl as [Hab Hl]. rewrite filter_cons. simpl.
  case_decide as Ha; [|auto]. subst a. simpl. constructor; [|auto].
  intros Hb. apply list_elem_of_fmap in Hb as ([a' b'] & Hb' & Hin).
  apply list_elem_of_filter in Hin as [Ha' Hin]. simpl in *. by subst.
Qed.

Lemma get_project_tasks_ids (db : Db) (project_id : string) :
  task_ids (get_project_tasks db project_id)
  = TaskRow.id <$> stable_sort task_order_leb
      (filter (λ r, TaskRow.project_id r = project_id) (tasks db)).
Proof.
  unfold task_ids, get_project_tasks. rewrite <- list_fmap_compose.
  by apply list_fmap_ext.
Qed.

Lemma get_project_tasks_wf (db : Db) (project_id : string) :
  wf_db db → wf_tasks (get_project_tasks db project_id).
Proof.
  intros (_ & Hids & Hdeps). split.
  - rewrite get_project_tasks_ids, stable_sort_Permutation.
    eapply sublist_NoDup; [exact Hids|apply fmap_sublist, sublist_filter].
  - intros t Ht. unfold get_project_tasks in Ht.
    apply list_elem_of_fmap in Ht as (row & -> & _). simpl.
    by apply select_depends_on_NoDup.
Qed.

(** The store keeps its primary keys. *)
Lemma wf_db_empty : wf_db empty_db.
Proof. repeat split; constructor. Qed.

Lemma insert_or_ignore_NoDup (deps : list (string * string)) (a b : string) :
  NoDup deps → NoDup (insert_or_ignore deps a b).
Proof.
  intros Hd. unfold insert_or_ignore. case_bool_decide as Hin; [done|].
  apply NoDup_app. split_and!; [done| |apply NoDup_singleton].
  intros x Hx ->%list_elem_of_singleton. done.
Qed.

Lemma wf_db_add_task (task : Task.t) (db db' : Db) (t' : Task.t) :
  wf_db db → add_task task db = Ok (db', t') → wf_db db'.
Proof.
  intros (Hp & Ht & Hd). unfold add_task.
  destruct (negb _); [done|]. case_bool_decide as Hin; [done|].
  intros [= <- <-]. split_and!; simpl; [done| |].
  - rewrite fmap_app. apply NoDup_app. split_and!; [done| |apply NoDup_singleton].
    intros x Hx ->%list_elem_of_singleton. done.
  - generalize dependent (dependencies db). clear.
    induction (Task.dependencies task) as [|d ds IH]; intros deps Hd; simpl; [done|].
    by apply IH, insert_or_ignore_NoDup.
Qed.

Lemma wf_db_update_task_status (now : datetime) (db : Db) (task_id status : string) :
  wf_db db → wf_db (update_task_status now db task_id status).1.
Proof.
  intros (Hp & Ht & Hd). split_and!; simpl; [done| |done].
  rewrite <- list_fmap_compose.
  erewrite list_fmap_ext; [exact Ht|]. intros i r _. simpl.
  by case_bool_decide.
Qed.

Lemma wf_db_add_dependency (db : Db) (task_id depends_on : string) :
  wf_db db → wf_db (add_dependency db task_id depends_on).
Proof.
  intros (Hp & Ht & Hd). split_and!; simpl; [done..|].
  by apply insert_or_ignore_NoDup.
Qed.

Lemma wf_db_run_ops (ops : list store_op) (db : Db) :
  wf_db db → wf_db (run_ops ops db).
Proof.
  revert db. induction ops as [|op ops IH]; intros db Hdb; [done|].
  apply IH. destruct op as [task|now tid status]; simpl.
  - destruct (add_task task db) as [[db' t']| |] eqn:Hadd; [|done..].
    by eapply wf_db_add_task.
  - by apply wf_db_update_task_status.
Qed.

(** ** The dictionaries of the critical-path engine *)

Lemma by_id_of_snoc (tasks : list Task.t) (t : Task.t) :
  by_id_of (tasks ++ [t]) = <[Task.id t := t]> (by_id_of tasks).
Proof. unfold by_id_of. by rewrite foldl_app. Qed.

Lemma by_id_of_Some (tasks : list Task.t) (i : string) (t : Task.t) :
  by_id_of tasks !! i = Some t → t ∈ tasks ∧ Task.id t = i.
Proof.
  induction tasks as [|u tasks IH] using rev_ind; [done|].
  rewrite by_id_of_snoc, lookup_insert. case_decide as Hi.
  - intros [= <-]. split; [set_solver|done].
  - intros Ht. destruct (IH Ht). split; [set_solver|done].
Qed.

Lemma by_id_of_is_Some (tasks : list Task.t) (i : string) :
  is_Some (by_id_of tasks !! i) ↔ i ∈ task_ids tasks.
Proof.
  split.
  - intros [t Ht]. apply by_id_of_Some in Ht as [Ht <-].
    unfold task_ids. by apply list_elem_of_fmap_2.
  - unfold task_ids. induction tasks as [|u tasks IH] using rev_ind.
    + by intros ?%elem_of_nil.
    + rewrite by_id_of_snoc, fmap_app, lookup_insert. intros Hi.
      case_decide; [by eexists|]. apply IH. set_solver.
Qed.

Lemma by_id_of_lookup (tasks : list Task.t) (t : Task.t) :
  NoDup (task_ids tasks) → t ∈ tasks → by_id_of tasks !! Task.id t = Some t.
Proof.
  unfold task_ids. induction tasks as [|u tasks IH] using rev_ind.
  - by intros _ ?%elem_of_nil.
  - rewrite by_id_of_snoc, fmap_app. intros Hnd Ht.
    apply NoDup_app in Hnd as (Hnd & Hu & _).
    apply elem_of_app in Ht as [Ht| ->%list_elem_of_singleton].
    + rewrite lookup_insert_ne; [auto|]. intros Heq.
      apply (Hu (Task.id t)); [by apply list_elem_of_fmap_2|].
      rewrite <- Heq. simpl. set_solver.
    + by rewrite lookup_insert_eq.
Qed.

Lemma dict_of_ids_lookup {V} (v : V) (tasks : list Task.t) (i : string) :
  dict_of_ids v tasks !! i = if decide (i ∈ task_ids tasks) then Some v else None.
Proof.
  unfold dict_of_ids, task_ids.
  induction tasks as [|u tasks IH] using rev_ind; [done|].
  rewrite foldl_app, fmap_app. simpl. rewrite lookup_insert, IH.
  repeat case_decide; try done; set_solver.
Qed.

Lemma parents_of_task (tasks : list Task.t) (t : Task.t) :
  NoDup (task_ids tasks) → t ∈ tasks →
  parents_of tasks (Task.id t)
  = filter (λ p, p ∈ task_ids tasks) (Task.dependencies t).
Proof. intros Hnd Ht. unfold parents_of. by rewrite by_id_of_lookup. Qed.

Lemma elem_of_parents_of (tasks : list Task.t) (p c : string) :
  NoDup (task_ids tasks) → p ∈ parents_of tasks c ↔ dep_edge tasks p c.
Proof.
  intros Hnd. unfold parents_of, dep_edge. split.
  - destruct (by_id_of tasks !! c) as [t|] eqn:Hc; [|by intros ?%elem_of_nil].
    apply by_id_of_Some in Hc as [Ht <-].
    intros [Hp Hd]%list_elem_of_filter. eauto.
  - intros (t & Ht & <- & Hd & Hp). rewrite by_id_of_lookup by done.
    by apply list_elem_of_filter.
Qed.

Lemma parents_of_NoDup (tasks : list Task.t) (c : string) :
  wf_tasks tasks → NoDup (parents_of tasks c).
Proof.
  intros [Hnd Hdeps]. unfold parents_of.
  destruct (by_id_of tasks !! c) as [t|] eqn:Hc; [|constructor].
  apply by_id_of_Some in Hc as [Ht _]. apply NoDup_filter; auto.
Qed.

Lemma parents_of_ids (tasks : list Task.t) (p c : string) :
  p ∈ parents_of tasks c → p ∈ task_ids tasks.
Proof.
  unfold parents_of. destruct (by_id_of tasks !! c); [|by intros ?%elem_of_nil].
  by intros [? _]%list_elem_of_filter.
Qed.

Lemma elem_of_kids_of (tasks : list Task.t) (p c : string) :
  NoDup (task_ids tasks) → p ∈ task_ids tasks →
  c ∈ kids_of tasks p ↔ c ∈ task_ids tasks ∧ p ∈ parents_of tasks c.
Proof.
  intros Hnd Hp. unfold kids_of. rewrite list_elem_of_fmap. split.
  - intros (t & -> & [Hd Ht]%list_elem_of_filter). split.
    + unfold task_ids. by apply list_elem_of_fmap_2.
    + rewrite parents_of_task by done. by apply list_elem_of_filter.
  - intros [Hc Hpc]. apply elem_of_parents_of in Hpc as (t & Ht & <- & Hd & _); [|done].
    exists t. split; [done|]. by apply list_elem_of_filter.
Qed.

Lemma kids_of_NoDup (tasks : list Task.t) (p : string) :
  NoDup (task_ids tasks) → NoDup (kids_of tasks p).
Proof.
  intros Hnd. unfold kids_of.
  eapply sublist_NoDup; [exact Hnd|apply fmap_sublist, sublist_filter].
Qed.

Lemma weight_of_task (tasks : list Task.t) (t : Task.t) :
  NoDup (task_ids tasks) → t ∈ tasks →
  weight_of tasks (Task.id t) = Task.story_points t.
Proof. intros Hnd Ht. unfold weight_of. by rewrite by_id_of_lookup. Qed.

(** ** Building the graph *)

Section build_graph.
Context (by_id : gmap string Task.t).

Lemma add_edge_spec (tid : string) (g : graph) (dep : string) (d : Z) :
  g_in_deg g !! tid = Some d →
  ∃ g', add_edge by_id tid g dep = Ok g'
    ∧ g_in_deg g' !! tid
      = Some (d + if decide (is_Some (by_id !! dep)) then 1 else 0)
    ∧ (∀ k, k ≠ tid → g_in_deg g' !! k = g_in_deg g !! k)
    ∧ ∀ p, children_get (g_children g') p
           = children_get (g_children g) p
             ++ if decide (p = dep ∧ is_Some (by_id !! dep)) then [tid] else [].
Proof.
  intros Hd. unfold add_edge. rewrite Hd. simpl.
  case_bool_decide as Hdep; eexists; (split; [done|]); simpl.
  - rewrite decide_True by done. split_and!.
    + by rewrite lookup_insert_eq.
    + intros k Hk. by rewrite lookup_insert_ne.
    + intros p. unfold children_get at 1. rewrite lookup_insert.
      case_decide as Hp.
      * subst p. by rewrite decide_True.
      * rewrite decide_False by naive_solver. by rewrite app_nil_r.
  - rewrite decide_False by done. split_and!.
    + by rewrite Z.add_0_r.
    + done.
    + intros p. rewrite decide_False by naive_solver. by rewrite app_nil_r.
Qed.

Lemma add_task_edges_spec (task : Task.t) (g : graph) (d : Z) :
  g_in_deg g !! Task.id task = Some d →
  NoDup (Task.dependencies task) →
  ∃ g', add_task_edges by_id g task = Ok g'
    ∧ g_in_deg g' !! Task.id task
      = Some (d + Z.of_nat (length (filter (λ p, is_Some (by_id !! p))
                                      (Task.dependencies task))))
    ∧ (∀ k, k ≠ Task.id task → g_in_deg g' !! k = g_in_deg g !! k)
    ∧ ∀ p, children_get (g_children g') p
           = children_get (g_children g) p
             ++ if decide (p ∈ Task.dependencies task ∧ is_Some (by_id !! p))
                then [Task.id task] else [].
Proof.
  unfold add_task_edges. generalize (Task.id task) as tid.
  generalize (Task.dependencies task) as ds. intros ds tid. revert g d.
  induction ds as [|dep ds IH]; intros g d Hd Hnd.
  - exists g. split_and!; [done| |done|].
    + by rewrite Z.add_0_r.
    + intros p. rewrite decide_False by (by intros [?%elem_of_nil _]).
      by rewrite app_nil_r.
  - apply NoDup_cons in Hnd as [Hdep Hnd].
    destruct (add_edge_spec tid g dep d Hd) as (g1 & Hg1 & Hd1 & Hk1 & Hc1).
    destruct (IH g1 _ Hd1 Hnd) as (g' & Hg' & Hd' & Hk' & Hc').
    exists g'. split_and!; [by simpl; rewrite Hg1| | |].
    + rewrite Hd', filter_cons. f_equal.
      case_decide; simpl length; lia.
    + intros k Hk. by rewrite Hk', Hk1.
    + intros p. rewrite Hc', Hc1, <- app_assoc. f_equal.
      destruct (decide (p = dep)) as [->|Hp].
      * destruct (decide (is_Some (by_id !! dep))) as [Hs|Hs].
        -- rewrite decide_True by done. rewrite decide_False by naive_solver.
           rewrite decide_True by (split; [set_solver|done]). done.
        -- rewrite !decide_False by naive_solver. done.
      * rewrite (decide_False (P := p = dep ∧ _)) by naive_solver. simpl.
        apply decide_ext. set_solver.
Qed.

Lemma for_each_add_task_edges_spec (ts : list Task.t) (g : graph) :
  NoDup (task_ids ts) →
  (∀ t, t ∈ ts → NoDup (Task.dependencies t)) →
  (∀ t, t ∈ ts → g_in_deg g !! Task.id t = Some 0) →
  ∃ g', for_each (add_task_edges by_id) ts g = Ok g'
    ∧ (∀ t, t ∈ ts →
         g_in_deg g' !! Task.id t
         = Some (Z.of_nat (length (filter (λ p, is_Some (by_id !! p))
                                     (Task.dependencies t)))))
    ∧ (∀ k, k ∉ task_ids ts → g_in_deg g' !! k = g_in_deg g !! k)
    ∧ ∀ p, is_Some (by_id !! p) →
           children_get (g_children g') p
           = children_get (g_children g) p ++ kids_of ts p.
Proof.
  revert g. induction ts as [|t ts IH]; intros g Hnd Hdeps Hzero.
  - exists g. split_and!; [done|by intros ? ?%elem_of_nil|done|].
    intros p _. by rewrite app_nil_r.
  - unfold task_ids in Hnd. rewrite fmap_cons in Hnd.
    apply NoDup_cons in Hnd as [Ht Hnd].
    destruct (add_task_edges_spec t g 0) as (g1 & Hg1 & Hd1 & Hk1 & Hc1);
      [apply Hzero; set_solver|apply Hdeps; set_solver|].
    destruct (IH g1) as (g' & Hg' & Hd' & Hk' & Hc').
    { exact Hnd. }
    { intros u Hu. apply Hdeps. set_solver. }
    { intros u Hu. rewrite Hk1; [apply Hzero; set_solver|].
      intros Heq. apply Ht. rewrite <- Heq. by apply list_elem_of_fmap_2. }
    exists g'. split_and!; [by simpl; rewrite Hg1| | |].
    + intros u [->|Hu]%elem_of_cons; [|by apply Hd'].
      rewrite Hk' by done. by rewrite Hd1, Z.add_0_l.
    + intros k Hk. unfold task_ids in Hk. rewrite fmap_cons in Hk.
      apply not_elem_of_cons in Hk as [Hk1' Hk2].
      by rewrite Hk', Hk1.
    + intros p Hp. rewrite Hc', Hc1 by done. rewrite <- app_assoc. f_equal.
      unfold kids_of. rewrite filter_cons.
      destruct (decide (p ∈ Task.dependencies t)) as [Hin|Hin].
      * by rewrite decide_True.
      * by rewrite decide_False by naive_solver.
Qed.
End build_graph.

Lemma build_graph_spec (tasks : list Task.t) :
  wf_tasks tasks →
  ∃ g, build_graph tasks = Ok g
    ∧ (∀ c, c ∈ task_ids tasks →
         g_in_deg g !! c = Some (Z.of_nat (length (parents_of tasks c))))
    ∧ ∀ p, p ∈ task_ids tasks →
           children_get (g_children g) p = kids_of tasks p.
Proof.
  intros [Hnd Hdeps]. unfold build_graph.
  destruct (for_each_add_task_edges_spec (by_id_of tasks) tasks
              (mk_graph (dict_of_ids 0 tasks) ∅))
    as (g & Hg & Hd & _ & Hc); [done|done| |].
  { intros t Ht. simpl. rewrite dict_of_ids_lookup.
    rewrite decide_True; [done|]. unfold task_ids. by apply list_elem_of_fmap_2. }
  exists g. split_and!; [done| |].
  - intros c Hc'. unfold task_ids in Hc'.
    apply list_elem_of_fmap in Hc' as (t & -> & Ht).
    rewrite Hd, parents_of_task by done. do 3 f_equal.
    apply list_filter_iff. intros p. apply by_id_of_is_Some.
  - intros p Hp. rewrite Hc by (by apply by_id_of_is_Some). done.
Qed.

(** ** The relaxation loop over the children of one task *)

Lemma filter_ext_elem {A} (P Q : A → Prop) `{∀ x, Decision (P x)}
    `{∀ x, Decision (Q x)} (l : list A) :
  (∀ x, x ∈ l → P x ↔ Q x) → filter P l = filter Q l.
Proof.
  induction l as [|x l IH]; intros HPQ; [done|].
  rewrite !filter_cons, IH by (intros; apply HPQ; set_solver).
  destruct (decide (P x)) as [HP|HP], (decide (Q x)) as [HQ|HQ]; try done;
    exfalso; apply (HPQ x) in HP || apply (HPQ x) in HQ; set_solver.
Qed.

Lemma relax_spec (tid : string) (finish : Z) (st : Kahn.state)
    (c : string) (e d : Z) :
  Kahn.earliest st !! c = Some e → Kahn.in_deg st !! c = Some d →
  relax tid finish st c
  = Ok (Kahn.mk
          (if bool_decide (d - 1 = 0) then Kahn.queue st ++ [c] else Kahn.queue st)
          (Kahn.topo_order st)
          (<[c := d - 1]> (Kahn.in_deg st))
          (if bool_decide (finish > e) then <[c := finish]> (Kahn.earliest st)
           else Kahn.earliest st)
          (if bool_decide (finish > e) then <[c := Some tid]> (Kahn.pred st)
           else Kahn.pred st)).
Proof.
  intros He Hd. unfold relax. rewrite He, Hd. simpl.
  by case_bool_decide.
Qed.

Lemma for_each_relax_spec (tid : string) (finish : Z) (cs : list string)
    (st : Kahn.state) :
  NoDup cs →
  (∀ c, c ∈ cs →
     is_Some (Kahn.earliest st !! c) ∧ is_Some (Kahn.in_deg st !! c)) →
  ∃ st', for_each (relax tid finish) cs st = Ok st'
    ∧ Kahn.queue st'
      = Kahn.queue st ++ filter (λ c, Kahn.in_deg st !! c = Some 1) cs
    ∧ Kahn.topo_order st' = Kahn.topo_order st
    ∧ (∀ k, Kahn.in_deg st' !! k
            = if decide (k ∈ cs) then (λ d, d - 1) <$> Kahn.in_deg st !! k
              else Kahn.in_deg st !! k)
    ∧ (∀ k, Kahn.earliest st' !! k
            = if decide (k ∈ cs) then Z.max finish <$> Kahn.earliest st !! k
              else Kahn.earliest st !! k)
    ∧ (∀ k, Kahn.pred st' !! k
            = if decide (k ∈ cs)
              then (if improves finish (Kahn.earliest st !! k)
                    then Some (Some tid) else Kahn.pred st !! k)
              else Kahn.pred st !! k).
Proof.
  revert st. induction cs as [|c cs IH]; intros st Hnd Hdef.
  - exists st. split_and!; try done. by rewrite app_nil_r.
  - apply NoDup_cons in Hnd as [Hc Hnd].
    destruct (Hdef c) as [[e He] [d Hd]]; [set_solver|].
    pose proof (relax_spec tid finish st c e d He Hd) as Hst1.
    set (st1 := Kahn.mk _ _ _ _ _) in Hst1.
    assert (Hin1 : ∀ k, k ≠ c → Kahn.in_deg st1 !! k = Kahn.in_deg st !! k).
    { intros k Hk. simpl. by rewrite lookup_insert_ne. }
    assert (He1 : ∀ k, k ≠ c → Kahn.earliest st1 !! k = Kahn.earliest st !! k).
    { intros k Hk. simpl. case_bool_decide; [|done]. by rewrite lookup_insert_ne. }
    assert (Hp1 : ∀ k, k ≠ c → Kahn.pred st1 !! k = Kahn.pred st !! k).
    { intros k Hk. simpl. case_bool_decide; [|done]. by rewrite lookup_insert_ne. }
    destruct (IH st1 Hnd) as (st' & Hst' & Hq & Ht & Hin & Hea & Hpr).
    { intros k Hk. assert (k ≠ c) by (by intros ->).
      rewrite He1, Hin1 by done. apply Hdef. set_solver. }
    exists st'. split_and!.
    + simpl. by rewrite Hst1.
    + rewrite Hq, filter_cons.
      rewrite (filter_ext_elem (λ x, Kahn.in_deg st1 !! x = Some 1)
                 (λ x, Kahn.in_deg st !! x = Some 1)).
      2:{ intros x Hx. rewrite Hin1; [done|]. by intros ->. }
      simpl. rewrite Hd.
      case_bool_decide as Hd1; case_decide as Hd2;
        try (by rewrite <- app_assoc); try done.
      * exfalso. apply Hd2. f_equal. lia.
      * exfalso. simplify_eq.
    + by rewrite Ht.
    + intros k. rewrite Hin. destruct (decide (k = c)) as [->|Hk].
      * rewrite decide_False by done. rewrite decide_True by set_solver.
        simpl. by rewrite lookup_insert_eq, Hd.
      * rewrite Hin1 by done. apply decide_ext. set_solver.
    + intros k. rewrite Hea. destruct (decide (k = c)) as [->|Hk].
      * rewrite decide_False by done. rewrite decide_True by set_solver.
        simpl. rewrite He. simpl. case_bool_decide.
        -- rewrite lookup_insert_eq. f_equal. lia.
        -- rewrite He. f_equal. lia.
      * rewrite He1 by done. apply decide_ext. set_solver.
    + intros k. rewrite Hpr. destruct (decide (k = c)) as [->|Hk].
      * rewrite decide_False by done. rewrite decide_True by set_solver.
        simpl. rewrite He. simpl. case_bool_decide; [|done].
        by rewrite lookup_insert_eq.
      * rewrite He1, Hp1 by done. apply decide_ext. set_solver.
Qed.

(** ** Counting the prerequisites that are still missing *)

Lemma filter_not_elem_snoc_length (l T : list string) (x : string) :
  NoDup l → x ∉ T →
  length (filter (λ p, p ∉ T) l)
  = (length (filter (λ p, p ∉ T ++ [x]) l)
     + if decide (x ∈ l) then 1 else 0)%nat.
Proof.
  intros Hnd Hx. induction l as [|a l IH]; [done|].
  apply NoDup_cons in Hnd as [Ha Hnd]. specialize (IH Hnd).
  rewrite !filter_cons.
  destruct (decide (a = x)) as [->|Hax].
  - rewrite decide_True by done.
    rewrite (decide_False (P := x ∉ T ++ [x])) by set_solver.
    rewrite (decide_True (P := x ∈ x :: l)) by set_solver.
    rewrite (decide_False (P := x ∈ l)) in IH by done. simpl. lia.
  - assert (Hxl : (if decide (x ∈ a :: l) then 1 else 0)%nat
                  = (if decide (x ∈ l) then 1 else 0)%nat)
      by (apply decide_ext; set_solver).
    rewrite Hxl. destruct (decide (a ∉ T)) as [HaT|HaT].
    + rewrite (decide_True (P := a ∉ T ++ [x])) by set_solver. simpl. lia.
    + rewrite (decide_False (P := a ∉ T ++ [x])) by set_solver. done.
Qed.

Lemma remaining_snoc (tasks : list Task.t) (T : list string) (x c : string) :
  wf_tasks tasks → x ∉ T →
  remaining tasks T c
  = (remaining tasks (T ++ [x]) c
     + if decide (x ∈ parents_of tasks c) then 1 else 0)%nat.
Proof.
  intros Hwf Hx. unfold remaining.
  apply filter_not_elem_snoc_length; [by apply parents_of_NoDup|done].
Qed.

Lemma remaining_zero (tasks : list Task.t) (T : list string) (c : string) :
  remaining tasks T c = 0%nat ↔ ∀ p, p ∈ parents_of tasks c → p ∈ T.
Proof.
  unfold remaining. rewrite length_zero_iff_nil. split.
  - intros Hnil p Hp. destruct (decide (p ∈ T)) as [|HpT]; [done|].
    assert (p ∈ filter (λ p, p ∉ T) (parents_of tasks c)) as Hin
      by (by apply list_elem_of_filter).
    rewrite Hnil in Hin. by apply elem_of_nil in Hin.
  - intros Hall. destruct (filter _ _) as [|p l] eqn:Hf; [done|].
    assert (p ∈ filter (λ p, p ∉ T) (parents_of tasks c)) as Hin
      by (rewrite Hf; set_solver).
    apply list_elem_of_filter in Hin as [HpT Hp]. by apply Hall in Hp.
Qed.

Lemma remaining_nil (tasks : list Task.t) (c : string) :
  remaining tasks [] c = length (parents_of tasks c).
Proof.
  unfold remaining. f_equal. induction (parents_of tasks c) as [|p l IH]; [done|].
  rewrite filter_cons, decide_True by apply not_elem_of_nil. by rewrite IH.
Qed.

(** ** The invariant of Kahn's loop *)

Section kahn.
Context (tasks : list Task.t) (Hwf : wf_tasks tasks).
Context (children : gmap string (list string)).
Context (Hchildren : ∀ p, p ∈ task_ids tasks →
                          children_get children p = kids_of tasks p).

Lemma kahn_init_inv (g : graph) :
  (∀ c, c ∈ task_ids tasks →
     g_in_deg g !! c = Some (Z.of_nat (length (parents_of tasks c)))) →
  kahn_inv tasks (kahn_init tasks g).
Proof.
  intros Hdeg. destruct Hwf as [Hnd Hdeps].
  assert (Hq : ∀ c, c ∈ Kahn.queue (kahn_init tasks g)
                 ↔ c ∈ task_ids tasks ∧ remaining tasks [] c = 0%nat).
  { intros c. simpl. rewrite list_elem_of_filter. split.
    - intros [H0 Hc]. split; [done|]. rewrite Hdeg in H0 by done.
      rewrite remaining_nil. injection H0. lia.
    - intros [Hc H0]. split; [|done]. rewrite Hdeg by done.
      rewrite remaining_nil in H0. by rewrite H0. }
  constructor; simpl Kahn.topo_order; rewrite ?app_nil_l.
  - apply NoDup_filter, Hnd.
  - intros c Hc. by apply Hq in Hc as [? _].
  - intros c Hc. simpl. rewrite Hdeg by done. by rewrite remaining_nil.
  - intros c Hc. rewrite Hq. naive_solver.
  - intros i c p Hi Hp. exfalso.
    assert (c ∈ Kahn.queue (kahn_init tasks g)) as Hcq
      by (by eapply list_elem_of_lookup_2).
    apply Hq in Hcq as [_ H0].
    apply (proj1 (remaining_zero _ _ _) H0) in Hp. by apply elem_of_nil in Hp.
  - intros c Hc. exists 0, None. simpl.
    rewrite !dict_of_ids_lookup, !decide_True by done.
    split_and!; try done. by intros p ep _ ?%elem_of_nil.
Qed.
Lemma kahn_step_inv (st : Kahn.state) (tid : string) (rest : list string) :
  kahn_inv tasks st → Kahn.queue st = tid :: rest →
  ∃ st', kahn_step (by_id_of tasks) children tid rest st = Ok st'
    ∧ kahn_inv tasks st'
    ∧ Kahn.topo_order st' = Kahn.topo_order st ++ [tid].
Proof.
  intros [Hnd Hids Hdeg Hready Hord Hlab] Hq. rewrite Hq in *.
  destruct Hwf as [Hnodup Hdeps].
  assert (Htid : tid ∈ task_ids tasks) by (apply Hids; set_solver).
  assert (HtidT : tid ∉ Kahn.topo_order st).
  { apply NoDup_app in Hnd as (_ & Hdisj & _). intros Hin.
    apply (Hdisj tid Hin). set_solver. }
  destruct (proj2 (by_id_of_is_Some tasks tid) Htid) as [task Htask].
  destruct (Hlab tid Htid) as (e & pr & He & Hpr & He0 & Hle & Hprm).
  unfold kahn_step. rewrite Htask, He. simpl. rewrite Hchildren by done.
  set (finish := e + Task.story_points task).
  assert (Hw : e + weight_of tasks tid = finish).
  { unfold weight_of. by rewrite Htask. }
  set (st1 := Kahn.mk rest _ _ _ _).
  set (T := Kahn.topo_order st) in *.
  destruct (for_each_relax_spec tid finish (kids_of tasks tid) st1)
    as (st' & Hst' & Hq' & HT' & Hin' & Hea' & Hpr').
  { by apply kids_of_NoDup. }
  { intros c Hc. apply elem_of_kids_of in Hc as [Hc _]; [|done..].
    simpl. split; [|rewrite Hdeg by done; eauto].
    destruct (Hlab c Hc) as (? & ? & -> & _). eauto. }
  simpl in Hq', HT', Hin', Hea', Hpr'.
  exists st'. split; [done|]. split; [|done].
  assert (Hrem : ∀ c, remaining tasks T c
                 = (remaining tasks (T ++ [tid]) c
                    + if decide (tid ∈ parents_of tasks c) then 1 else 0)%nat).
  { intros c. by apply remaining_snoc. }
  assert (Hkid : ∀ c, c ∈ task_ids tasks →
                   c ∈ kids_of tasks tid ↔ tid ∈ parents_of tasks c).
  { intros c Hc. rewrite elem_of_kids_of by done. naive_solver. }
  assert (HkidL : ∀ c, c ∈ kids_of tasks tid → c ∉ T ++ tid :: rest).
  { intros c Hc HcL. apply elem_of_kids_of in Hc as [Hc Hp]; [|done..].
    apply Hready in HcL; [|done]. specialize (Hrem c).
    rewrite decide_True in Hrem by done. lia. }
  assert (HL : Kahn.topo_order st' ++ Kahn.queue st'
               = (T ++ tid :: rest)
                 ++ filter (λ c, Kahn.in_deg st !! c = Some 1) (kids_of tasks tid)).
  { rewrite HT', Hq'. by rewrite <- !app_assoc. }
  assert (Hnew : ∀ c, c ∈ filter (λ c, Kahn.in_deg st !! c = Some 1)
                             (kids_of tasks tid)
                   ↔ c ∈ task_ids tasks ∧ tid ∈ parents_of tasks c
                     ∧ remaining tasks T c = 1%nat).
  { intros c. rewrite list_elem_of_filter, elem_of_kids_of by done. split.
    - intros (H1 & Hc & Hp). split_and!; [done..|].
      rewrite Hdeg in H1 by done. injection H1. lia.
    - intros (Hc & Hp & H1). split_and!; [|done..].
      rewrite Hdeg by done. by rewrite H1. }
  assert (HLstable : ∀ c, c ∈ T ++ tid :: rest →
                       Kahn.earliest st' !! c = Kahn.earliest st !! c).
  { intros c Hc. rewrite Hea'. rewrite decide_False; [done|].
    intros Hk. by apply HkidL in Hk. }
  constructor; rewrite ?HL, ?HT'.
  - apply NoDup_app. split_and!; [done| |by apply NoDup_filter, kids_of_NoDup].
    intros c HcL [_ Hc]%list_elem_of_filter. by apply HkidL in Hc.
  - intros c [Hc|Hc]%elem_of_app; [by apply Hids|]. by apply Hnew in Hc as [? _].
  - intros c Hc. rewrite Hin', Hdeg by done. specialize (Hrem c).
    specialize (Hkid c Hc).
    destruct (decide (c ∈ kids_of tasks tid)) as [Hk|Hk].
    + rewrite decide_True in Hrem by (by apply Hkid). simpl. f_equal. lia.
    + rewrite decide_False in Hrem by (by rewrite <- Hkid). f_equal. lia.
  - intros c Hc. specialize (Hrem c). rewrite elem_of_app, Hnew, Hready by done.
    destruct (decide (tid ∈ parents_of tasks c)) as [Hp|Hp]; split.
    + intros [H0|(_ & _ & H1)]; lia.
    + intros H0. right. split_and!; [done..|lia].
    + intros [H0|(_ & Hp' & _)]; [lia|done].
    + intros H0. left. lia.
  - intros i c p Hi Hp.
    destruct (decide (i < length (T ++ tid :: rest))%nat) as [Hlt|Hge].
    + rewrite lookup_app_l in Hi by done.
      destruct (Hord i c p Hi Hp) as (j & Hj & Hjp).
      exists j. split; [done|]. rewrite lookup_app_l by lia. done.
    + rewrite lookup_app_r in Hi by lia.
      apply list_elem_of_lookup_2, Hnew in Hi as (Hc & Htp & H1).
      assert (HpT : p ∈ T ++ [tid]).
      { specialize (Hrem c). rewrite decide_True in Hrem by done.
        assert (H0 : remaining tasks (T ++ [tid]) c = 0%nat) by lia.
        by apply (proj1 (remaining_zero _ _ _) H0). }
      assert (HpL : p ∈ T ++ tid :: rest) by set_solver.
      apply list_elem_of_lookup_1 in HpL as [j Hj].
      exists j. split; [apply lookup_lt_Some in Hj; lia|].
      by rewrite lookup_app_l by (by eapply lookup_lt_Some).
  - intros c Hc. destruct (Hlab c Hc) as (ec & prc & Hec & Hprc & Hec0 & Hlec & Hprcm).
    specialize (Hkid c Hc).
    assert (Hpar : ∀ p ep, p ∈ T ++ [tid] → Kahn.earliest st' !! p = Some ep →
                     (p ∈ T ∧ Kahn.earliest st !! p = Some ep)
                     ∨ (p = tid ∧ ep = e)).
    { intros p ep Hp Hep. rewrite HLstable in Hep by set_solver.
      apply elem_of_app in Hp as [Hp| ->%list_elem_of_singleton]; [by left|].
      right. split; [done|]. congruence. }
    destruct (decide (c ∈ kids_of tasks tid)) as [Hk|Hk].
    + pose proof (proj1 Hkid Hk) as Htp.
      destruct (decide (finish > ec)) as [Hgt|Hle'].
      * exists finish, (Some tid). rewrite Hea', Hpr', !decide_True, Hec by done.
        simpl. rewrite bool_decide_eq_true_2 by done. split_and!; try done.
        -- f_equal. lia.
        -- lia.
        -- intros p ep Hp HpT Hep.
           destruct (Hpar p ep HpT Hep) as [[HpT' Hep']|[-> ->]]; [|lia].
           specialize (Hlec p ep Hp HpT' Hep'). lia.
        -- set_solver.
        -- exists e. rewrite HLstable by set_solver. done.
      * exists ec, prc. rewrite Hea', Hpr', !decide_True, Hec by done.
        simpl. rewrite bool_decide_eq_false_2 by done. split_and!; try done.
        -- f_equal. lia.
        -- intros p ep Hp HpT Hep.
           destruct (Hpar p ep HpT Hep) as [[HpT' Hep']|[-> ->]]; [|lia].
           by apply (Hlec p ep).
        -- destruct prc as [p|]; [|done].
           destruct Hprcm as (Hp & HpT & ep & Hep & ->).
           split_and!; [done|set_solver|]. exists ep.
           rewrite HLstable by set_solver. done.
    + assert (Htp : tid ∉ parents_of tasks c) by (by rewrite <- Hkid).
      exists ec, prc. rewrite Hea', Hpr', !decide_False by done.
      split_and!; try done.
      * intros p ep Hp HpT Hep.
        destruct (Hpar p ep HpT Hep) as [[HpT' Hep']|[-> ->]]; [|done].
        by apply (Hlec p ep).
      * destruct prc as [p|]; [|done].
        destruct Hprcm as (Hp & HpT & ep & Hep & ->).
        split_and!; [done|set_solver|]. exists ep.
        rewrite HLstable by set_solver. done.
Qed.
End kahn.

(** ** Running the loop to its end *)

Lemma kahn_inv_length (tasks : list Task.t) (st : Kahn.state) :
  kahn_inv tasks st →
  (length (Kahn.topo_order st) + length (Kahn.queue st) ≤ length tasks)%nat.
Proof.
  intros Hinv. rewrite <- length_app.
  replace (length tasks) with (length (task_ids tasks))
    by (unfold task_ids; apply length_fmap).
  apply submseteq_length, NoDup_submseteq; [apply Hinv|].
  intros c Hc. by apply (inv_ids _ _ Hinv).
Qed.

Lemma kahn_loop_inv (tasks : list Task.t) (children : gmap string (list string))
    (fuel : nat) (st : Kahn.state) :
  wf_tasks tasks →
  (∀ p, p ∈ task_ids tasks → children_get children p = kids_of tasks p) →
  kahn_inv tasks st →
  (length tasks ≤ length (Kahn.topo_order st) + fuel)%nat →
  ∃ st', kahn_loop fuel (by_id_of tasks) children st = Ok st'
    ∧ kahn_inv tasks st' ∧ Kahn.queue st' = [].
Proof.
  intros Hwf Hch. revert st. induction fuel as [|fuel IH]; intros st Hinv Hfuel.
  - pose proof (kahn_inv_length _ _ Hinv) as Hlen.
    destruct (Kahn.queue st) as [|tid rest] eqn:Hq; simpl in Hlen; [|lia].
    exists st. simpl. by rewrite Hq.
  - destruct (Kahn.queue st) as [|tid rest] eqn:Hq.
    + exists st. simpl. by rewrite Hq.
    + destruct (kahn_step_inv tasks Hwf children Hch st tid rest Hinv Hq)
        as (st1 & Hst1 & Hinv1 & HT1).
      destruct (IH st1 Hinv1) as (st' & Hst' & Hinv' & Hq').
      { rewrite HT1, length_app. simpl. lia. }
      exists st'. simpl. rewrite Hq, Hst1. simpl. done.
Qed.

(** ** What the emitted order says about cycles *)

(** In a non-empty finite set where every element has a predecessor in the
    set, a transitive relation relates some element to itself. *)
Lemma cycle_of_no_source {A} (R : relation A) `{!Transitive R} (U : list A) :
  U ≠ [] → (∀ c, c ∈ U → ∃ p, p ∈ U ∧ R p c) → ∃ x, R x x.
Proof.
  induction U as [|c U IH]; intros Hne Hpred; [done|].
  destruct (Hpred c) as (p & [->|Hp]%elem_of_cons & Hpc); [set_solver|eauto|].
  apply IH; [by intros ->; apply elem_of_nil in Hp|].
  intros d Hd. destruct (Hpred d) as (q & [->|Hq]%elem_of_cons & Hqd);
    [set_solver| |eauto].
  exists p. split; [done|]. by transitivity c.
Qed.

Section kahn_exit.
Context (tasks : list Task.t) (Hwf : wf_tasks tasks).
Context (st : Kahn.state) (Hinv : kahn_inv tasks st).
Context (Hq : Kahn.queue st = []).

Lemma exit_order (i : nat) (c p : string) :
  Kahn.topo_order st !! i = Some c → p ∈ parents_of tasks c →
  ∃ j, (j < i)%nat ∧ Kahn.topo_order st !! j = Some p.
Proof.
  intros Hi Hp. pose proof (inv_order _ _ Hinv i c p) as Hord.
  rewrite Hq, app_nil_r in Hord. auto.
Qed.

Lemma exit_NoDup : NoDup (Kahn.topo_order st).
Proof. pose proof (inv_nodup _ _ Hinv) as H. by rewrite Hq, app_nil_r in H. Qed.

Lemma exit_ids (c : string) : c ∈ Kahn.topo_order st → c ∈ task_ids tasks.
Proof. intros Hc. apply (inv_ids _ _ Hinv). set_solver. Qed.

Lemma exit_ready (c : string) :
  c ∈ task_ids tasks →
  c ∈ Kahn.topo_order st ↔ ∀ p, p ∈ parents_of tasks c → p ∈ Kahn.topo_order st.
Proof.
  intros Hc. pose proof (inv_ready _ _ Hinv c Hc) as Hr.
  rewrite Hq, app_nil_r in Hr. by rewrite Hr, remaining_zero.
Qed.

Lemma exit_complete :
  length (Kahn.topo_order st) = length tasks ↔
  ∀ c, c ∈ task_ids tasks → c ∈ Kahn.topo_order st.
Proof.
  assert (Hsub : Kahn.topo_order st ⊆+ task_ids tasks)
    by (apply NoDup_submseteq; [apply exit_NoDup|apply exit_ids]).
  assert (Hlen : length (task_ids tasks) = length tasks)
    by (unfold task_ids; apply length_fmap).
  split.
  - intros Heq c Hc.
    apply submseteq_length_Permutation in Hsub; [|lia]. by rewrite Hsub.
  - intros Hall. apply submseteq_length in Hsub.
    assert (task_ids tasks ⊆+ Kahn.topo_order st) as Hsub'
      by (apply NoDup_submseteq; [apply Hwf|done]).
    apply submseteq_length in Hsub'. lia.
Qed.

(** A cycle keeps the loop from emitting every task. *)
Lemma exit_cyclic : cyclic tasks → length (Kahn.topo_order st) ≠ length tasks.
Proof.
  intros [x Hx] Hlen.
  pose proof (proj1 exit_complete Hlen) as Hall.
  set (before := λ p c : string,
         ∃ i j, (j < i)%nat ∧ Kahn.topo_order st !! j = Some p
                ∧ Kahn.topo_order st !! i = Some c).
  assert (Htc : ∀ a b, tc (dep_edge tasks) a b → before a b).
  { induction 1 as [a b Hab|a b c Hab Hbc IH].
    - pose proof Hab as (t & Ht & <- & _).
      apply elem_of_parents_of in Hab; [|apply Hwf].
      assert (Task.id t ∈ Kahn.topo_order st) as [i Hi]%list_elem_of_lookup_1.
      { apply Hall. unfold task_ids. by apply list_elem_of_fmap_2. }
      destruct (exit_order i _ a Hi Hab) as (j & Hj & Hja). by exists i, j.
    - destruct IH as (i & j & Hji & Hj & Hi).
      apply elem_of_parents_of in Hab; [|apply Hwf].
      destruct (exit_order j b a Hj Hab) as (k & Hk & Hka).
      exists i, k. split_and!; [lia|done..]. }
  destruct (Htc x x Hx) as (i & j & Hji & Hj & Hi).
  pose proof (NoDup_lookup _ _ _ _ exit_NoDup Hi Hj). lia.
Qed.

(** Without a cycle every task is emitted. *)
Lemma exit_acyclic : acyclic tasks → length (Kahn.topo_order st) = length tasks.
Proof.
  intros Hacyc. apply exit_complete.
  set (U := filter (λ c, c ∉ Kahn.topo_order st) (task_ids tasks)).
  destruct U as [|u U'] eqn:HU.
  - intros c Hc. destruct (decide (c ∈ Kahn.topo_order st)) as [|Hn]; [done|].
    assert (c ∈ U) as HcU by (by apply list_elem_of_filter).
    rewrite HU in HcU. by apply elem_of_nil in HcU.
  - exfalso. apply Hacyc.
    apply (cycle_of_no_source (tc (dep_edge tasks)) U); [by rewrite HU|].
    intros c [HcT Hc]%list_elem_of_filter.
    rewrite exit_ready in HcT by done.
    destruct (decide (Forall (λ p, p ∈ Kahn.topo_order st) (parents_of tasks c)))
      as [Hall|Hex].
    { exfalso. apply HcT. by apply Forall_forall. }
    apply not_Forall_Exists in Hex; [|apply _].
    apply Exists_exists in Hex as (p & Hp & HpT).
    exists p. split.
    + apply list_elem_of_filter. split; [done|]. by eapply parents_of_ids.
    + apply tc_once. apply elem_of_parents_of; [apply Hwf|done].
Qed.
End kahn_exit.

(** ** Choosing the end of the path *)

Lemma max_from_spec (key : string → result Z) (f : string → Z)
    (l : list string) (best : string) :
  (∀ x, x ∈ l → key x = Ok (f x)) →
  ∃ m, max_from key best (f best) l = Ok m
    ∧ (m = best ∨ m ∈ l) ∧ f best ≤ f m ∧ ∀ x, x ∈ l → f x ≤ f m.
Proof.
  revert best. induction l as [|x l IH]; intros best Hkey.
  - exists best. split_and!; [done|by left|done|by intros ? ?%elem_of_nil].
  - simpl. rewrite Hkey by set_solver. simpl. case_bool_decide as Hlt.
    + destruct (IH x) as (m & Hm & Hin & Hle & Hall); [intros; apply Hkey; set_solver|].
      exists m. split_and!; [done|set_solver|lia|].
      intros y [->|Hy]%elem_of_cons; auto.
    + destruct (IH best) as (m & Hm & Hin & Hle & Hall); [intros; apply Hkey; set_solver|].
      exists m. split_and!; [done|set_solver|done|].
      intros y [->|Hy]%elem_of_cons; [lia|auto].
Qed.

Lemma py_max_spec (key : string → result Z) (f : string → Z) (l : list string) :
  l ≠ [] → (∀ x, x ∈ l → key x = Ok (f x)) →
  ∃ m, py_max key l = Ok m ∧ m ∈ l ∧ ∀ x, x ∈ l → f x ≤ f m.
Proof.
  destruct l as [|x l]; [done|]. intros _ Hkey. simpl.
  rewrite Hkey by set_solver. simpl.
  destruct (max_from_spec key f l x) as (m & Hm & Hin & Hle & Hall);
    [intros; apply Hkey; set_solver|].
  exists m. split_and!; [done|set_solver|].
  intros y [->|Hy]%elem_of_cons; auto.
Qed.

(** ** Walking the predecessor links *)

Lemma trace_back_spec (T : list string) (pred : gmap string (option string))
    (fuel : nat) :
  (∀ i c, T !! i = Some c →
     ∃ pr, pred !! c = Some pr
       ∧ ∀ p, pr = Some p → ∃ j, (j < i)%nat ∧ T !! j = Some p) →
  ∀ i c acc, T !! i = Some c → (i < fuel)%nat →
  ∃ l, trace_back fuel pred (Some c) acc = Ok (acc ++ l)
    ∧ back_chain pred c l ∧ (length l ≤ S i)%nat.
Proof.
  intros Hpred. induction fuel as [|fuel IH]; intros i c acc Hi Hfuel; [lia|].
  destruct (Hpred i c Hi) as (pr & Hpr & Hlt). simpl. rewrite Hpr. simpl.
  destruct pr as [p|].
  - destruct (Hlt p eq_refl) as (j & Hj & Hjp).
    destruct (IH j p (acc ++ [c]) Hjp) as (l & Hl & Hchain & Hlen); [lia|].
    exists (c :: l). split_and!.
    + destruct fuel; [lia|]. rewrite Hl. by rewrite <- app_assoc.
    + by eapply back_step.
    + simpl. lia.
  - exists [c]. split_and!; [by destruct fuel|by apply back_root|simpl; lia].
Qed.

Lemma tasks_of_ids_snoc (by_id : gmap string Task.t) (l : list string)
    (ts : list Task.t) (c : string) (t : Task.t) :
  tasks_of_ids by_id l = Ok ts → by_id !! c = Some t →
  tasks_of_ids by_id (l ++ [c]) = Ok (ts ++ [t]).
Proof.
  revert ts. induction l as [|x l IH]; intros ts Hts Hc; simpl in *.
  - injection Hts as <-. by rewrite Hc.
  - destruct (by_id !! x) as [tx|]; [|done]. simpl in *.
    destruct (tasks_of_ids by_id l) as [ts'| |]; [|done..]. simpl in *.
    injection Hts as <-. by rewrite (IH ts').
Qed.

Lemma sum_story_points_app (l1 l2 : list Task.t) :
  sum_story_points (l1 ++ l2) = sum_story_points l1 + sum_story_points l2.
Proof.
  unfold sum_story_points. rewrite fmap_app.
  induction (Task.story_points <$> l1) as [|z zs IH]; simpl; [done|].
  rewrite IH. lia.
Qed.

Lemma dep_chain_head (tasks : list Task.t) (a : Task.t) (l : list Task.t) :
  dep_chain tasks (a :: l) → a ∈ tasks.
Proof. by inversion 1. Qed.

Lemma dep_chain_snoc (tasks : list Task.t) (l : list Task.t) (a b : Task.t) :
  dep_chain tasks (l ++ [a]) → b ∈ tasks → Task.id a ∈ Task.dependencies b →
  dep_chain tasks (l ++ [a; b]).
Proof.
  intros Hl Hb Hab. induction l as [|x l IH]; simpl in *.
  - apply chain_cons; [by eapply dep_chain_head|done|by apply chain_one].
  - inversion Hl as [t Ht Heq|x' y l' Hx Hxy Hrest Heq].
    + by destruct l.
    + destruct l as [|y' l]; simpl in *; simplify_eq.
      * apply chain_cons; [done..|]. by apply (IH Hrest).
      * apply chain_cons; [done..|]. by apply (IH Hrest).
Qed.

(** ** The run of [critical_path] *)

Lemma kahn_run (tasks : list Task.t) (fuel : nat) :
  wf_tasks tasks → (length tasks ≤ fuel)%nat →
  ∃ g st, build_graph tasks = Ok g
    ∧ kahn_loop fuel (by_id_of tasks) (g_children g) (kahn_init tasks g) = Ok st
    ∧ kahn_inv tasks st ∧ Kahn.queue st = [].
Proof.
  intros Hwf Hfuel.
  destruct (build_graph_spec tasks Hwf) as (g & Hg & Hdeg & Hch).
  destruct (kahn_loop_inv tasks (g_children g) fuel (kahn_init tasks g) Hwf Hch)
    as (st & Hst & Hinv & Hq).
  { by apply kahn_init_inv. }
  { simpl. lia. }
  by exists g, st.
Qed.

Section complete.
Context (tasks : list Task.t) (Hwf : wf_tasks tasks).
Context (st : Kahn.state) (Hinv : kahn_inv tasks st).
Context (Hq : Kahn.queue st = []).
Context (Hlen : length (Kahn.topo_order st) = length tasks).

Lemma complete_label (c : string) :
  c ∈ task_ids tasks →
  ∃ e pr t,
    Kahn.earliest st !! c = Some e ∧ Kahn.pred st !! c = Some pr
    ∧ by_id_of tasks !! c = Some t ∧ t ∈ tasks ∧ Task.id t = c
    ∧ label_finish tasks (Kahn.earliest st) c = e + Task.story_points t
    ∧ 0 ≤ e
    ∧ (∀ p, p ∈ parents_of tasks c →
         label_finish tasks (Kahn.earliest st) p ≤ e)
    ∧ match pr with
      | None => e = 0
      | Some p => p ∈ parents_of tasks c
                  ∧ e = label_finish tasks (Kahn.earliest st) p
      end.
Proof.
  intros Hc. destruct (inv_labels _ _ Hinv c Hc) as (e & pr & He & Hpr & He0 & Hle & Hm).
  destruct (proj2 (by_id_of_is_Some tasks c) Hc) as [t Ht].
  pose proof (by_id_of_Some _ _ _ Ht) as [Htin Hid].
  pose proof (proj1 (exit_complete tasks Hwf st Hinv Hq) Hlen) as Hall.
  assert (Hfin : ∀ p, p ∈ task_ids tasks →
            ∃ ep, Kahn.earliest st !! p = Some ep
              ∧ label_finish tasks (Kahn.earliest st) p = ep + weight_of tasks p).
  { intros p Hp. destruct (inv_labels _ _ Hinv p Hp) as (ep & ? & Hep & _).
    exists ep. split; [done|]. unfold label_finish. by rewrite Hep. }
  exists e, pr, t. split_and!; try done.
  - unfold label_finish, weight_of. by rewrite He, Ht.
  - intros p Hp. pose proof (parents_of_ids _ _ _ Hp) as Hpid.
    destruct (Hfin p Hpid) as (ep & Hep & ->). apply Hle; auto.
  - destruct pr as [p|]; [|done]. destruct Hm as (Hp & _ & ep & Hep & ->).
    split; [done|]. unfold label_finish. by rewrite Hep.
Qed.

Lemma complete_finish_key (c : string) :
  c ∈ Kahn.topo_order st →
  finish_key (by_id_of tasks) (Kahn.earliest st) c
  = Ok (label_finish tasks (Kahn.earliest st) c).
Proof.
  intros Hc. apply (exit_ids tasks Hwf st Hinv Hq) in Hc.
  destruct (complete_label c Hc) as (e & pr & t & He & _ & Ht & _ & _ & Hfin & _).
  unfold finish_key. rewrite He, Ht. simpl. by rewrite Hfin.
Qed.

Lemma complete_trace (fuel : nat) (c : string) :
  (length tasks ≤ fuel)%nat → c ∈ Kahn.topo_order st →
  ∃ l, trace_back fuel (Kahn.pred st) (Some c) [] = Ok l
    ∧ back_chain (Kahn.pred st) c l ∧ (length l ≤ length tasks)%nat.
Proof.
  intros Hfuel [i Hi]%list_elem_of_lookup_1.
  pose proof (lookup_lt_Some _ _ _ Hi) as Hlt.
  destruct (trace_back_spec (Kahn.topo_order st) (Kahn.pred st) fuel) with
    (i := i) (c := c) (acc := @nil string) as (l & Hl & Hchain & Hll);
    [|done|lia|].
  - intros k x Hk.
    assert (x ∈ task_ids tasks) as Hx
      by (apply (exit_ids tasks Hwf st Hinv Hq); by eapply list_elem_of_lookup_2).
    destruct (complete_label x Hx) as (e & pr & t & _ & Hpr & _ & _ & _ & _ & _ & _ & Hm).
    exists pr. split; [done|]. intros p ->. destruct Hm as [Hp _].
    by eapply exit_order.
  - exists l. split_and!; [done|done|lia].
Qed.

(** The ids met on the way back, read in reverse, are a chain of tasks that
    starts at a task without a recorded predecessor and weighs the finish
    label of the task the walk began at. *)
Lemma back_chain_forward (c : string) (l : list string) :
  back_chain (Kahn.pred st) c l → c ∈ task_ids tasks →
  ∃ ts t r,
    tasks_of_ids (by_id_of tasks) (reverse l) = Ok ts
    ∧ dep_chain tasks ts
    ∧ by_id_of tasks !! c = Some t ∧ last ts = Some t
    ∧ head ts = Some r ∧ r ∈ tasks ∧ Kahn.pred st !! Task.id r = Some None
    ∧ sum_story_points ts = label_finish tasks (Kahn.earliest st) c
    ∧ length ts = length l.
Proof.
  induction 1 as [c Hroot|c p l Hstep Hchain IH]; intros Hc.
  - destruct (complete_label c Hc) as (e & pr & t & He & Hpr & Ht & Htin & Hid & Hfin & _ & _ & Hm).
    rewrite Hroot in Hpr. injection Hpr as <-. subst e.
    exists [t], t, t. simpl. rewrite Ht. simpl. split_and!; try done.
    + by apply chain_one.
    + by rewrite Hid.
    + rewrite Hfin. unfold sum_story_points. simpl. lia.
  - destruct (complete_label c Hc) as (e & pr & t & He & Hpr & Ht & Htin & Hid & Hfin & _ & _ & Hm).
    rewrite Hstep in Hpr. injection Hpr as <-. destruct Hm as [Hp ->].
    destruct (IH (parents_of_ids _ _ _ Hp))
      as (ts & tp & r & Hts & Hdc & Htp & Hlast & Hhead & Hr & Hrp & Hsum & Hlts).
    apply last_Some in Hlast as [ts0 ->].
    exists ((ts0 ++ [tp]) ++ [t]), t, r. rewrite reverse_cons.
    split_and!; try done.
    + by apply tasks_of_ids_snoc.
    + rewrite <- app_assoc. simpl. apply dep_chain_snoc; [done..|].
      apply elem_of_parents_of in Hp as (t' & Ht' & Hid' & Hd & _); [|apply Hwf].
      assert (t' = t) as ->.
      { rewrite <- Hid' in Ht. rewrite by_id_of_lookup in Ht; [|apply Hwf|done].
        by injection Ht. }
      by rewrite (proj2 (by_id_of_Some _ _ _ Htp)).
    + by rewrite last_snoc.
    + by destruct ts0.
    + rewrite sum_story_points_app, Hsum, Hfin.
      unfold sum_story_points. simpl. lia.
    + rewrite !length_app in *. simpl in *. lia.
Qed.

(** No chain weighs more than the finish label of its last task. *)
Lemma chain_weight_le (l : list Task.t) :
  dep_chain tasks l →
  ∀ a z, head l = Some a → last l = Some z →
    default 0 (Kahn.earliest st !! Task.id a) + sum_story_points l
    ≤ label_finish tasks (Kahn.earliest st) (Task.id z).
Proof.
  assert (Hid : ∀ t, t ∈ tasks → Task.id t ∈ task_ids tasks)
    by (intros; unfold task_ids; by apply list_elem_of_fmap_2).
  induction 1 as [t Ht|a b l Ha Hab Hbl IH]; intros a' z Hhead Hlast;
    simpl in Hhead, Hlast; simplify_eq.
  - unfold label_finish, sum_story_points. simpl.
    rewrite weight_of_task; [lia|apply Hwf|done].
  - pose proof (dep_chain_head _ _ _ Hbl) as Hb.
    specialize (IH b z eq_refl Hlast).
    destruct (complete_label (Task.id b) (Hid b Hb))
      as (e & pr & t & He & _ & _ & _ & _ & _ & _ & Hle & _).
    assert (Hpar : Task.id a' ∈ parents_of tasks (Task.id b)).
    { rewrite parents_of_task; [|apply Hwf|done].
      apply list_elem_of_filter. auto. }
    specialize (Hle _ Hpar). rewrite He in IH. simpl in IH.
    unfold label_finish in Hle.
    rewrite weight_of_task in Hle; [|apply Hwf|done].
    change (sum_story_points (a' :: b :: l))
      with (Task.story_points a' + sum_story_points (b :: l)). lia.
Qed.

Lemma complete_nonneg (c : string) :
  c ∈ task_ids tasks → 0 ≤ default 0 (Kahn.earliest st !! c).
Proof.
  intros Hc. destruct (complete_label c Hc) as (e & ? & ? & -> & _ & _ & _ & _ & _ & He & _).
  done.
Qed.
End complete.

(** ** [critical_path] on a well-formed task list *)

Lemma critical_path_unfold (tasks : list Task.t) (fuel : nat) (g : graph)
    (st : Kahn.state) :
  tasks ≠ [] → build_graph tasks = Ok g →
  kahn_loop fuel (by_id_of tasks) (g_children g) (kahn_init tasks g) = Ok st →
  critical_path fuel tasks
  = if bool_decide (length (Kahn.topo_order st) ≠ length tasks)
    then Ok (sorted_by_key Task.priority tasks)
    else
      end_id ← py_max (finish_key (by_id_of tasks) (Kahn.earliest st))
                 (Kahn.topo_order st);
      path ← trace_back fuel (Kahn.pred st) (Some end_id) [];
      tasks_of_ids (by_id_of tasks) (reverse path).
Proof.
  intros Hne Hg Hst. destruct tasks as [|t tasks]; [done|].
  unfold critical_path. rewrite Hg. simpl. by rewrite Hst.
Qed.

Lemma cyclic_nonempty (tasks : list Task.t) : cyclic tasks → tasks ≠ [].
Proof.
  intros [x Hx] ->.
  destruct Hx as [? ? (t & Ht & _)|? ? ? (t & Ht & _) _];
    by apply elem_of_nil in Ht.
Qed.

(** The fallback: with a cycle among the restricted edges the result is the
    task list sorted by priority. *)
Lemma critical_path_cyclic_tasks (tasks : list Task.t) (fuel : nat) :
  wf_tasks tasks → cyclic tasks → (length tasks ≤ fuel)%nat →
  critical_path fuel tasks = Ok (sorted_by_key Task.priority tasks).
Proof.
  intros Hwf Hcyc Hfuel.
  destruct (kahn_run tasks fuel Hwf Hfuel) as (g & st & Hg & Hst & Hinv & Hq).
  rewrite (critical_path_unfold tasks fuel g st); [|by apply cyclic_nonempty|done..].
  rewrite bool_decide_eq_true_2; [done|]. by eapply exit_cyclic.
Qed.

(** The regular case: every task was emitted. *)
Lemma critical_path_complete_tasks (tasks : list Task.t) (fuel : nat)
    (g : graph) (st : Kahn.state) :
  wf_tasks tasks → tasks ≠ [] → (length tasks ≤ fuel)%nat →
  build_graph tasks = Ok g →
  kahn_loop fuel (by_id_of tasks) (g_children g) (kahn_init tasks g) = Ok st →
  kahn_inv tasks st → Kahn.queue st = [] →
  length (Kahn.topo_order st) = length tasks →
  ∃ end_id l ts,
    critical_path fuel tasks = Ok ts
    ∧ end_id ∈ Kahn.topo_order st
    ∧ (∀ x, x ∈ Kahn.topo_order st →
         label_finish tasks (Kahn.earliest st) x
         ≤ label_finish tasks (Kahn.earliest st) end_id)
    ∧ back_chain (Kahn.pred st) end_id l
    ∧ (length l ≤ length tasks)%nat
    ∧ tasks_of_ids (by_id_of tasks) (reverse l) = Ok ts.
Proof.
  intros Hwf Hne Hfuel Hg Hst Hinv Hq Hlen.
  rewrite (critical_path_unfold tasks fuel g st) by done.
  rewrite bool_decide_eq_false_2 by (by intros ?).
  destruct (py_max_spec (finish_key (by_id_of tasks) (Kahn.earliest st))
              (label_finish tasks (Kahn.earliest st)) (Kahn.topo_order st))
    as (end_id & Hmax & Hend & Hle).
  { intros HT. rewrite HT in Hlen. by destruct tasks. }
  { intros x Hx. by apply complete_finish_key. }
  destruct (complete_trace tasks Hwf st Hinv Hq Hlen fuel end_id Hfuel Hend)
    as (l & Hl & Hchain & Hll).
  destruct (back_chain_forward tasks Hwf st Hinv Hq Hlen end_id l Hchain)
    as (ts & t & r & Hts & _); [by eapply exit_ids|].
  exists end_id, l, ts. rewrite Hmax. simpl. rewrite Hl. simpl.
  by split_and!.
Qed.

(** [critical_path] returns, whatever the dependencies look like. *)
Lemma critical_path_total_tasks (tasks : list Task.t) (fuel : nat) :
  wf_tasks tasks → (length tasks ≤ fuel)%nat →
  ∃ r, critical_path fuel tasks = Ok r.
Proof.
  intros Hwf Hfuel. destruct (decide (tasks = [])) as [->|Hne]; [by eexists|].
  destruct (kahn_run tasks fuel Hwf Hfuel) as (g & st & Hg & Hst & Hinv & Hq).
  destruct (decide (length (Kahn.topo_order st) = length tasks)) as [Hlen|Hlen].
  - destruct (critical_path_complete_tasks tasks fuel g st)
      as (? & ? & ts & Hts & _); try done. by exists ts.
  - rewrite (critical_path_unfold tasks fuel g st) by done.
    rewrite bool_decide_eq_true_2 by done. by eexists.
Qed.

Lemma dep_chain_nonempty (tasks : list Task.t) (l : list Task.t) :
  dep_chain tasks l → ∃ a, head l = Some a ∧ a ∈ tasks.
Proof. destruct 1; eauto. Qed.

(** Without a cycle and with positive weights the result is a heaviest
    chain, and it starts at a task that waits for nothing. *)
Lemma critical_path_acyclic_tasks (tasks : list Task.t) (fuel : nat) :
  wf_tasks tasks → acyclic tasks → tasks ≠ [] →
  (∀ t, t ∈ tasks → 0 < Task.story_points t) →
  (length tasks ≤ fuel)%nat →
  ∃ path first,
    critical_path fuel tasks = Ok path
    ∧ (length path ≤ length tasks)%nat
    ∧ dep_chain tasks path
    ∧ head path = Some first
    ∧ (∀ d, d ∈ Task.dependencies first → d ∉ task_ids tasks)
    ∧ max_finish_time tasks (sum_story_points path).
Proof.
  intros Hwf Hacyc Hne Hpos Hfuel.
  destruct (kahn_run tasks fuel Hwf Hfuel) as (g & st & Hg & Hst & Hinv & Hq).
  pose proof (exit_acyclic tasks Hwf st Hinv Hq Hacyc) as Hlen.
  destruct (critical_path_complete_tasks tasks fuel g st)
    as (end_id & l & ts & Hts & Hend & Hmax & Hchain & Hll & Hids); try done.
  pose proof (exit_ids tasks Hwf st Hinv Hq end_id Hend) as Hendid.
  destruct (back_chain_forward tasks Hwf st Hinv Hq Hlen end_id l Hchain Hendid)
    as (ts' & t & r & Hts' & Hdc & Ht & Hlast & Hhead & Hr & Hrp & Hsum & Hlen').
  rewrite Hids in Hts'. injection Hts' as <-.
  pose proof (proj1 (exit_complete tasks Hwf st Hinv Hq) Hlen) as Hall.
  assert (Hid : ∀ u, u ∈ tasks → Task.id u ∈ task_ids tasks)
    by (intros; unfold task_ids; by apply list_elem_of_fmap_2).
  assert (Hbound : ∀ l' z, dep_chain tasks l' → last l' = Some z →
            sum_story_points l' ≤ label_finish tasks (Kahn.earliest st) (Task.id z)).
  { intros l' z Hl' Hz. destruct (dep_chain_nonempty _ _ Hl') as (a & Ha & Hain).
    pose proof (chain_weight_le tasks Hwf st Hinv Hq Hlen l' Hl' a z Ha Hz).
    pose proof (complete_nonneg tasks Hwf st Hinv Hq Hlen (Task.id a) (Hid a Hain)).
    lia. }
  pose proof (by_id_of_Some _ _ _ Ht) as [Htin Htid].
  exists ts, r. split_and!; [done|lia|done|done| |].
  - intros d Hd Hdin.
    destruct (complete_label tasks Hwf st Hinv Hq Hlen (Task.id r) (Hid r Hr))
      as (e & pr & t' & He & Hpr & _ & _ & _ & _ & _ & Hle & Hm).
    rewrite Hrp in Hpr. injection Hpr as <-. subst e.
    assert (Hpar : d ∈ parents_of tasks (Task.id r)).
    { rewrite parents_of_task; [|apply Hwf|done]. by apply list_elem_of_filter. }
    specialize (Hle d Hpar).
    destruct (complete_label tasks Hwf st Hinv Hq Hlen d Hdin)
      as (ed & ? & td & _ & _ & _ & Htd & _ & Hfin & Hed0 & _).
    specialize (Hpos td Htd). lia.
  - rewrite Hsum. split.
    + exists t. split; [done|]. split.
      * exists ts. by rewrite Hsum.
      * intros l' Hl' Hz. rewrite <- Htid. by apply Hbound.
    + intros u f Hu [(l' & Hl' & Hz & <-) _].
      etransitivity; [by apply Hbound|]. apply Hmax, Hall, Hid, Hu.
Qed.

(** ** Finish times and the labels of the loop *)

Lemma finish_time_unique (tasks : list Task.t) (t : Task.t) (f f' : Z) :
  finish_time tasks t f → finish_time tasks t f' → f = f'.
Proof.
  intros [(l & Hl & Hz & <-) Hmax] [(l' & Hl' & Hz' & <-) Hmax'].
  specialize (Hmax l' Hl' Hz'). specialize (Hmax' l Hl Hz). lia.
Qed.

(** Once every task has been emitted, the finish label of a task is its
    finish time. *)
Lemma finish_time_label (tasks : list Task.t) (st : Kahn.state) (t : Task.t) :
  wf_tasks tasks → kahn_inv tasks st → Kahn.queue st = [] →
  length (Kahn.topo_order st) = length tasks →
  t ∈ tasks →
  finish_time tasks t (label_finish tasks (Kahn.earliest st) (Task.id t)).
Proof.
  intros Hwf Hinv Hq Hlen Ht.
  assert (Hid : ∀ u, u ∈ tasks → Task.id u ∈ task_ids tasks)
    by (intros; unfold task_ids; by apply list_elem_of_fmap_2).
  pose proof (proj1 (exit_complete tasks Hwf st Hinv Hq) Hlen) as Hall.
  split.
  - destruct (complete_trace tasks Hwf st Hinv Hq Hlen (length tasks) (Task.id t))
      as (l & _ & Hchain & _); [done|by apply Hall, Hid|].
    destruct (back_chain_forward tasks Hwf st Hinv Hq Hlen _ l Hchain (Hid t Ht))
      as (ts & t' & r & _ & Hdc & Ht' & Hlast & _ & _ & _ & Hsum & _).
    rewrite by_id_of_lookup in Ht' by (done || apply Hwf).
    injection Ht' as <-. by exists ts.
  - intros l Hl Hz. destruct (dep_chain_nonempty _ _ Hl) as (a & Ha & Hain).
    pose proof (chain_weight_le tasks Hwf st Hinv Hq Hlen l Hl a t Ha Hz).
    pose proof (complete_nonneg tasks Hwf st Hinv Hq Hlen (Task.id a) (Hid a Hain)).
    lia.
Qed.

(** Finish times obey the longest-path recurrence: a task without a
    prerequisite in the list finishes after its own weight, any other task
    after the latest finish among its prerequisites plus its own weight. *)
Lemma finish_time_recurrence (tasks : list Task.t) (t : Task.t) :
  wf_tasks tasks → acyclic tasks →
  (∀ u, u ∈ tasks → 0 < Task.story_points u) →
  t ∈ tasks →
  ∃ f, finish_time tasks t f
    ∧ (((∀ d, d ∈ Task.dependencies t → d ∉ task_ids tasks)
        ∧ f = Task.story_points t)
       ∨ ∃ p fp, p ∈ tasks ∧ Task.id p ∈ Task.dependencies t
           ∧ finish_time tasks p fp ∧ f = fp + Task.story_points t
           ∧ ∀ q fq, q ∈ tasks → Task.id q ∈ Task.dependencies t →
                     finish_time tasks q fq → fq ≤ fp).
Proof.
  intros Hwf Hacyc Hpos Ht.
  destruct (kahn_run tasks (length tasks) Hwf) as (g & st & _ & _ & Hinv & Hq);
    [done|].
  pose proof (exit_acyclic tasks Hwf st Hinv Hq Hacyc) as Hlen.
  assert (Hid : ∀ u, u ∈ tasks → Task.id u ∈ task_ids tasks)
    by (intros; unfold task_ids; by apply list_elem_of_fmap_2).
  assert (Hfin : ∀ u, u ∈ tasks →
            finish_time tasks u (label_finish tasks (Kahn.earliest st) (Task.id u)))
    by (intros; by apply finish_time_label).
  assert (Hnd : NoDup (task_ids tasks)) by apply Hwf.
  exists (label_finish tasks (Kahn.earliest st) (Task.id t)).
  split; [by apply Hfin|].
  destruct (complete_label tasks Hwf st Hinv Hq Hlen (Task.id t) (Hid t Ht))
    as (e & pr & t' & _ & _ & Ht' & _ & _ & Hf & He0 & Hle & Hm).
  rewrite by_id_of_lookup in Ht' by done. injection Ht' as <-.
  rewrite Hf. destruct pr as [p|].
  - right. destruct Hm as [Hp ->].
    apply elem_of_parents_of in Hp as (t' & Ht' & Heq & Hd & Hpid); [|done].
    unfold task_ids in Hpid.
    apply list_elem_of_fmap in Hpid as (tp & -> & Htp).
    assert (t' = t) as ->.
    { pose proof (by_id_of_lookup tasks t' Hnd Ht') as H1.
      pose proof (by_id_of_lookup tasks t Hnd Ht) as H2.
      rewrite Heq in H1. congruence. }
    exists tp, (label_finish tasks (Kahn.earliest st) (Task.id tp)).
    split_and!; [done|done|by apply Hfin|done|].
    intros q fq Hq' Hqd Hfq.
    rewrite (finish_time_unique _ _ _ _ Hfq (Hfin q Hq')).
    apply Hle. rewrite parents_of_task by done.
    apply list_elem_of_filter. auto.
  - left. subst e. split; [|lia]. intros d Hd Hdin.
    assert (Hpar : d ∈ parents_of tasks (Task.id t)).
    { rewrite parents_of_task by done. by apply list_elem_of_filter. }
    specialize (Hle d Hpar).
    destruct (complete_label tasks Hwf st Hinv Hq Hlen d Hdin)
      as (ed & ? & td & _ & _ & _ & Htd & _ & Hfd & Hed0 & _).
    specialize (Hpos td Htd). lia.
Qed.

(** ** Tools for concrete task lists *)

Lemma wf_db_store_of (ts : list Task.t) : wf_db (store_of ts).
Proof. apply wf_db_run_ops, wf_db_empty. Qed.

(** A rank that grows along every dependency rules out a cycle. *)
Lemma acyclic_of_rank (tasks : list Task.t) (rank : string → nat) :
  Forall (λ t, Forall (λ d, (rank d < rank (Task.id t))%nat)
                 (Task.dependencies t)) tasks →
  acyclic tasks.
Proof.
  intros Hrank [x Hx].
  assert (Htc : ∀ a b, tc (dep_edge tasks) a b → (rank a < rank b)%nat).
  { induction 1 as [a b Hab|a b c Hab _ IH].
    - destruct Hab as (t & Ht & <- & Hd & _).
      rewrite Forall_forall in Hrank. specialize (Hrank t Ht).
      rewrite Forall_forall in Hrank. auto.
    - destruct Hab as (t & Ht & <- & Hd & _).
      rewrite Forall_forall in Hrank. specialize (Hrank t Ht).
      rewrite Forall_forall in Hrank. specialize (Hrank a Hd). lia. }
  specialize (Htc x x Hx). lia.
Qed.

Lemma dep_edge_intro (tasks : list Task.t) (t : Task.t) (p : string) :
  t ∈ tasks → p ∈ Task.dependencies t → p ∈ task_ids tasks →
  dep_edge tasks p (Task.id t).
Proof. intros. by exists t. Qed.

(** ** The claims about the critical path *)

(** C1. For every acyclic dependency graph over a project's tasks with
    positive story points, [get_critical_path] returns a sequence that is no
    longer than the task list, whose first task has no prerequisite among
    the project's tasks, and whose total weight is the largest finish time
    over all tasks: the weight of a heaviest chain of dependent tasks
    ([finish_time_recurrence] shows that finish times so defined are the
    longest-path earliest start plus the task's own weight). *)
Theorem critical_path_of_acyclic_project (db : Db) (project_id : string)
    (fuel : nat) :
  wf_db db →
  acyclic (get_project_tasks db project_id) →
  (∀ t, t ∈ get_project_tasks db project_id → 0 < Task.story_points t) →
  (length (get_project_tasks db project_id) ≤ fuel)%nat →
  ∃ path,
    get_critical_path fuel db project_id = Ok path
    ∧ (length path ≤ length (get_project_tasks db project_id))%nat
    ∧ (get_project_tasks db project_id = [] → path = [])
    ∧ (get_project_tasks db project_id ≠ [] →
       (∃ first, head path = Some first
          ∧ ∀ d, d ∈ Task.dependencies first →
                 d ∉ task_ids (get_project_tasks db project_id))
       ∧ max_finish_time (get_project_tasks db project_id)
           (sum_story_points path)).
Proof.
  intros Hdb Hacyc Hpos Hfuel. unfold get_critical_path.
  pose proof (get_project_tasks_wf db project_id Hdb) as Hwf.
  destruct (get_project_tasks db project_id) as [|t ts] eqn:Htasks.
  - exists []. by split_and!.
  - destruct (critical_path_acyclic_tasks (t :: ts) fuel)
      as (path & first & Hpath & Hlen & _ & Hhead & Hfirst & Hmax); try done.
    exists path. split_and!; [done|done|done|]. intros _. split; [|done].
    by exists first.
Qed.

Lemma critical_path_of_acyclic_project_witness :
  ∃ path,
    get_critical_path 3 chain_db "alpha" = Ok path
    ∧ (length path ≤ length (get_project_tasks chain_db "alpha"))%nat
    ∧ (get_project_tasks chain_db "alpha" = [] → path = [])
    ∧ (get_project_tasks chain_db "alpha" ≠ [] →
       (∃ first, head path = Some first
          ∧ ∀ d, d ∈ Task.dependencies first →
                 d ∉ task_ids (get_project_tasks chain_db "alpha"))
       ∧ max_finish_time (get_project_tasks chain_db "alpha")
           (sum_story_points path)).
Proof.
  apply (critical_path_of_acyclic_project chain_db "alpha" 3).
  - apply wf_db_store_of.
  - apply (acyclic_of_rank _
             (λ i, if decide (i = "t1") then 0 else if decide (i = "t2") then 1 else 2)%nat).
    vm_compute. repeat constructor.
  - apply Forall_forall. vm_compute. repeat constructor.
  - vm_compute. lia.
Defined.

(** C2. Whenever the restricted dependency edges of the project's tasks
    contain a cycle, [get_critical_path] raises nothing and returns all the
    tasks sorted by ascending priority, tasks of equal priority in the order
    of the input: the result depends on the priorities and the input order
    alone. *)
Theorem critical_path_cycle_fallback (db : Db) (project_id : string)
    (fuel : nat) :
  wf_db db →
  cyclic (get_project_tasks db project_id) →
  (length (get_project_tasks db project_id) ≤ fuel)%nat →
  ∃ result,
    get_critical_path fuel db project_id = Ok result
    ∧ result = sorted_by_key Task.priority (get_project_tasks db project_id)
    ∧ result ≡ₚ get_project_tasks db project_id
    ∧ Sorted (λ a b, Task.priority a ≤ Task.priority b) result
    ∧ ∀ k, filter (λ t, Task.priority t = k) result
           = filter (λ t, Task.priority t = k) (get_project_tasks db project_id).
Proof.
  intros Hdb Hcyc Hfuel. eexists. split_and!.
  - apply critical_path_cyclic_tasks; [by apply get_project_tasks_wf|done..].
  - done.
  - apply sorted_by_key_Permutation.
  - apply sorted_by_key_Sorted.
  - intros k. apply sorted_by_key_stable.
Qed.

Lemma critical_path_cycle_fallback_witness :
  ∃ result,
    get_critical_path 2 cycle_db "alpha" = Ok result
    ∧ result = sorted_by_key Task.priority (get_project_tasks cycle_db "alpha")
    ∧ result ≡ₚ get_project_tasks cycle_db "alpha"
    ∧ Sorted (λ a b, Task.priority a ≤ Task.priority b) result
    ∧ ∀ k, filter (λ t, Task.priority t = k) result
           = filter (λ t, Task.priority t = k) (get_project_tasks cycle_db "alpha").
Proof.
  apply (critical_path_cycle_fallback cycle_db "alpha" 2).
  - apply wf_db_add_dependency, wf_db_store_of.
  - exists "a". apply tc_l with "b".
    + apply (dep_edge_intro _ (example_task "b" 1 1 None ["a"]));
        vm_compute; repeat constructor.
    + apply tc_once.
      apply (dep_edge_intro _ (example_task "a" 2 1 None ["b"]));
        vm_compute; repeat constructor.
  - vm_compute. lia.
Defined.

(** The store of [test_critical_path_cycle_fallback]: both tasks come back,
    the one of priority 1 first. *)
Example cycle_fallback_example :
  get_critical_path 2 cycle_db "alpha" = Ok (get_project_tasks cycle_db "alpha")
  ∧ Task.id <$> get_project_tasks cycle_db "alpha" = ["b"; "a"].
Proof. by vm_compute. Qed.

Lemma self_dependency_cyclic (tasks : list Task.t) (t : Task.t) :
  t ∈ tasks → Task.id t ∈ Task.dependencies t → cyclic tasks.
Proof.
  intros Ht Hself. exists (Task.id t). apply tc_once, dep_edge_intro; [done..|].
  unfold task_ids. by apply list_elem_of_fmap_2.
Qed.

(** C3. [get_critical_path] returns on every task list read from the store,
    cycles included: a number of loop iterations equal to the number of
    tasks is enough for both of its loops.  A task that depends on itself is
    a cycle of one task and ends in the fallback. *)
Theorem get_critical_path_terminates (db : Db) (project_id : string)
    (fuel : nat) :
  wf_db db →
  (length (get_project_tasks db project_id) ≤ fuel)%nat →
  (∃ result, get_critical_path fuel db project_id = Ok result)
  ∧ ((∃ t, t ∈ get_project_tasks db project_id
           ∧ Task.id t ∈ Task.dependencies t) →
     get_critical_path fuel db project_id
     = Ok (sorted_by_key Task.priority (get_project_tasks db project_id))).
Proof.
  intros Hdb Hfuel. pose proof (get_project_tasks_wf db project_id Hdb) as Hwf.
  split.
  - by apply critical_path_total_tasks.
  - intros (t & Ht & Hself). apply critical_path_cyclic_tasks; [done| |done].
    by eapply self_dependency_cyclic.
Qed.

Lemma get_critical_path_terminates_witness :
  (∃ result, get_critical_path 2 self_db "alpha" = Ok result)
  ∧ ((∃ t, t ∈ get_project_tasks self_db "alpha"
           ∧ Task.id t ∈ Task.dependencies t) →
     get_critical_path 2 self_db "alpha"
     = Ok (sorted_by_key Task.priority (get_project_tasks self_db "alpha"))).
Proof.
  apply (get_critical_path_terminates self_db "alpha" 2).
  - apply wf_db_store_of.
  - vm_compute. lia.
Defined.

(** ** A chain of three tasks *)

Lemma back_chain_root_inv (pred : gmap string (option string)) (c : string)
    (l : list string) :
  pred !! c = Some None → back_chain pred c l → l = [c].
Proof. intros Hc. inversion 1; simplify_eq; done. Qed.

Lemma back_chain_step_inv (pred : gmap string (option string)) (c p : string)
    (l : list string) :
  pred !! c = Some (Some p) → back_chain pred c l →
  ∃ l', l = c :: l' ∧ back_chain pred p l'.
Proof. intros Hc. inversion 1; simplify_eq; eauto. Qed.

Lemma critical_path_chain_tasks (tasks : list Task.t) (a b c : Task.t)
    (fuel : nat) :
  wf_tasks tasks → tasks ≡ₚ [a; b; c] →
  Task.dependencies a = [] →
  Task.dependencies b = [Task.id a] →
  Task.dependencies c = [Task.id b] →
  0 < Task.story_points a → 0 < Task.story_points b →
  0 < Task.story_points c →
  (3 ≤ fuel)%nat →
  critical_path fuel tasks = Ok [a; b; c].
Proof.
  intros Hwf Hperm Hda Hdb Hdc Hpa Hpb Hpc Hfuel.
  assert (Hin : ∀ t, t ∈ tasks ↔ t = a ∨ t = b ∨ t = c)
    by (intros t; rewrite Hperm; set_solver).
  assert (Hids : ∀ i, i ∈ task_ids tasks
                    ↔ i = Task.id a ∨ i = Task.id b ∨ i = Task.id c).
  { intros i. unfold task_ids. rewrite Hperm. set_solver. }
  assert (Hlen3 : length tasks = 3%nat) by (by rewrite Hperm).
  assert (Hne : tasks ≠ []) by (intros ->; done).
  pose proof Hwf as [Hnd _].
  assert (Hdist : Task.id a ≠ Task.id b ∧ Task.id a ≠ Task.id c
                  ∧ Task.id b ≠ Task.id c).
  { unfold task_ids in Hnd. rewrite Hperm in Hnd. simpl in Hnd.
    apply NoDup_cons in Hnd as [Hab Hnd]. apply NoDup_cons in Hnd as [Hbc _].
    set_solver. }
  destruct Hdist as (Hab & Hac & Hbc).
  assert (Hpa' : parents_of tasks (Task.id a) = []).
  { rewrite parents_of_task by (done || apply Hin; auto). by rewrite Hda. }
  assert (Hpb' : parents_of tasks (Task.id b) = [Task.id a]).
  { rewrite parents_of_task by (done || apply Hin; auto). rewrite Hdb.
    rewrite filter_cons, decide_True by (apply Hids; auto). done. }
  assert (Hpc' : parents_of tasks (Task.id c) = [Task.id b]).
  { rewrite parents_of_task by (done || apply Hin; auto). rewrite Hdc.
    rewrite filter_cons, decide_True by (apply Hids; auto). done. }
  destruct (kahn_run tasks fuel Hwf) as (g & st & Hg & Hst & Hinv & Hq); [lia|].
  set (T := Kahn.topo_order st).
  assert (HaT : Task.id a ∈ T).
  { apply (exit_ready tasks st Hinv Hq); [apply Hids; auto|].
    rewrite Hpa'. by intros ? ?%elem_of_nil. }
  assert (HbT : Task.id b ∈ T).
  { apply (exit_ready tasks st Hinv Hq); [apply Hids; auto|].
    rewrite Hpb'. by intros ? ->%list_elem_of_singleton. }
  assert (HcT : Task.id c ∈ T).
  { apply (exit_ready tasks st Hinv Hq); [apply Hids; auto|].
    rewrite Hpc'. by intros ? ->%list_elem_of_singleton. }
  assert (Hlen : length T = length tasks).
  { apply (exit_complete tasks Hwf st Hinv Hq). intros i Hi.
    apply Hids in Hi as [->|[->| ->]]; done. }
  destruct (critical_path_complete_tasks tasks fuel g st)
    as (end_id & l & ts & Hts & Hend & Hmax & Hchain & _ & Hl); try done; [lia|].
  rewrite Hts. f_equal.
  (* the labels of the three tasks *)
  destruct (complete_label tasks Hwf st Hinv Hq Hlen (Task.id a))
    as (ea & pra & ta & _ & Hpra & Hta & _ & _ & Hfa & _ & _ & Hma);
    [apply Hids; auto|].
  destruct (complete_label tasks Hwf st Hinv Hq Hlen (Task.id b))
    as (eb & prb & tb & _ & Hprb & Htb & _ & _ & Hfb & Heb0 & Hleb & Hmb);
    [apply Hids; auto|].
  destruct (complete_label tasks Hwf st Hinv Hq Hlen (Task.id c))
    as (ec & prc & tc & _ & Hprc & Htc & _ & _ & Hfc & Hec0 & Hlec & Hmc);
    [apply Hids; auto|].
  rewrite by_id_of_lookup in Hta, Htb, Htc by (done || apply Hin; auto).
  injection Hta as <-. injection Htb as <-. injection Htc as <-.
  rewrite Hpa' in Hma. rewrite Hpb' in Hmb, Hleb. rewrite Hpc' in Hmc, Hlec.
  destruct pra as [p|]; [by destruct Hma as [?%elem_of_nil _]|]. subst ea.
  specialize (Hleb (Task.id a) ltac:(set_solver)).
  specialize (Hlec (Task.id b) ltac:(set_solver)).
  destruct prb as [p|]; [|lia].
  destruct Hmb as [->%list_elem_of_singleton ->].
  destruct prc as [p|]; [|lia].
  destruct Hmc as [->%list_elem_of_singleton ->].
  (* the end of the path is the last task of the chain *)
  assert (end_id = Task.id c) as ->.
  { pose proof (Hmax _ HcT) as Hc.
    apply (exit_ids tasks Hwf st Hinv Hq), Hids in Hend as [->|[->| ->]];
      [lia|lia|done]. }
  apply (back_chain_step_inv _ _ _ _ Hprc) in Hchain as (l1 & -> & Hchain).
  apply (back_chain_step_inv _ _ _ _ Hprb) in Hchain as (l2 & -> & Hchain).
  apply (back_chain_root_inv _ _ _ Hpra) in Hchain as ->.
  change (reverse [Task.id c; Task.id b; Task.id a])
    with [Task.id a; Task.id b; Task.id c] in Hl.
  simpl in Hl. rewrite !by_id_of_lookup in Hl by (done || apply Hin; auto).
  simpl in Hl. by injection Hl.
Qed.

(** C6 (as the code has it).  For every linear chain of three tasks, the
    first without dependencies, the second depending on the first and the
    third on the second, and for all positive story points,
    [get_critical_path] returns exactly the three tasks in that order. *)
Theorem critical_path_linear_chain (db : Db) (project_id : string)
    (a b c : Task.t) (fuel : nat) :
  wf_db db →
  get_project_tasks db project_id ≡ₚ [a; b; c] →
  Task.dependencies a = [] →
  Task.dependencies b = [Task.id a] →
  Task.dependencies c = [Task.id b] →
  0 < Task.story_points a → 0 < Task.story_points b →
  0 < Task.story_points c →
  (3 ≤ fuel)%nat →
  get_critical_path fuel db project_id = Ok [a; b; c].
Proof.
  intros Hdb. apply critical_path_chain_tasks. by apply get_project_tasks_wf.
Qed.

Lemma critical_path_linear_chain_witness :
  get_critical_path 3 chain_db "alpha" = Ok [chain_a; chain_b; chain_c].
Proof.
  apply (critical_path_linear_chain chain_db "alpha" chain_a chain_b chain_c 3);
    [apply wf_db_store_of|by vm_compute|done|done|done|done|done|done|lia].
Defined.

(** C6 as the claim states it, for all story points, fails: with weights of
    zero no task improves the label of its dependent, no predecessor is
    recorded, and the path is the first task alone. *)
Lemma critical_path_linear_chain_zero_weights :
  get_project_tasks zero_chain_db "alpha" = [zero_a; zero_b; zero_c]
  ∧ Task.dependencies zero_a = []
  ∧ Task.dependencies zero_b = [Task.id zero_a]
  ∧ Task.dependencies zero_c = [Task.id zero_b]
  ∧ get_critical_path 3 zero_chain_db "alpha" = Ok [zero_a].
Proof. by vm_compute. Qed.

(** ** The order of [get_project_tasks] *)

Lemma null_first_leb_total (x y : option Z) :
  null_first_leb x y = false → null_first_leb y x = true.
Proof.
  destruct x as [x|], y as [y|]; simpl; try done.
  intros H%bool_decide_eq_false. apply bool_decide_eq_true. lia.
Qed.

Lemma task_order_leb_total (r1 r2 : TaskRow.t) :
  task_order_leb r1 r2 = false → task_order_leb r2 r1 = true.
Proof.
  unfold task_order_leb. intros H.
  apply orb_false_iff in H as [H1%bool_decide_eq_false H2].
  destruct (decide (TaskRow.priority r2 < TaskRow.priority r1)) as [Hlt|Hge].
  - by rewrite (bool_decide_eq_true_2 _ Hlt).
  - assert (Heq : TaskRow.priority r1 = TaskRow.priority r2) by lia.
    rewrite (bool_decide_eq_true_2 _ Heq) in H2. simpl in H2.
    rewrite (bool_decide_eq_true_2 (TaskRow.priority r2 = TaskRow.priority r1))
      by done.
    simpl. rewrite (null_first_leb_total _ _ H2). apply orb_true_r.
Qed.

Lemma Sorted_fmap_impl {A B} (f : A → B) (R : A → A → Prop) (S : B → B → Prop)
    (l : list A) :
  (∀ x y, R x y → S (f x) (f y)) → Sorted R l → Sorted S (f <$> l).
Proof.
  intros HRS. induction 1 as [|x l Hl IH Hhd]; simpl; constructor; [done|].
  destruct Hhd; simpl; constructor; auto.
Qed.

(** C4 (as the code has it).  For every project, [get_project_tasks]
    returns exactly the project's tasks, ordered by priority ascending, then
    by due date ascending, the tasks without a due date first within their
    priority: SQLite sorts NULL before every value. *)
Theorem get_project_tasks_order (db : Db) (project_id : string) :
  Sorted (λ t1 t2, by_priority_then null_first_leb t1 t2 = true)
    (get_project_tasks db project_id)
  ∧ get_project_tasks db project_id
    ≡ₚ (λ row, _row_to_task row (select_depends_on db (TaskRow.id row)))
       <$> filter (λ r, TaskRow.project_id r = project_id) (tasks db).
Proof.
  unfold get_project_tasks. split.
  - eapply Sorted_fmap_impl;
      [|apply stable_sort_Sorted, task_order_leb_total].
    by intros r1 r2 H.
  - by rewrite stable_sort_Permutation.
Qed.

(** C4 as the claim states it, with the undated tasks last, fails: of two
    tasks of one priority the undated one is returned first, though it was
    stored second. *)
Lemma get_project_tasks_null_first :
  Task.id <$> get_project_tasks due_db "alpha" = ["open"; "late"]
  ∧ Task.due_date <$> get_project_tasks due_db "alpha" = [None; Some 739100]
  ∧ is_sorted (by_priority_then null_last_leb)
      (get_project_tasks due_db "alpha") = false.
Proof. by vm_compute. Qed.

(** ** Completion times *)

Lemma store_inv_add_task (task : Task.t) (db db' : Db) (t' : Task.t) :
  store_inv db →
  (Task.completed_at task ≠ None ↔ Task.status task = "done") →
  add_task task db = Ok (db', t') → store_inv db'.
Proof.
  intros Hinv Htask. unfold add_task.
  destruct (negb _); [done|]. case_bool_decide; [done|].
  intros [= <- <-] r. simpl.
  intros [Hr| ->%list_elem_of_singleton]%elem_of_app; [by apply Hinv|done].
Qed.

Lemma store_inv_update_task_status (now : datetime) (db : Db)
    (task_id status : string) :
  store_inv db → store_inv (update_task_status now db task_id status).1.
Proof.
  intros Hinv r. simpl. intros (r0 & -> & Hr0)%list_elem_of_fmap.
  case_bool_decide; [|by apply Hinv].
  unfold completed_iff_done. simpl. by case_bool_decide.
Qed.

Lemma get_task_update_task_status (now : datetime) (db : Db)
    (task_id status : string) (t : Task.t) :
  get_task (update_task_status now db task_id status).1 task_id = Some t →
  Task.status t = status
  ∧ Task.completed_at t = if bool_decide (status = "done") then Some now else None.
Proof.
  unfold get_task. simpl.
  destruct (head _) as [row|] eqn:Hhead; [|done]. intros [= <-]. simpl.
  apply head_Some_elem_of in Hhead.
  apply list_elem_of_filter in Hhead as [Hid Hrow].
  apply list_elem_of_fmap in Hrow as (r0 & -> & _).
  destruct (bool_decide (TaskRow.id r0 = task_id)) eqn:Hr0; [done|].
  by apply bool_decide_eq_false in Hr0.
Qed.

(** C5 (as the code has it).  Over every sequence of [add_task] and
    [update_task_status] that starts in a store where [completed_at] is set
    exactly on the done tasks and adds only tasks that are so themselves, the
    stored tasks keep that property; [update_task_status] with "done" sets
    the completion time of the task, with any other status it clears it. *)
Theorem completed_iff_done_preserved (ops : list store_op) (db : Db) :
  store_inv db →
  (∀ task, OpAddTask task ∈ ops →
     Task.completed_at task ≠ None ↔ Task.status task = "done") →
  store_inv (run_ops ops db)
  ∧ ∀ now task_id status t,
      get_task (update_task_status now (run_ops ops db) task_id status).1 task_id
      = Some t →
      Task.status t = status
      ∧ (status = "done" → Task.completed_at t = Some now)
      ∧ (status ≠ "done" → Task.completed_at t = None).
Proof.
  intros Hinv Hadd. split.
  - revert db Hinv. induction ops as [|op ops IH]; intros db Hinv; [done|].
    simpl. apply IH; [intros; apply Hadd; set_solver|].
    destruct op as [task|now tid status]; simpl.
    + destruct (add_task task db) as [[db' t']| |] eqn:Ha; [|done..].
      eapply store_inv_add_task; [done| |done]. apply Hadd. set_solver.
    + by apply store_inv_update_task_status.
  - intros now task_id status t Ht.
    apply get_task_update_task_status in Ht as [Hs Hc]. split; [done|].
    rewrite Hc. split; intros Hst.
    + by rewrite bool_decide_eq_true_2.
    + by rewrite bool_decide_eq_false_2.
Qed.

Lemma completed_iff_done_preserved_witness :
  store_inv (run_ops [OpAddTask chain_a; OpUpdateTaskStatus epoch "t1" "done"]
               empty_db)
  ∧ ∀ now task_id status t,
      get_task
        (update_task_status now
           (run_ops [OpAddTask chain_a; OpUpdateTaskStatus epoch "t1" "done"]
              empty_db) task_id status).1 task_id
      = Some t →
      Task.status t = status
      ∧ (status = "done" → Task.completed_at t = Some now)
      ∧ (status ≠ "done" → Task.completed_at t = None).
Proof.
  apply (completed_iff_done_preserved
           [OpAddTask chain_a; OpUpdateTaskStatus epoch "t1" "done"] empty_db).
  - by intros r ?%elem_of_nil.
  - intros task [[= ->]|Hin]%elem_of_cons.
    + vm_compute. split; [by intros H|by intros H].
    + by apply list_elem_of_singleton in Hin.
Defined.

(** C5 as the claim states it, over every sequence of operations, fails:
    [add_task] stores the status and the completion time it is given, so a
    task added as done and without a completion time is stored that way. *)
Lemma add_task_done_without_completion :
  ∃ t, get_task (run_ops [OpAddTask done_task] empty_db) "d1" = Some t
     ∧ Task.status t = "done" ∧ Task.completed_at t = None.
Proof. eexists. by vm_compute. Qed.

(** ** Burndown *)

Lemma date_add_days_valid (d : date) (n : Z) :
  valid_date (d + n) → date_add_days d n = Ok (d + n).
Proof. intros Hv. unfold date_add_days. by rewrite bool_decide_eq_true_2. Qed.

Lemma burndown_day_valid (start total_points : Z) (ideal_per_day : float)
    (completed_by_day : gmap Z Z) (acc : Z * list chart_point) (i : Z) :
  valid_date (start + i) →
  burndown_day start total_points ideal_per_day completed_by_day acc i
  = Ok (acc.1 - default 0 (completed_by_day !! (start + i)),
        acc.2 ++ [mk_point i (start + i)
                    (ideal_value total_points ideal_per_day i)
                    (acc.1 - default 0 (completed_by_day !! (start + i)))]).
Proof. intros Hv. unfold burndown_day. by rewrite date_add_days_valid. Qed.

Lemma for_each_burndown_day (start total_points : Z) (ideal_per_day : float)
    (completed_by_day : gmap Z Z) (days : list Z) (remaining : Z)
    (chart : list chart_point) :
  (∀ i, i ∈ days → valid_date (start + i)) →
  ∃ remaining' points,
    for_each (burndown_day start total_points ideal_per_day completed_by_day)
      days (remaining, chart)
    = Ok (remaining', chart ++ points)
    ∧ cp_day <$> points = days
    ∧ cp_ideal <$> points = ideal_value total_points ideal_per_day <$> days.
Proof.
  revert remaining chart. induction days as [|i days IH]; intros rem chart Hv.
  - exists rem, []. by rewrite app_nil_r.
  - assert (Hi : valid_date (start + i)) by (apply Hv; set_solver).
    set (rem1 := rem - default 0 (completed_by_day !! (start + i))).
    set (pt := mk_point i (start + i)
                 (ideal_value total_points ideal_per_day i) rem1).
    destruct (IH rem1 (chart ++ [pt])) as (rem' & pts & Hrun & Hday & Hideal);
      [intros; apply Hv; set_solver|].
    exists rem', (pt :: pts). split_and!.
    + rewrite for_each_cons, (burndown_day_valid _ _ _ _ _ _ Hi). simpl.
      fold rem1. fold pt. rewrite Hrun. by rewrite <- app_assoc.
    + simpl. by f_equal.
    + simpl. by f_equal.
Qed.

Lemma calculate_burndown_unfold (today : date) (db : Db) (project_id : string)
    (sprint_days start : Z) (ideal_per_day : float)
    (acc : Z * list chart_point) :
  sum_story_points (get_project_tasks db project_id) ≠ 0 →
  date_add_days today (- sprint_days) = Ok start →
  int_true_div (sum_story_points (get_project_tasks db project_id)) sprint_days
  = Ok ideal_per_day →
  for_each
    (burndown_day start (sum_story_points (get_project_tasks db project_id))
       ideal_per_day
       (foldl (add_completion start) ∅ (get_project_tasks db project_id)))
    (seqZ 0 (sprint_days + 1))
    (sum_story_points (get_project_tasks db project_id), [])
  = Ok acc →
  calculate_burndown today db project_id sprint_days = Ok acc.2.
Proof.
  intros Htotal Hstart Hipd Hrun. unfold calculate_burndown.
  rewrite bool_decide_eq_false_2 by done.
  by rewrite Hstart, bind_Ok_l, Hipd, bind_Ok_l, Hrun, bind_Ok_l.
Qed.

Lemma calculate_burndown_points (today : date) (db : Db) (project_id : string)
    (sprint_days : Z) :
  valid_date today →
  sum_story_points (get_project_tasks db project_id) ≠ 0 →
  1 ≤ sprint_days → MINORDINAL ≤ today - sprint_days →
  ∃ ideal_per_day chart,
    int_true_div (sum_story_points (get_project_tasks db project_id)) sprint_days
    = Ok ideal_per_day
    ∧ calculate_burndown today db project_id sprint_days = Ok chart
    ∧ cp_day <$> chart = seqZ 0 (sprint_days + 1)
    ∧ cp_ideal <$> chart
      = ideal_value (sum_story_points (get_project_tasks db project_id))
          ideal_per_day <$> seqZ 0 (sprint_days + 1).
Proof.
  intros [Hlo Hhi] Htotal Hdays Hstart.
  assert (Hs : valid_date (today + - sprint_days))
    by (unfold valid_date in *; lia).
  destruct (int_true_div (sum_story_points (get_project_tasks db project_id))
              sprint_days) as [ipd| |] eqn:Hipd;
    [|unfold int_true_div in Hipd;
      by rewrite bool_decide_eq_false_2 in Hipd by lia..].
  destruct (for_each_burndown_day (today + - sprint_days)
              (sum_story_points (get_project_tasks db project_id)) ipd
              (foldl (add_completion (today + - sprint_days)) ∅
                 (get_project_tasks db project_id))
              (seqZ 0 (sprint_days + 1))
              (sum_story_points (get_project_tasks db project_id)) [])
    as (rem' & pts & Hrun & Hday & Hideal).
  { intros i [Hi0 Hi1]%elem_of_seqZ. unfold valid_date in *. lia. }
  exists ipd, pts. split_and!; [done| |done..].
  by rewrite (calculate_burndown_unfold today db project_id sprint_days
                (today + - sprint_days) ipd (rem', [] ++ pts))
    by (done || by apply date_add_days_valid).
Qed.

Lemma sum_story_points_nonneg (ts : list Task.t) :
  (∀ t, t ∈ ts → 0 ≤ Task.story_points t) → 0 ≤ sum_story_points ts.
Proof.
  induction ts as [|t ts IH]; intros Hts; [done|].
  change (sum_story_points (t :: ts))
    with (Task.story_points t + sum_story_points ts).
  pose proof (Hts t ltac:(set_solver)) as Ht.
  specialize (IH ltac:(intros; apply Hts; set_solver)). lia.
Qed.

Lemma sum_story_points_pos (ts : list Task.t) :
  (∀ t, t ∈ ts → 0 ≤ Task.story_points t) →
  (∃ t, t ∈ ts ∧ 0 < Task.story_points t) → 0 < sum_story_points ts.
Proof.
  intros Hts (t & Ht & Hpos).
  apply list_elem_of_split in Ht as (l1 & l2 & ->).
  rewrite sum_story_points_app.
  change (sum_story_points (t :: l2))
    with (Task.story_points t + sum_story_points l2).
  pose proof (sum_story_points_nonneg l1 ltac:(intros; apply Hts; set_solver)).
  pose proof (sum_story_points_nonneg l2 ltac:(intros; apply Hts; set_solver)).
  lia.
Qed.

(** C7 (as the code has it).  [calculate_burndown] returns the empty list
    when the project's total story points are zero.  Otherwise, for a sprint
    of at least one day that starts within the calendar, it returns
    [sprint_days + 1] points, day 0 to day [sprint_days]; with five sprint
    days and three tasks of two points each these are six points with an
    ideal value of 6.0 on day 0 and of 0.0 on day 5. *)
Theorem calculate_burndown_shape (today : date) (db : Db) (project_id : string)
    (sprint_days : Z) :
  valid_date today →
  (sum_story_points (get_project_tasks db project_id) = 0 →
   calculate_burndown today db project_id sprint_days = Ok [])
  ∧ (sum_story_points (get_project_tasks db project_id) ≠ 0 →
     1 ≤ sprint_days → MINORDINAL ≤ today - sprint_days →
     ∃ chart,
       calculate_burndown today db project_id sprint_days = Ok chart
       ∧ length chart = Z.to_nat (sprint_days + 1)
       ∧ cp_day <$> chart = seqZ 0 (sprint_days + 1))
  ∧ (Task.story_points <$> get_project_tasks db project_id = [2; 2; 2] →
     MINORDINAL ≤ today - 5 →
     ∃ chart,
       calculate_burndown today db project_id 5 = Ok chart
       ∧ length chart = 6%nat
       ∧ cp_ideal <$> chart !! 0%nat = Some 6%float
       ∧ cp_ideal <$> chart !! 5%nat = Some 0%float).
Proof.
  intros Htoday. split_and!.
  - intros H0. unfold calculate_burndown. by rewrite bool_decide_eq_true_2.
  - intros Htotal Hdays Hstart.
    destruct (calculate_burndown_points today db project_id sprint_days)
      as (ipd & chart & _ & Hchart & Hday & _); try done.
    exists chart. split_and!; [done| |done].
    rewrite <- (length_fmap cp_day), Hday. apply length_seqZ.
  - intros Hsp Hstart.
    assert (Htotal : sum_story_points (get_project_tasks db project_id) = 6)
      by (unfold sum_story_points; by rewrite Hsp).
    destruct (calculate_burndown_points today db project_id 5)
      as (ipd & chart & Hipd & Hchart & Hday & Hideal); try done; [lia..|].
    rewrite Htotal in Hipd, Hideal. vm_compute in Hipd. injection Hipd as <-.
    exists chart. split_and!; [done| | |].
    + by rewrite <- (length_fmap cp_day), Hday.
    + rewrite <- list_lookup_fmap, Hideal. by vm_compute.
    + rewrite <- list_lookup_fmap, Hideal. by vm_compute.
Qed.

Lemma calculate_burndown_shape_witness :
  (sum_story_points (get_project_tasks burndown_db "alpha") = 0 →
   calculate_burndown 739000 burndown_db "alpha" 5 = Ok [])
  ∧ (sum_story_points (get_project_tasks burndown_db "alpha") ≠ 0 →
     1 ≤ 5 → MINORDINAL ≤ 739000 - 5 →
     ∃ chart,
       calculate_burndown 739000 burndown_db "alpha" 5 = Ok chart
       ∧ length chart = Z.to_nat (5 + 1)
       ∧ cp_day <$> chart = seqZ 0 (5 + 1))
  ∧ (Task.story_points <$> get_project_tasks burndown_db "alpha" = [2; 2; 2] →
     MINORDINAL ≤ 739000 - 5 →
     ∃ chart,
       calculate_burndown 739000 burndown_db "alpha" 5 = Ok chart
       ∧ length chart = 6%nat
       ∧ cp_ideal <$> chart !! 0%nat = Some 6%float
       ∧ cp_ideal <$> chart !! 5%nat = Some 0%float).
Proof.
  apply (calculate_burndown_shape 739000 burndown_db "alpha" 5).
  unfold valid_date, MINORDINAL, MAXORDINAL. lia.
Defined.

(** C7 as the claim states it, [sprint_days + 1] points whenever the total
    is not zero, fails for a sprint of zero days: the three tasks of two
    points give no chart of one point but a division by zero. *)
Lemma calculate_burndown_zero_days :
  sum_story_points (get_project_tasks burndown_db "alpha") = 6
  ∧ calculate_burndown 739000 burndown_db "alpha" 0 = Raise ZeroDivisionError.
Proof. by vm_compute. Qed.

(** C10 (as the code has it).  For every project whose story points do not
    sum to zero, [calculate_burndown] with [sprint_days = 0] raises
    [ZeroDivisionError]: the division by [sprint_days] is not guarded.  A
    task of positive story points is not enough for that, since story points
    are not validated and may cancel out. *)
Theorem calculate_burndown_zero_sprint_days (today : date) (db : Db)
    (project_id : string) :
  valid_date today →
  sum_story_points (get_project_tasks db project_id) ≠ 0 →
  calculate_burndown today db project_id 0 = Raise ZeroDivisionError.
Proof.
  intros Htoday Htotal. unfold calculate_burndown.
  rewrite bool_decide_eq_false_2 by done.
  rewrite date_add_days_valid by (by rewrite Z.add_0_r).
  rewrite bind_Ok_l. unfold int_true_div.
  by rewrite bool_decide_eq_true_2.
Qed.

Lemma calculate_burndown_zero_sprint_days_witness :
  calculate_burndown 739000 burndown_db "alpha" 0 = Raise ZeroDivisionError.
Proof.
  apply (calculate_burndown_zero_sprint_days 739000 burndown_db "alpha").
  - unfold valid_date, MINORDINAL, MAXORDINAL. lia.
  - by vm_compute.
Defined.

(** C10 as it was stated fails: a project with a task of three story points
    and a task of minus three has a task of positive story points, and with
    [sprint_days = 0] it gets the empty chart, not an error. *)
Lemma calculate_burndown_zero_days_cancelling :
  (∃ t, t ∈ get_project_tasks cancel_db "alpha" ∧ 0 < Task.story_points t)
  ∧ calculate_burndown 739000 cancel_db "alpha" 0 = Ok [].
Proof.
  split; [|by vm_compute].
  exists (example_task "plus" 1 3 None []). split; [|done].
  assert (get_project_tasks cancel_db "alpha"
          = [example_task "plus" 1 3 None []; example_task "minus" 1 (-3) None []])
    as -> by (by vm_compute).
  set_solver.
Qed.

(** With no negative story points a task of positive story points makes the
    total positive, and the call raises. *)
Lemma calculate_burndown_zero_sprint_days_positive (today : date) (db : Db)
    (project_id : string) :
  valid_date today →
  (∀ t, t ∈ get_project_tasks db project_id → 0 ≤ Task.story_points t) →
  (∃ t, t ∈ get_project_tasks db project_id ∧ 0 < Task.story_points t) →
  calculate_burndown today db project_id 0 = Raise ZeroDivisionError.
Proof.
  intros Htoday Hnonneg Hpos.
  pose proof (sum_story_points_pos _ Hnonneg Hpos) as Htotal.
  unfold calculate_burndown.
  rewrite bool_decide_eq_false_2 by lia.
  rewrite date_add_days_valid by (by rewrite Z.add_0_r).
  rewrite bind_Ok_l. unfold int_true_div.
  by rewrite bool_decide_eq_true_2.
Qed.

(** ** Deadline alerts *)

Lemma urgency_of_cases (delta : Z) :
  (urgency_of delta = "overdue" ↔ delta < 0)
  ∧ (urgency_of delta = "today" ↔ delta = 0)
  ∧ (urgency_of delta = "upcoming" ↔ 0 < delta).
Proof.
  unfold urgency_of. repeat case_bool_decide; split_and!; split;
    intros; (done || lia).
Qed.

Lemma elem_of_list_projects_active (db : Db) (p : Project.t) :
  p ∈ list_projects db (Some "active")
  ↔ p ∈ projects db ∧ Project.status p = "active".
Proof.
  unfold list_projects. rewrite bool_decide_eq_false_2 by done.
  rewrite sorted_by_key_Permutation, list_elem_of_filter. naive_solver.
Qed.

Lemma project_alert_Some (today days_ahead : Z) (p : Project.t) (a : alert) :
  project_alert today days_ahead p = Some a
  ↔ Project.deadline p - today ≤ days_ahead
    ∧ a = ProjectAlert (Project.id p) (Project.name p) (Project.owner p)
            (Project.deadline p) (Project.deadline p - today)
            (urgency_of (Project.deadline p - today)).
Proof.
  unfold project_alert. case_bool_decide; naive_solver.
Qed.

Lemma task_alert_Some (today horizon : Z) (r : TaskRow.t) (a : alert) :
  task_alert today horizon r = Some a
  ↔ ∃ due, TaskRow.status r ≠ "done" ∧ TaskRow.status r ≠ "blocked"
      ∧ TaskRow.due_date r = Some due ∧ due ≤ horizon
      ∧ a = TaskAlert (TaskRow.id r) (TaskRow.title r) (TaskRow.assignee r)
              due (due - today) (urgency_of (due - today)).
Proof.
  unfold task_alert. case_bool_decide as Hs.
  - destruct (TaskRow.due_date r) as [due|]; [|naive_solver].
    case_bool_decide; naive_solver.
  - naive_solver.
Qed.

(** C8. [check_deadlines] emits a project alert for every active project
    whose deadline lies at most [days_ahead] days after today, overdue ones
    included, and a task alert for every task that is neither done nor
    blocked and is due on or before the horizon, and nothing else; urgency
    is "overdue" below zero days remaining, "today" at zero and "upcoming"
    above; the list is sorted by days remaining, ascending.  The horizon,
    today plus [days_ahead], has to be a day of the calendar. *)
Theorem check_deadlines_alerts (today : date) (db : Db) (days_ahead : Z) :
  valid_date (today + days_ahead) →
  ∃ alerts,
    check_deadlines today db days_ahead = Ok alerts
    ∧ (∀ p, p ∈ projects db → Project.status p = "active" →
         Project.deadline p - today ≤ days_ahead →
         ProjectAlert (Project.id p) (Project.name p) (Project.owner p)
           (Project.deadline p) (Project.deadline p - today)
           (urgency_of (Project.deadline p - today)) ∈ alerts)
    ∧ (∀ r due, r ∈ tasks db →
         TaskRow.status r ≠ "done" → TaskRow.status r ≠ "blocked" →
         TaskRow.due_date r = Some due → due ≤ today + days_ahead →
         TaskAlert (TaskRow.id r) (TaskRow.title r) (TaskRow.assignee r)
           due (due - today) (urgency_of (due - today)) ∈ alerts)
    ∧ (∀ a, a ∈ alerts →
         (∃ p, p ∈ projects db ∧ Project.status p = "active"
               ∧ project_alert today days_ahead p = Some a)
         ∨ (∃ r, r ∈ tasks db
                 ∧ task_alert today (today + days_ahead) r = Some a))
    ∧ (∀ a, a ∈ alerts →
         (alert_urgency a = "overdue" ↔ alert_days_remaining a < 0)
         ∧ (alert_urgency a = "today" ↔ alert_days_remaining a = 0)
         ∧ (alert_urgency a = "upcoming" ↔ 0 < alert_days_remaining a))
    ∧ Sorted (λ a b, alert_days_remaining a ≤ alert_days_remaining b) alerts.
Proof.
  intros Hv. unfold check_deadlines. rewrite (date_add_days_valid _ _ Hv).
  rewrite bind_Ok_l. eexists. split; [done|].
  assert (Hin : ∀ a,
    a ∈ sorted_by_key alert_days_remaining
          (omap (project_alert today days_ahead) (list_projects db (Some "active"))
           ++ omap (task_alert today (today + days_ahead)) (tasks db))
    ↔ (∃ p, p ∈ projects db ∧ Project.status p = "active"
            ∧ project_alert today days_ahead p = Some a)
      ∨ (∃ r, r ∈ tasks db ∧ task_alert today (today + days_ahead) r = Some a)).
  { intros a. rewrite sorted_by_key_Permutation, elem_of_app, !list_elem_of_omap.
    setoid_rewrite elem_of_list_projects_active. naive_solver. }
  split_and!.
  - intros p Hp Hs Hd. apply Hin. left. exists p. split_and!; [done..|].
    by apply project_alert_Some.
  - intros r due Hr Hs1 Hs2 Hdue Hle. apply Hin. right. exists r.
    split; [done|]. apply task_alert_Some. by exists due.
  - intros a Ha. by apply Hin.
  - intros a [(p & _ & _ & [_ ->]%project_alert_Some)
             |(r & _ & (due & _ & _ & _ & _ & ->)%task_alert_Some)]%Hin;
      apply urgency_of_cases.
  - apply sorted_by_key_Sorted.
Qed.

Lemma check_deadlines_alerts_witness :
  ∃ alerts,
    check_deadlines 739000 deadline_db 7 = Ok alerts
    ∧ (∀ p, p ∈ projects deadline_db → Project.status p = "active" →
         Project.deadline p - 739000 ≤ 7 →
         ProjectAlert (Project.id p) (Project.name p) (Project.owner p)
           (Project.deadline p) (Project.deadline p - 739000)
           (urgency_of (Project.deadline p - 739000)) ∈ alerts)
    ∧ (∀ r due, r ∈ tasks deadline_db →
         TaskRow.status r ≠ "done" → TaskRow.status r ≠ "blocked" →
         TaskRow.due_date r = Some due → due ≤ 739000 + 7 →
         TaskAlert (TaskRow.id r) (TaskRow.title r) (TaskRow.assignee r)
           due (due - 739000) (urgency_of (due - 739000)) ∈ alerts)
    ∧ (∀ a, a ∈ alerts →
         (∃ p, p ∈ projects deadline_db ∧ Project.status p = "active"
               ∧ project_alert 739000 7 p = Some a)
         ∨ (∃ r, r ∈ tasks deadline_db
                 ∧ task_alert 739000 (739000 + 7) r = Some a))
    ∧ (∀ a, a ∈ alerts →
         (alert_urgency a = "overdue" ↔ alert_days_remaining a < 0)
         ∧ (alert_urgency a = "today" ↔ alert_days_remaining a = 0)
         ∧ (alert_urgency a = "upcoming" ↔ 0 < alert_days_remaining a))
    ∧ Sorted (λ a b, alert_days_remaining a ≤ alert_days_remaining b) alerts.
Proof.
  apply (check_deadlines_alerts 739000 deadline_db 7).
  unfold valid_date, MINORDINAL, MAXORDINAL. lia.
Defined.

(** The alerts of [test_check_deadlines], with a task that is overdue. *)
Example check_deadlines_example :
  check_deadlines 739000 deadline_db 7
  = Ok [TaskAlert "due" "T" "dev" 738999 (-1) "overdue";
        ProjectAlert "p1" "Urgent" "ed@br.io" 739002 2 "upcoming"].
Proof. by vm_compute. Qed.

(** ** Unknown identifiers *)

Lemma head_filter_None {A} (P : A → Prop) `{∀ x, Decision (P x)} (l : list A) :
  head (filter P l) = None ↔ ∀ x, x ∈ l → ¬ P x.
Proof.
  rewrite head_None. split.
  - intros Hnil x Hx HP.
    assert (x ∈ filter P l) as Hin by (by apply list_elem_of_filter).
    rewrite Hnil in Hin. by apply elem_of_nil in Hin.
  - intros Hall. destruct (filter P l) as [|x l'] eqn:Hf; [done|].
    assert (x ∈ filter P l) as [HP Hx]%list_elem_of_filter
      by (rewrite Hf; set_solver).
    by apply Hall in Hx.
Qed.

Lemma get_project_None (db : Db) (project_id : string) :
  get_project db project_id = None ↔ project_id ∉ Project.id <$> projects db.
Proof.
  unfold get_project. rewrite head_filter_None, list_elem_of_fmap. naive_solver.
Qed.

Lemma get_task_None (db : Db) (task_id : string) :
  get_task db task_id = None ↔ task_id ∉ TaskRow.id <$> tasks db.
Proof.
  unfold get_task.
  destruct (head (filter _ (tasks db))) as [row|] eqn:Hhead.
  - split; [done|]. intros Hnot. exfalso. apply Hnot.
    apply head_Some_elem_of, list_elem_of_filter in Hhead as [<- Hrow].
    by apply list_elem_of_fmap_2.
  - split; [|done]. intros _.
    rewrite head_filter_None in Hhead. rewrite list_elem_of_fmap. naive_solver.
Qed.

(** C9. [export_gantt_csv] raises the not-found error exactly when the
    project id names no stored project, and returns the CSV text otherwise,
    whereas [get_project] and [get_task] answer an unknown id with [None]
    and raise nothing. *)
Theorem export_gantt_csv_not_found (isoformat : Z → string) (db : Db)
    (project_id : string) (fuel : nat) :
  wf_db db →
  (length (get_project_tasks db project_id) ≤ fuel)%nat →
  (export_gantt_csv isoformat fuel db project_id
   = Raise (ValueError (ProjectNotFound project_id))
   ↔ project_id ∉ Project.id <$> projects db)
  ∧ (project_id ∈ Project.id <$> projects db →
     ∃ csv, export_gantt_csv isoformat fuel db project_id = Ok csv)
  ∧ (project_id ∉ Project.id <$> projects db →
     get_project db project_id = None)
  ∧ (∀ task_id, task_id ∉ TaskRow.id <$> tasks db →
       get_task db task_id = None).
Proof.
  intros Hdb Hfuel.
  assert (Hknown : project_id ∈ Project.id <$> projects db →
            ∃ csv, export_gantt_csv isoformat fuel db project_id = Ok csv).
  { intros Hin. unfold export_gantt_csv.
    destruct (get_project db project_id) as [p|] eqn:Hp;
      [|by apply get_project_None in Hp].
    destruct (critical_path_total_tasks (get_project_tasks db project_id) fuel)
      as [cp Hcp]; [by apply get_project_tasks_wf|done|].
    unfold get_critical_path. rewrite Hcp, bind_Ok_l. by eexists. }
  split_and!.
  - split.
    + intros Hraise Hin. destruct (Hknown Hin) as [csv Hcsv]. congruence.
    + intros Hnot. unfold export_gantt_csv.
      by rewrite (proj2 (get_project_None db project_id) Hnot).
  - done.
  - apply get_project_None.
  - intros task_id. apply get_task_None.
Qed.

Lemma wf_db_deadline_db : wf_db deadline_db.
Proof. unfold wf_db. split_and!; apply (bool_decide_unpack _); by vm_compute. Qed.

Lemma export_gantt_csv_not_found_witness :
  (export_gantt_csv (λ d, pretty d) 1 deadline_db "p1"
   = Raise (ValueError (ProjectNotFound "p1"))
   ↔ "p1" ∉ Project.id <$> projects deadline_db)
  ∧ ("p1" ∈ Project.id <$> projects deadline_db →
     ∃ csv, export_gantt_csv (λ d, pretty d) 1 deadline_db "p1" = Ok csv)
  ∧ ("p1" ∉ Project.id <$> projects deadline_db →
     get_project deadline_db "p1" = None)
  ∧ (∀ task_id, task_id ∉ TaskRow.id <$> tasks deadline_db →
       get_task deadline_db task_id = None).
Proof.
  apply (export_gantt_csv_not_found (λ d, pretty d) deadline_db "p1" 1).
  - apply wf_db_deadline_db.
  - vm_compute. lia.
Defined.

(** An unknown project: the export raises, the accessors return [None]. *)
Example unknown_project_example :
  export_gantt_csv (λ d, pretty d) 1 deadline_db "nope"
  = Raise (ValueError (ProjectNotFound "nope"))
  ∧ get_project deadline_db "nope" = None
  ∧ get_task deadline_db "nope" = None.
Proof. by vm_compute. Qed.

(** * Further properties of the entity store *)

(** ** Rows selected by their key *)

Section keyed_rows.
Context {A : Type} (key : A → string).

Lemma filter_key_fresh (k : string) (l : list A) :
  k ∉ key <$> l → filter (λ x, key x = k) l = [].
Proof.
  intros Hk. induction l as [|x l IH]; [done|].
  rewrite fmap_cons in Hk. apply not_elem_of_cons in Hk as [Hx Hl].
  rewrite filter_cons, decide_False by done. auto.
Qed.

Lemma filter_key_fmap_other (f : A → A) (k other : string) (l : list A) :
  (∀ x, key (f x) = key x) → (∀ x, key x ≠ k → f x = x) → other ≠ k →
  filter (λ x, key x = other) (f <$> l) = filter (λ x, key x = other) l.
Proof.
  intros Hkey Hid Hne. induction l as [|x l IH]; [done|].
  rewrite fmap_cons, !filter_cons, IH, Hkey.
  case_decide as Hx; [|done]. rewrite Hid; [done|]. by rewrite Hx.
Qed.

Lemma filter_key_fmap_same (f : A → A) (k : string) (l : list A) :
  (∀ x, key (f x) = key x) →
  filter (λ x, key x = k) (f <$> l) = f <$> filter (λ x, key x = k) l.
Proof.
  intros Hkey. induction l as [|x l IH]; [done|].
  rewrite fmap_cons, !filter_cons, IH, Hkey. by case_decide.
Qed.

Lemma fmap_update_fresh (f : A → A) (k : string) (l : list A) :
  (∀ x, key x ≠ k → f x = x) → k ∉ key <$> l → f <$> l = l.
Proof.
  intros Hid Hk. induction l as [|x l IH]; [done|].
  rewrite fmap_cons in Hk. apply not_elem_of_cons in Hk as [Hx Hl].
  rewrite fmap_cons, IH by done. f_equal. apply Hid. congruence.
Qed.
End keyed_rows.

Lemma elem_of_select_depends_on (db : Db) (task_id d : string) :
  d ∈ select_depends_on db task_id ↔ (task_id, d) ∈ dependencies db.
Proof.
  unfold select_depends_on.
  rewrite stable_sort_Permutation, list_elem_of_fmap. split.
  - intros ([a b] & -> & [Ha Hin]%list_elem_of_filter). simpl in *. by subst.
  - intros Hin. exists (task_id, d). split; [done|].
    by apply list_elem_of_filter.
Qed.

Lemma elem_of_insert_or_ignore (deps : list (string * string))
    (a b : string) (e : string * string) :
  e ∈ insert_or_ignore deps a b ↔ e ∈ deps ∨ e = (a, b).
Proof.
  unfold insert_or_ignore. case_bool_decide as Hin.
  - split; [auto|]. by intros [?| ->].
  - rewrite elem_of_app, list_elem_of_singleton. done.
Qed.

Lemma elem_of_insert_edges (deps : list (string * string)) (a : string)
    (ds : list string) (e : string * string) :
  e ∈ foldl (λ deps dep, insert_or_ignore deps a dep) deps ds
  ↔ e ∈ deps ∨ ∃ d, d ∈ ds ∧ e = (a, d).
Proof.
  revert deps. induction ds as [|d ds IH]; intros deps; simpl.
  - split; [auto|]. intros [?|(d & ?%elem_of_nil & _)]; done.
  - rewrite IH, elem_of_insert_or_ignore. split.
    + intros [[?| ->]|(d' & Hd' & ->)]; [auto|right; exists d|right; exists d'];
        set_solver.
    + intros [?|(d' & [->|Hd']%elem_of_cons & ->)]; [auto|auto|].
      right. by exists d'.
Qed.

Lemma insert_edges_NoDup (deps : list (string * string)) (a : string)
    (ds : list string) :
  NoDup deps → NoDup (foldl (λ deps dep, insert_or_ignore deps a dep) deps ds).
Proof.
  revert deps. induction ds as [|d ds IH]; intros deps Hd; simpl; [done|].
  by apply IH, insert_or_ignore_NoDup.
Qed.

(** ** Projects *)

(** X1.  [create_project] and [get_project] round-trip: a fresh identifier gives
    an active project that [get_project] returns as it was built, every
    other identifier resolves as before, and no task or dependency is
    touched; an identifier already in use is refused by the primary key. *)
Theorem create_project_get_project (new_id : string) (now : datetime)
    (name owner : string) (deadline : date) (description : string) (db : Db) :
  (new_id ∈ Project.id <$> projects db →
   create_project new_id now name owner deadline description db
   = Raise IntegrityError)
  ∧ (new_id ∉ Project.id <$> projects db →
     ∃ db',
       create_project new_id now name owner deadline description db
       = Ok (db', Project.mk name owner deadline new_id "active" description now)
       ∧ get_project db' new_id
         = Some (Project.mk name owner deadline new_id "active" description now)
       ∧ (∀ other, other ≠ new_id →
            get_project db' other = get_project db other)
       ∧ tasks db' = tasks db ∧ dependencies db' = dependencies db).
Proof.
  unfold create_project. split; intros Hid.
  - by rewrite bool_decide_eq_true_2.
  - rewrite bool_decide_eq_false_2 by done. eexists. split; [done|].
    unfold get_project. simpl. split_and!; [|intros other Hne|done..].
    + rewrite filter_app, (filter_key_fresh Project.id) by done.
      rewrite filter_cons, decide_True by done. done.
    + rewrite filter_app, filter_cons, decide_False by (simpl; congruence).
      by rewrite filter_nil, app_nil_r.
Qed.

(** X2.  [update_project_status] answers [True] exactly for a stored
    project.  The project then reads with the status it was given, whatever
    it is, and with its name, owner, deadline, id, description and creation
    time as before; every other project reads as before, and an unknown
    identifier leaves the store as it was. *)
Theorem update_project_status_effect (db : Db) (project_id status : string) :
  ((update_project_status db project_id status).2 = true
   ↔ project_id ∈ Project.id <$> projects db)
  ∧ (∀ p, get_project db project_id = Some p →
       get_project (update_project_status db project_id status).1 project_id
       = Some (Project.mk (Project.name p) (Project.owner p)
                 (Project.deadline p) (Project.id p) status
                 (Project.description p) (Project.created_at p)))
  ∧ (∀ other, other ≠ project_id →
       get_project (update_project_status db project_id status).1 other
       = get_project db other)
  ∧ (project_id ∉ Project.id <$> projects db →
     (update_project_status db project_id status).1 = db).
Proof.
  set (f := λ p, if bool_decide (Project.id p = project_id)
                 then set_project_status status p else p).
  assert (Hkey : ∀ p, Project.id (f p) = Project.id p)
    by (intros p; unfold f; by case_bool_decide).
  assert (Hid : ∀ p, Project.id p ≠ project_id → f p = p)
    by (intros p Hp; unfold f; by rewrite bool_decide_eq_false_2).
  split_and!.
  - simpl. apply bool_decide_eq_true.
  - intros p0. unfold get_project. simpl. fold f.
    rewrite (filter_key_fmap_same Project.id) by done.
    destruct (filter _ (projects db)) as [|p l] eqn:Hf; [done|]. simpl.
    intros [= ->]. f_equal. unfold f. rewrite bool_decide_eq_true_2; [done|].
    assert (p0 ∈ filter (λ x, Project.id x = project_id) (projects db)) as Hp
      by (rewrite Hf; set_solver).
    by apply list_elem_of_filter in Hp as [? _].
  - intros other Hne. unfold get_project. simpl. fold f.
    by rewrite (filter_key_fmap_other Project.id f project_id).
  - intros Hfresh. unfold update_project_status. simpl. fold f.
    rewrite (fmap_update_fresh Project.id f project_id) by done.
    by destruct db.
Qed.

(** ** Tasks *)

Lemma task_to_row_to_task (row : TaskRow.t) (deps : list string) :
  task_to_row (_row_to_task row deps) = row.
Proof. by destruct row. Qed.

Lemma filter_insert_edges_other (deps : list (string * string)) (a other : string)
    (ds : list string) :
  other ≠ a →
  filter (λ e, e.1 = other) (foldl (λ deps dep, insert_or_ignore deps a dep) deps ds)
  = filter (λ e, e.1 = other) deps.
Proof.
  intros Hne. revert deps. induction ds as [|d ds IH]; intros deps; simpl; [done|].
  rewrite IH. unfold insert_or_ignore. case_bool_decide; [done|].
  rewrite filter_app, filter_cons, decide_False by (simpl; congruence).
  by rewrite filter_nil, app_nil_r.
Qed.

(** X3.  [add_task] and [get_task] round-trip.  A task whose integers fit the
    store and whose id is new is stored and read back with every field as it
    was given; its dependency list comes back as the set of the listed ids,
    joined with the edges the store already held for that id, each of them
    once; every other task reads as before.  An id in use is refused by the
    primary key, an integer beyond 64 bits by the binding. *)
Theorem add_task_get_task (task : Task.t) (db : Db) :
  (fits_int64 (Task.priority task) && fits_int64 (Task.story_points task) = false →
   add_task task db = Raise OverflowError)
  ∧ (fits_int64 (Task.priority task) && fits_int64 (Task.story_points task) = true →
     Task.id task ∈ TaskRow.id <$> tasks db →
     add_task task db = Raise IntegrityError)
  ∧ (fits_int64 (Task.priority task) && fits_int64 (Task.story_points task) = true →
     Task.id task ∉ TaskRow.id <$> tasks db →
     ∃ db' t',
       add_task task db = Ok (db', task)
       ∧ get_task db' (Task.id task) = Some t'
       ∧ task_to_row t' = task_to_row task
       ∧ (∀ d, d ∈ Task.dependencies t'
               ↔ d ∈ Task.dependencies task ∨ (Task.id task, d) ∈ dependencies db)
       ∧ (NoDup (dependencies db) → NoDup (Task.dependencies t'))
       ∧ (∀ other, other ≠ Task.id task →
            get_task db' other = get_task db other)
       ∧ projects db' = projects db).
Proof.
  unfold add_task. split_and!.
  - by intros ->.
  - intros -> Hin. simpl. by rewrite bool_decide_eq_true_2.
  - intros -> Hfresh. simpl. rewrite bool_decide_eq_false_2 by done.
    set (db' := mk_db _ _ _).
    assert (Hget : get_task db' (Task.id task)
              = Some (_row_to_task (task_to_row task)
                        (select_depends_on db' (Task.id task)))).
    { unfold get_task. simpl.
      rewrite filter_app, (filter_key_fresh TaskRow.id) by done.
      by rewrite filter_cons, decide_True. }
    exists db', (_row_to_task (task_to_row task)
                   (select_depends_on db' (Task.id task))).
    split_and!; [done|done|apply task_to_row_to_task| | | |done].
    + intros d. simpl. rewrite elem_of_select_depends_on. simpl.
      rewrite elem_of_insert_edges. split.
      * intros [?|(d' & Hd' & [= ->])]; auto.
      * intros [?|?]; [right; by exists d|by left].
    + intros Hnd. simpl. apply select_depends_on_NoDup. simpl.
      by apply insert_edges_NoDup.
    + intros other Hne. unfold get_task, select_depends_on. simpl.
      rewrite filter_app, filter_cons, decide_False by (simpl; congruence).
      rewrite filter_nil, app_nil_r.
      by rewrite filter_insert_edges_other.
Qed.

(** X4.  [update_task_status] answers [True] exactly for a stored task.  The
    task then reads with the status it was given and with the completion
    time [now] for "done" and none for any other status; its project, title,
    assignee, priority, id, due date, story points, dependencies and
    creation time read as before, as does every other task, and an unknown
    id leaves the store as it was. *)
Theorem update_task_status_effect (now : datetime) (db : Db)
    (task_id status : string) :
  ((update_task_status now db task_id status).2 = true
   ↔ task_id ∈ TaskRow.id <$> tasks db)
  ∧ (∀ t, get_task db task_id = Some t →
       get_task (update_task_status now db task_id status).1 task_id
       = Some (Task.mk (Task.project_id t) (Task.title t) (Task.assignee t)
                 (Task.priority t) (Task.id t) status (Task.due_date t)
                 (Task.story_points t) (Task.dependencies t)
                 (if bool_decide (status = "done") then Some now else None)
                 (Task.created_at t)))
  ∧ (∀ other, other ≠ task_id →
       get_task (update_task_status now db task_id status).1 other
       = get_task db other)
  ∧ (task_id ∉ TaskRow.id <$> tasks db →
     (update_task_status now db task_id status).1 = db).
Proof.
  set (c := if bool_decide (status = "done") then Some now else None).
  set (f := λ r, if bool_decide (TaskRow.id r = task_id)
                 then set_task_status status c r else r).
  assert (Hkey : ∀ r, TaskRow.id (f r) = TaskRow.id r)
    by (intros r; unfold f; by case_bool_decide).
  assert (Hid : ∀ r, TaskRow.id r ≠ task_id → f r = r)
    by (intros r Hr; unfold f; by rewrite bool_decide_eq_false_2).
  assert (Hhead : head (filter (λ r, TaskRow.id r = task_id) (f <$> tasks db))
            = set_task_status status c
              <$> head (filter (λ r, TaskRow.id r = task_id) (tasks db))).
  { rewrite (filter_key_fmap_same TaskRow.id) by done.
    destruct (filter _ (tasks db)) as [|r l] eqn:Hf; [done|]. simpl.
    f_equal. unfold f. rewrite bool_decide_eq_true_2; [done|].
    assert (r ∈ filter (λ x, TaskRow.id x = task_id) (tasks db)) as Hr
      by (rewrite Hf; set_solver).
    by apply list_elem_of_filter in Hr as [? _]. }
  split_and!.
  - simpl. apply bool_decide_eq_true.
  - intros t. unfold get_task. simpl. fold c. fold f. rewrite Hhead.
    destruct (head (filter _ (tasks db))) as [r|]; [|done]. simpl.
    by intros [= <-].
  - intros other Hne. unfold get_task. simpl. fold c. fold f.
    by rewrite (filter_key_fmap_other TaskRow.id f task_id).
  - intros Hfresh. unfold update_task_status. simpl. fold c. fold f.
    rewrite (fmap_update_fresh TaskRow.id f task_id) by done.
    by destruct db.
Qed.

(** X5.  [add_dependency] is idempotent and checks nothing: the edge is stored
    whether or not its ends are tasks, a second insertion changes nothing,
    the dependencies read for a task afterwards are the old ones and the new
    edge, and no row of a task or project is touched. *)
Theorem add_dependency_idempotent (db : Db) (task_id depends_on : string) :
  add_dependency (add_dependency db task_id depends_on) task_id depends_on
  = add_dependency db task_id depends_on
  ∧ (∀ t d, d ∈ select_depends_on (add_dependency db task_id depends_on) t
            ↔ d ∈ select_depends_on db t ∨ (t = task_id ∧ d = depends_on))
  ∧ (∀ t, task_to_row <$> get_task (add_dependency db task_id depends_on) t
          = task_to_row <$> get_task db t)
  ∧ (∀ t, get_task db task_id = Some t →
          ∃ t', get_task (add_dependency db task_id depends_on) task_id = Some t'
                ∧ depends_on ∈ Task.dependencies t')
  ∧ tasks (add_dependency db task_id depends_on) = tasks db
  ∧ projects (add_dependency db task_id depends_on) = projects db.
Proof.
  split_and!; [| | | |done..].
  - unfold add_dependency. simpl. f_equal.
    unfold insert_or_ignore at 1. rewrite bool_decide_eq_true_2; [done|].
    apply elem_of_insert_or_ignore. by right.
  - intros t d. rewrite !elem_of_select_depends_on. simpl.
    rewrite elem_of_insert_or_ignore. naive_solver.
  - intros t. unfold get_task. simpl.
    destruct (head _) as [r|]; [|done]. simpl. by rewrite !task_to_row_to_task.
  - intros t Ht. unfold get_task in *. simpl.
    destruct (head _) as [r|]; [|done]. eexists. split; [done|]. simpl.
    apply elem_of_select_depends_on. simpl.
    apply elem_of_insert_or_ignore. by right.
Qed.

(** ** The primary keys over every sequence of calls *)

Lemma wf_db_create_project (new_id : string) (now : datetime)
    (name owner : string) (deadline : date) (description : string)
    (db db' : Db) (p : Project.t) :
  wf_db db →
  create_project new_id now name owner deadline description db = Ok (db', p) →
  wf_db db'.
Proof.
  intros (Hp & Ht & Hd). unfold create_project.
  case_bool_decide as Hin; [done|]. intros [= <- <-].
  split_and!; simpl; [|done..].
  rewrite fmap_app. apply NoDup_app. split_and!; [done| |apply NoDup_singleton].
  intros x Hx ->%list_elem_of_singleton. done.
Qed.

Lemma wf_db_update_project_status (db : Db) (project_id status : string) :
  wf_db db → wf_db (update_project_status db project_id status).1.
Proof.
  intros (Hp & Ht & Hd). split_and!; simpl; [|done..].
  rewrite <- list_fmap_compose.
  erewrite list_fmap_ext; [exact Hp|]. intros i p _. simpl.
  by case_bool_decide.
Qed.

Lemma wf_db_run_call (db : Db) (c : api_call) :
  wf_db db → wf_db (run_call db c).
Proof.
  intros Hdb. destruct c; simpl.
  - destruct (create_project _ _ _ _ _ _ db) as [[db' p]| |] eqn:Hc; [|done..].
    by eapply wf_db_create_project.
  - by apply wf_db_update_project_status.
  - destruct (add_task task db) as [[db' t']| |] eqn:Ha; [|done..].
    by eapply wf_db_add_task.
  - by apply wf_db_update_task_status.
  - by apply wf_db_add_dependency.
Qed.

(** X6.  Every store reached from the empty database through the calls of the
    API keeps its primary keys: no two projects and no two tasks share an
    id, and no dependency edge is stored twice. *)
Theorem reachable_store_keeps_primary_keys (calls : list api_call) :
  wf_db (run_calls calls empty_db).
Proof.
  unfold run_calls. generalize wf_db_empty. generalize empty_db.
  induction calls as [|c calls IH]; intros db Hdb; [done|].
  simpl. by apply IH, wf_db_run_call.
Qed.

(** ** Listing projects *)

(** X7.  [list_projects] returns its projects by ascending deadline.  With a
    non-empty status these are exactly the projects of that status; without
    a status, or with the empty string, they are all the projects. *)
Theorem list_projects_filter_and_order (db : Db) (status : option string) :
  Sorted (λ p q, Project.deadline p ≤ Project.deadline q)
    (list_projects db status)
  ∧ (∀ s, status = Some s → s ≠ "" →
       list_projects db status
       ≡ₚ filter (λ p, Project.status p = s) (projects db))
  ∧ (status = None ∨ status = Some "" →
     list_projects db status ≡ₚ projects db)
  ∧ ∀ d, filter (λ p, Project.deadline p = d) (list_projects db status)
         = filter (λ p, Project.deadline p = d)
             (match status with
              | Some s =>
                  if bool_decide (s = "") then projects db
                  else filter (λ p, Project.status p = s) (projects db)
              | None => projects db
              end).
Proof.
  unfold list_projects. split_and!.
  - apply sorted_by_key_Sorted.
  - intros s -> Hs. rewrite bool_decide_eq_false_2 by done.
    apply sorted_by_key_Permutation.
  - intros [->| ->]; apply sorted_by_key_Permutation.
  - intros d. apply sorted_by_key_stable.
Qed.

(** ** Statistics *)

Lemma py_round_digits_2 (x : float) : py_round_digits 2 x = py_round2 x.
Proof. done. Qed.

Lemma length_filter_le {A} (P : A → Prop) `{∀ x, Decision (P x)} (l : list A) :
  (length (filter P l) ≤ length l)%nat.
Proof. apply sublist_length, sublist_filter. Qed.

Lemma add_assignee_points_lookup (tasks : list Task.t)
    (m : gmap string Z) (a : string) :
  default 0 (foldl add_assignee_points m tasks !! a)
  = default 0 (m !! a)
    + sum_story_points (filter (λ t, Task.assignee t = a) tasks).
Proof.
  revert m. induction tasks as [|t tasks IH]; intros m.
  - unfold sum_story_points. simpl. lia.
  - simpl. rewrite IH, filter_cons. unfold add_assignee_points.
    rewrite lookup_insert. case_decide as Ha.
    + subst a. simpl.
      change (sum_story_points (t :: ?l))
        with (Task.story_points t + sum_story_points l). lia.
    + done.
Qed.

Lemma add_assignee_points_is_Some (tasks : list Task.t)
    (m : gmap string Z) (a : string) :
  is_Some (foldl add_assignee_points m tasks !! a)
  ↔ is_Some (m !! a) ∨ a ∈ Task.assignee <$> tasks.
Proof.
  revert m. induction tasks as [|t tasks IH]; intros m; simpl.
  - split; [auto|]. intros [?|?%elem_of_nil]; done.
  - rewrite IH. unfold add_assignee_points. rewrite lookup_insert.
    case_decide as Ha.
    + subst a. split; [intros _; right; set_solver|by intros _; left].
    + rewrite elem_of_cons. naive_solver.
Qed.

(** X8.  [get_project_stats] never raises: the division behind [pct_done] is
    guarded, and a project without tasks gets the integer 0.  The counts are
    those of the project's tasks, and there are never more done tasks than
    tasks. *)
Theorem get_project_stats_total (db : Db) (project_id : string) :
  ∃ s,
    get_project_stats db project_id = Ok s
    ∧ total_tasks s = Z.of_nat (length (get_project_tasks db project_id))
    ∧ done_tasks s
      = Z.of_nat (length (filter (λ t, Task.status t = "done")
                            (get_project_tasks db project_id)))
    ∧ 0 ≤ done_tasks s ≤ total_tasks s
    ∧ total_story_points s = sum_story_points (get_project_tasks db project_id)
    ∧ done_story_points s
      = sum_story_points (filter (λ t, Task.status t = "done")
                            (get_project_tasks db project_id))
    ∧ (get_project_tasks db project_id = [] →
       s = mk_stats 0 0 (PyInt 0) 0 0 ∅)
    ∧ (get_project_tasks db project_id ≠ [] →
       ∃ x, pct_done s = PyFloat x).
Proof.
  unfold get_project_stats.
  set (tasks := get_project_tasks db project_id).
  assert (Hdone : filter (λ t, Task.is_done t = true) tasks
                  = filter (λ t, Task.status t = "done") tasks).
  { apply list_filter_iff. intros t. unfold Task.is_done.
    by rewrite bool_decide_eq_true. }
  rewrite !Hdone.
  destruct tasks as [|t ts] eqn:Htasks.
  - eexists. simpl. split; [done|]. simpl. split_and!; try done.
  - rewrite bool_decide_eq_false_2 by (simpl; lia).
    unfold int_true_div. rewrite bool_decide_eq_false_2 by (simpl; lia).
    rewrite !bind_Ok_l. eexists. split; [done|].
    simpl total_tasks. simpl done_tasks. simpl total_story_points.
    simpl done_story_points. simpl pct_done.
    split_and!; try done; try lia.
    + change (S (length ts)) with (length (t :: ts)).
      apply Nat2Z.inj_le, length_filter_le.
    + intros _. by eexists.
Qed.

(** X9.  [by_assignee] has an entry exactly for the assignees of the project's
    tasks, and the entry is the sum of the story points of that assignee's
    tasks, whatever their status. *)
Theorem get_project_stats_by_assignee (db : Db) (project_id : string)
    (s : project_stats) (a : string) :
  get_project_stats db project_id = Ok s →
  (is_Some (by_assignee s !! a)
   ↔ a ∈ Task.assignee <$> get_project_tasks db project_id)
  ∧ default 0 (by_assignee s !! a)
    = sum_story_points (filter (λ t, Task.assignee t = a)
                          (get_project_tasks db project_id)).
Proof.
  unfold get_project_stats.
  destruct (if bool_decide _ then _ else _) as [pct| |]; [|done..].
  rewrite bind_Ok_l. intros [= <-]. simpl. split.
  - rewrite add_assignee_points_is_Some, lookup_empty.
    split; [intros [[? ?]|?]; done|auto].
  - by rewrite add_assignee_points_lookup, lookup_empty.
Qed.

Lemma get_project_stats_by_assignee_witness :
  (is_Some (by_assignee
              (mk_stats 2 1 (PyFloat 50) 6 4 {["a" := 4; "b" := 2]}) !! "a")
   ↔ "a" ∈ Task.assignee <$> get_project_tasks stats_db "alpha")
  ∧ default 0 (by_assignee
                 (mk_stats 2 1 (PyFloat 50) 6 4 {["a" := 4; "b" := 2]}) !! "a")
    = sum_story_points (filter (λ t, Task.assignee t = "a")
                          (get_project_tasks stats_db "alpha")).
Proof.
  apply (get_project_stats_by_assignee stats_db "alpha").
  by vm_compute.
Defined.

(** The numbers of [test_project_stats]. *)
Example get_project_stats_example :
  get_project_stats stats_db "alpha"
  = Ok (mk_stats 2 1 (PyFloat 50) 6 4 {["a" := 4; "b" := 2]}).
Proof. by vm_compute. Qed.

(** * Further properties of the critical path *)

Lemma filter_all {A} (P : A → Prop) `{∀ x, Decision (P x)} (l : list A) :
  (∀ x, x ∈ l → P x) → filter P l = l.
Proof.
  induction l as [|x l IH]; intros HP; [done|].
  rewrite filter_cons, decide_True by (apply HP; set_solver).
  f_equal. apply IH. intros. apply HP. set_solver.
Qed.

Lemma filter_none {A} (P : A → Prop) `{∀ x, Decision (P x)} (l : list A) :
  (∀ x, x ∈ l → ¬ P x) → filter P l = [].
Proof.
  induction l as [|x l IH]; intros HP; [done|].
  rewrite filter_cons, decide_False by (apply HP; set_solver).
  apply IH. intros. apply HP. set_solver.
Qed.

Lemma dep_chain_elem (tasks : list Task.t) (l : list Task.t) :
  dep_chain tasks l → ∀ t, t ∈ l → t ∈ tasks.
Proof.
  induction 1 as [t Ht|a b l Ha Hab Hbl IH]; intros x Hx.
  - by apply list_elem_of_singleton in Hx as ->.
  - apply elem_of_cons in Hx as [->|Hx]; auto.
Qed.

Lemma dep_chain_tc (tasks : list Task.t) (a : Task.t) (l : list Task.t) :
  dep_chain tasks (a :: l) →
  ∀ b, b ∈ l → tc (dep_edge tasks) (Task.id a) (Task.id b).
Proof.
  revert a. induction l as [|b l IH]; intros a Hchain x Hx.
  - by apply elem_of_nil in Hx.
  - inversion Hchain as [|a' b' l' Ha Hab Hbl]; subst.
    assert (Hedge : dep_edge tasks (Task.id a) (Task.id b)).
    { apply dep_edge_intro; [by eapply dep_chain_head|done|].
      unfold task_ids. by apply list_elem_of_fmap_2. }
    apply elem_of_cons in Hx as [->|Hx]; [by apply tc_once|].
    eapply tc_l; [exact Hedge|]. by apply IH.
Qed.

(** A chain of an acyclic list meets no task twice. *)
Lemma dep_chain_NoDup (tasks : list Task.t) (l : list Task.t) :
  acyclic tasks → dep_chain tasks l → NoDup (Task.id <$> l).
Proof.
  intros Hacyc. induction 1 as [t Ht|a b l Ha Hab Hbl IH].
  - apply NoDup_singleton.
  - rewrite fmap_cons. apply NoDup_cons. split; [|done].
    intros (x & Heq & Hx)%list_elem_of_fmap. apply Hacyc. exists (Task.id a).
    rewrite Heq at 2. eapply dep_chain_tc; [|exact Hx].
    by apply chain_cons.
Qed.

(** When every task was emitted, the result is a chain and no chain weighs
    more, whatever the weights are. *)
Lemma critical_path_complete_chain (tasks : list Task.t) (fuel : nat)
    (g : graph) (st : Kahn.state) :
  wf_tasks tasks → tasks ≠ [] → (length tasks ≤ fuel)%nat →
  build_graph tasks = Ok g →
  kahn_loop fuel (by_id_of tasks) (g_children g) (kahn_init tasks g) = Ok st →
  kahn_inv tasks st → Kahn.queue st = [] →
  length (Kahn.topo_order st) = length tasks →
  ∃ path,
    critical_path fuel tasks = Ok path
    ∧ dep_chain tasks path
    ∧ ∀ l, dep_chain tasks l → sum_story_points l ≤ sum_story_points path.
Proof.
  intros Hwf Hne Hfuel Hg Hst Hinv Hq Hlen.
  destruct (critical_path_complete_tasks tasks fuel g st)
    as (end_id & l & ts & Hts & Hend & Hmax & Hchain & Hll & Hids); try done.
  pose proof (exit_ids tasks Hwf st Hinv Hq end_id Hend) as Hendid.
  destruct (back_chain_forward tasks Hwf st Hinv Hq Hlen end_id l Hchain Hendid)
    as (ts' & t & r & Hts' & Hdc & Ht & Hlast & Hhead & Hr & Hrp & Hsum & Hlen').
  rewrite Hids in Hts'. injection Hts' as <-.
  pose proof (proj1 (exit_complete tasks Hwf st Hinv Hq) Hlen) as Hall.
  assert (Hid : ∀ u, u ∈ tasks → Task.id u ∈ task_ids tasks)
    by (intros; unfold task_ids; by apply list_elem_of_fmap_2).
  exists ts. split_and!; [done..|]. intros l' Hl'.
  destruct (dep_chain_nonempty _ _ Hl') as (a & Ha & Hain).
  assert (∃ z, last l' = Some z) as [z Hz].
  { destruct l' as [|x l'] using rev_ind; [done|]. exists x. by rewrite last_snoc. }
  assert (z ∈ tasks) as Hzin.
  { eapply dep_chain_elem; [exact Hl'|]. by apply last_Some_elem_of. }
  pose proof (chain_weight_le tasks Hwf st Hinv Hq Hlen l' Hl' a z Ha Hz).
  pose proof (complete_nonneg tasks Hwf st Hinv Hq Hlen (Task.id a) (Hid a Hain)).
  pose proof (Hmax (Task.id z) (Hall _ (Hid z Hzin))). lia.
Qed.

(** X10.  For a project whose dependencies have no cycle, [get_critical_path]
    returns a chain of the project's tasks in execution order, every task
    listed among the dependencies of the next one and none of them met
    twice, and no chain of dependent tasks has more story points in total.
    This holds for all story points, zero and negative ones included. *)
Theorem critical_path_is_heaviest_chain (db : Db) (project_id : string)
    (fuel : nat) :
  wf_db db →
  acyclic (get_project_tasks db project_id) →
  get_project_tasks db project_id ≠ [] →
  (length (get_project_tasks db project_id) ≤ fuel)%nat →
  ∃ path,
    get_critical_path fuel db project_id = Ok path
    ∧ dep_chain (get_project_tasks db project_id) path
    ∧ NoDup (Task.id <$> path)
    ∧ ∀ l, dep_chain (get_project_tasks db project_id) l →
           sum_story_points l ≤ sum_story_points path.
Proof.
  intros Hdb Hacyc Hne Hfuel. unfold get_critical_path.
  pose proof (get_project_tasks_wf db project_id Hdb) as Hwf.
  destruct (kahn_run _ fuel Hwf Hfuel) as (g & st & Hg & Hst & Hinv & Hq).
  pose proof (exit_acyclic _ Hwf st Hinv Hq Hacyc) as Hlen.
  destruct (critical_path_complete_chain (get_project_tasks db project_id)
              fuel g st) as (path & Hpath & Hchain & Hmax); try done.
  exists path. split_and!; [done..| |done]. by eapply dep_chain_NoDup.
Qed.

Lemma critical_path_is_heaviest_chain_witness :
  ∃ path,
    get_critical_path 3 zero_chain_db "alpha" = Ok path
    ∧ dep_chain (get_project_tasks zero_chain_db "alpha") path
    ∧ NoDup (Task.id <$> path)
    ∧ ∀ l, dep_chain (get_project_tasks zero_chain_db "alpha") l →
           sum_story_points l ≤ sum_story_points path.
Proof.
  apply (critical_path_is_heaviest_chain zero_chain_db "alpha" 3).
  - apply wf_db_store_of.
  - apply (acyclic_of_rank _
             (λ i, if decide (i = "t1") then 0 else if decide (i = "t2") then 1 else 2)%nat).
    vm_compute. repeat constructor.
  - by vm_compute.
  - vm_compute. lia.
Defined.

(** X11.  Whatever the dependencies look like, [get_critical_path] returns tasks
    of the project only and no task twice, and its result is empty exactly
    for a project without tasks, an unknown project among them. *)
Theorem critical_path_result_shape (db : Db) (project_id : string)
    (fuel : nat) :
  wf_db db →
  (length (get_project_tasks db project_id) ≤ fuel)%nat →
  ∃ path,
    get_critical_path fuel db project_id = Ok path
    ∧ (∀ t, t ∈ path → t ∈ get_project_tasks db project_id)
    ∧ NoDup (Task.id <$> path)
    ∧ (path = [] ↔ get_project_tasks db project_id = [])
    ∧ ((∀ r, r ∈ tasks db → TaskRow.project_id r ≠ project_id) → path = []).
Proof.
  intros Hdb Hfuel. unfold get_critical_path.
  pose proof (get_project_tasks_wf db project_id Hdb) as Hwf.
  assert (Hnone : (∀ r, r ∈ tasks db → TaskRow.project_id r ≠ project_id) →
                  get_project_tasks db project_id = []).
  { intros Hno. apply length_zero_iff_nil. unfold get_project_tasks.
    rewrite length_fmap, stable_sort_Permutation.
    apply length_zero_iff_nil, filter_none. auto. }
  destruct (decide (get_project_tasks db project_id = [])) as [Hnil|Hne].
  { rewrite Hnil. exists [].
    split_and!; try done; try (by intros ? ?%elem_of_nil); apply NoDup_nil_2. }
  destruct (kahn_run _ fuel Hwf Hfuel) as (g & st & Hg & Hst & Hinv & Hq).
  destruct (decide (length (Kahn.topo_order st)
                    = length (get_project_tasks db project_id))) as [Hlen|Hlen].
  - destruct (critical_path_complete_chain (get_project_tasks db project_id)
                fuel g st) as (path & Hpath & Hchain & _); try done.
    assert (Hacyc : acyclic (get_project_tasks db project_id)).
    { intros Hcyc. by apply (exit_cyclic _ Hwf st Hinv Hq Hcyc). }
    exists path. split_and!; [done| | | |].
    + by apply dep_chain_elem.
    + by eapply dep_chain_NoDup.
    + split; [|done]. intros ->. by destruct (dep_chain_nonempty _ _ Hchain) as (? & ? & _).
    + intros Hno. by destruct Hne; apply Hnone.
  - rewrite (critical_path_unfold _ fuel g st) by done.
    rewrite bool_decide_eq_true_2 by done. eexists. split; [done|].
    split_and!.
    + intros t. by rewrite sorted_by_key_Permutation.
    + rewrite sorted_by_key_Permutation. apply Hwf.
    + split; [|done]. intros Hnil. apply Permutation_nil.
      by rewrite <- Hnil, sorted_by_key_Permutation.
    + intros Hno. by destruct Hne; apply Hnone.
Qed.

Lemma critical_path_result_shape_witness :
  ∃ path,
    get_critical_path 2 cycle_db "alpha" = Ok path
    ∧ (∀ t, t ∈ path → t ∈ get_project_tasks cycle_db "alpha")
    ∧ NoDup (Task.id <$> path)
    ∧ (path = [] ↔ get_project_tasks cycle_db "alpha" = [])
    ∧ ((∀ r, r ∈ tasks cycle_db → TaskRow.project_id r ≠ "alpha") → path = []).
Proof.
  apply (critical_path_result_shape cycle_db "alpha" 2).
  - apply wf_db_add_dependency, wf_db_store_of.
  - vm_compute. lia.
Defined.

(** ** Tasks without dependencies *)

Lemma max_from_keep (key : string → result Z) (f : string → Z)
    (l : list string) (best : string) (kbest : Z) :
  (∀ x, x ∈ l → key x = Ok (f x)) → (∀ x, x ∈ l → f x ≤ kbest) →
  max_from key best kbest l = Ok best.
Proof.
  induction l as [|x l IH]; intros Hkey Hle; [done|].
  simpl. rewrite Hkey by set_solver. simpl.
  assert (f x ≤ kbest) by (apply Hle; set_solver).
  rewrite bool_decide_eq_false_2 by lia.
  apply IH; intros; [apply Hkey|apply Hle]; set_solver.
Qed.

Lemma max_from_first (key : string → result Z) (f : string → Z)
    (pre post : list string) (m best : string) (kbest : Z) :
  (∀ x, x ∈ pre ++ m :: post → key x = Ok (f x)) →
  kbest < f m → (∀ x, x ∈ pre → f x < f m) → (∀ x, x ∈ post → f x ≤ f m) →
  max_from key best kbest (pre ++ m :: post) = Ok m.
Proof.
  revert best kbest.
  induction pre as [|x pre IH]; intros best kbest Hkey Hbest Hpre Hpost; simpl.
  - rewrite Hkey by set_solver. simpl. rewrite bool_decide_eq_true_2 by done.
    apply (max_from_keep key f); [intros; apply Hkey; set_solver|done].
  - rewrite Hkey by set_solver. simpl.
    assert (f x < f m) by (apply Hpre; set_solver).
    case_bool_decide; apply IH; try done;
      try (intros; apply Hkey; set_solver); intros; apply Hpre; set_solver.
Qed.

(** [max] returns the first of the largest elements. *)
Lemma py_max_first (key : string → result Z) (f : string → Z)
    (pre post : list string) (m : string) :
  (∀ x, x ∈ pre ++ m :: post → key x = Ok (f x)) →
  (∀ x, x ∈ pre → f x < f m) → (∀ x, x ∈ post → f x ≤ f m) →
  py_max key (pre ++ m :: post) = Ok m.
Proof.
  intros Hkey Hpre Hpost. destruct pre as [|x pre]; simpl.
  - rewrite Hkey by set_solver. simpl.
    apply (max_from_keep key f); [intros; apply Hkey; set_solver|done].
  - rewrite Hkey by set_solver. simpl.
    apply (max_from_first key f); [intros; apply Hkey; set_solver| | |done].
    + apply Hpre. set_solver.
    + intros. apply Hpre. set_solver.
Qed.

(** A queue of tasks without children is emitted as it stands. *)
Lemma kahn_loop_no_children (by_id : gmap string Task.t)
    (children : gmap string (list string)) (fuel : nat) (st : Kahn.state) :
  (∀ tid, tid ∈ Kahn.queue st →
     children_get children tid = [] ∧ is_Some (by_id !! tid)
     ∧ is_Some (Kahn.earliest st !! tid)) →
  (length (Kahn.queue st) ≤ fuel)%nat →
  kahn_loop fuel by_id children st
  = Ok (Kahn.mk [] (Kahn.topo_order st ++ Kahn.queue st) (Kahn.in_deg st)
          (Kahn.earliest st) (Kahn.pred st)).
Proof.
  revert st. induction fuel as [|fuel IH]; intros [q T d e p] Hq Hlen;
    simpl in *.
  - destruct q; [by rewrite app_nil_r|simpl in Hlen; lia].
  - destruct q as [|tid rest]; [by rewrite app_nil_r|].
    destruct (Hq tid) as (Hch & [t Ht] & [e0 He]); [set_solver|].
    unfold kahn_step. simpl. rewrite Ht, He. simpl. rewrite Hch. simpl.
    rewrite IH; simpl.
    + by rewrite <- app_assoc.
    + intros x Hx. apply Hq. set_solver.
    + simpl in Hlen. lia.
Qed.

(** X12.  In a project where no task depends on another task of the project, the
    critical path is one task: the one with the most story points, and among
    several of those the first in the order of [get_project_tasks]. *)
Theorem critical_path_without_dependencies (db : Db) (project_id : string)
    (fuel : nat) (pre post : list Task.t) (t : Task.t) :
  wf_db db →
  get_project_tasks db project_id = pre ++ t :: post →
  (∀ u d, u ∈ get_project_tasks db project_id → d ∈ Task.dependencies u →
          d ∉ task_ids (get_project_tasks db project_id)) →
  (∀ u, u ∈ pre → Task.story_points u < Task.story_points t) →
  (∀ u, u ∈ post → Task.story_points u ≤ Task.story_points t) →
  (length (get_project_tasks db project_id) ≤ fuel)%nat →
  get_critical_path fuel db project_id = Ok [t].
Proof.
  intros Hdb Htasks Hnodep Hpre Hpost Hfuel. unfold get_critical_path.
  pose proof (get_project_tasks_wf db project_id Hdb) as Hwf.
  set (ts := get_project_tasks db project_id) in *.
  assert (Hnd : NoDup (task_ids ts)) by apply Hwf.
  assert (Hne : ts ≠ []) by (rewrite Htasks; by destruct pre).
  assert (Hid : ∀ u, u ∈ ts → Task.id u ∈ task_ids ts)
    by (intros; unfold task_ids; by apply list_elem_of_fmap_2).
  assert (Hpar : ∀ c, parents_of ts c = []).
  { intros c. unfold parents_of.
    destruct (by_id_of ts !! c) as [u|] eqn:Hu; [|done].
    apply by_id_of_Some in Hu as [Hu _].
    apply filter_none. intros d Hd. by apply (Hnodep u). }
  destruct (build_graph_spec ts Hwf) as (g & Hg & Hdeg & Hch).
  assert (Hqueue : filter (λ tid, g_in_deg g !! tid = Some 0) (task_ids ts)
                   = task_ids ts).
  { apply filter_all. intros c Hc. by rewrite (Hdeg c Hc), Hpar. }
  assert (Hst : kahn_loop fuel (by_id_of ts) (g_children g) (kahn_init ts g)
            = Ok (Kahn.mk [] (task_ids ts) (g_in_deg g) (dict_of_ids 0 ts)
                    (dict_of_ids None ts))).
  { assert (Hinit : kahn_init ts g
              = Kahn.mk (task_ids ts) [] (g_in_deg g) (dict_of_ids 0 ts)
                  (dict_of_ids None ts))
      by (unfold kahn_init; f_equal; exact Hqueue).
    rewrite Hinit, kahn_loop_no_children; simpl;
      [done| |unfold task_ids; by rewrite length_fmap].
    intros c Hc. split_and!.
    - rewrite (Hch c Hc). unfold kids_of.
      rewrite filter_none; [done|]. intros u Hu Hd. by apply (Hnodep u c).
    - by apply by_id_of_is_Some.
    - rewrite dict_of_ids_lookup, decide_True by done. by eexists. }
  rewrite (critical_path_unfold ts fuel g _ Hne Hg Hst). simpl.
  rewrite bool_decide_eq_false_2
    by (intros Hlen; apply Hlen; unfold task_ids; by rewrite length_fmap).
  assert (Ht : t ∈ ts) by (rewrite Htasks; set_solver).
  assert (Hmax : py_max (finish_key (by_id_of ts) (dict_of_ids 0 ts)) (task_ids ts)
                 = Ok (Task.id t)).
  { unfold task_ids. rewrite Htasks, fmap_app, fmap_cons.
    rewrite <- Htasks. fold (task_ids ts).
    apply (py_max_first _ (weight_of ts)).
    - intros c Hc.
      assert (c ∈ task_ids ts) as Hcin
        by (unfold task_ids; by rewrite Htasks, fmap_app, fmap_cons).
      unfold finish_key. rewrite dict_of_ids_lookup, decide_True by done.
      simpl. unfold weight_of.
      destruct (proj2 (by_id_of_is_Some ts c) Hcin) as [u ->]. done.
    - intros c (u & -> & Hu)%list_elem_of_fmap.
      rewrite !weight_of_task; [by apply Hpre|done|done|done|].
      rewrite Htasks. set_solver.
    - intros c (u & -> & Hu)%list_elem_of_fmap.
      rewrite !weight_of_task; [by apply Hpost|done|done|done|].
      rewrite Htasks. set_solver. }
  rewrite Hmax, bind_Ok_l.
  destruct fuel as [|fuel]; [destruct ts; [done|simpl in Hfuel; lia]|].
  simpl. rewrite dict_of_ids_lookup, decide_True by auto. simpl.
  destruct fuel; simpl; by rewrite by_id_of_lookup.
Qed.

Lemma critical_path_without_dependencies_witness :
  get_critical_path 3 burndown_db "alpha" = Ok [example_task "b0" 3 2 None []].
Proof.
  apply (critical_path_without_dependencies burndown_db "alpha" 3 []
           [example_task "b1" 3 2 None []; example_task "b2" 3 2 None []]).
  - apply wf_db_store_of.
  - by vm_compute.
  - intros u d Hu Hd.
    assert (Task.dependencies u = []) as Hnil.
    { clear Hd. revert u Hu. apply Forall_forall. vm_compute.
      by repeat constructor. }
    rewrite Hnil in Hd. by apply elem_of_nil in Hd.
  - by intros ? ?%elem_of_nil.
  - apply Forall_forall. vm_compute. repeat constructor; done.
  - vm_compute. lia.
Defined.

(** * Further properties of the burndown chart *)

Lemma sum_over_cons (f : Z → Z) (i : Z) (days : list Z) :
  sum_over f (i :: days) = f i + sum_over f days.
Proof. done. Qed.

Lemma sum_over_ext (f g : Z → Z) (days : list Z) :
  (∀ i, i ∈ days → f i = g i) → sum_over f days = sum_over g days.
Proof.
  induction days as [|i days IH]; intros Hfg; [done|].
  rewrite !sum_over_cons, IH, Hfg; [done|set_solver|].
  intros. apply Hfg. set_solver.
Qed.

Lemma sum_over_nonneg (f : Z → Z) (days : list Z) :
  (∀ i, i ∈ days → 0 ≤ f i) → 0 ≤ sum_over f days.
Proof.
  induction days as [|i days IH]; intros Hf; [done|].
  rewrite sum_over_cons.
  assert (0 ≤ f i) by (apply Hf; set_solver).
  assert (0 ≤ sum_over f days) by (apply IH; intros; apply Hf; set_solver).
  lia.
Qed.

Lemma completed_on_cons (t : Task.t) (tasks : list Task.t) (d : date) :
  completed_on (t :: tasks) d
  = (if decide (Task.is_done t = true
                ∧ dt_date <$> Task.completed_at t = Some d)
     then Task.story_points t else 0)
    + completed_on tasks d.
Proof.
  unfold completed_on. rewrite filter_cons. case_decide; [|lia].
  change (sum_story_points (t :: ?l))
    with (Task.story_points t + sum_story_points l). done.
Qed.

(** What [completed_by_day] holds once the tasks have been read: the story
    points done on each day from [start] on, and nothing of the days before
    it. *)
Lemma add_completion_lookup (start : date) (tasks : list Task.t)
    (m : gmap Z Z) (d : date) :
  default 0 (foldl (add_completion start) m tasks !! d)
  = default 0 (m !! d)
    + (if bool_decide (d >= start) then completed_on tasks d else 0).
Proof.
  revert m. induction tasks as [|t tasks IH]; intros m.
  - unfold completed_on, sum_story_points. simpl. case_bool_decide; lia.
  - simpl. rewrite IH, completed_on_cons. unfold add_completion.
    destruct (Task.is_done t) eqn:Hdone.
    2:{ rewrite decide_False by naive_solver. case_bool_decide; lia. }
    destruct (Task.completed_at t) as [c|] eqn:Hc.
    2:{ rewrite decide_False by naive_solver. case_bool_decide; lia. }
    simpl. destruct (decide (dt_date c = d)) as [Heq|Hne].
    + subst d. rewrite decide_True by done.
      case_bool_decide; [|lia]. rewrite lookup_insert_eq. simpl. lia.
    + rewrite decide_False by naive_solver.
      destruct (bool_decide (dt_date c >= start));
        [rewrite lookup_insert_ne by done|]; case_bool_decide; lia.
Qed.

Lemma for_each_burndown_day_actual (start total_points : Z)
    (ideal_per_day : float) (completed_by_day : gmap Z Z) (days : list Z)
    (remaining : Z) (chart : list chart_point) :
  (∀ i, i ∈ days → valid_date (start + i)) →
  ∃ remaining' points,
    for_each (burndown_day start total_points ideal_per_day completed_by_day)
      days (remaining, chart)
    = Ok (remaining', chart ++ points)
    ∧ ∀ j i, days !! j = Some i →
        ∃ pt, points !! j = Some pt ∧ cp_day pt = i ∧ cp_date pt = start + i
          ∧ cp_actual pt
            = remaining
              - sum_over (λ i, default 0 (completed_by_day !! (start + i)))
                  (take (S j) days).
Proof.
  revert remaining chart. induction days as [|i days IH]; intros rem chart Hv.
  - exists rem, []. by rewrite app_nil_r.
  - assert (Hi : valid_date (start + i)) by (apply Hv; set_solver).
    set (rem1 := rem - default 0 (completed_by_day !! (start + i))).
    set (pt := mk_point i (start + i)
                 (ideal_value total_points ideal_per_day i) rem1).
    destruct (IH rem1 (chart ++ [pt])) as (rem' & pts & Hrun & Hpts);
      [intros; apply Hv; set_solver|].
    exists rem', (pt :: pts). split.
    + rewrite for_each_cons, (burndown_day_valid _ _ _ _ _ _ Hi). simpl.
      fold rem1. fold pt. rewrite Hrun. by rewrite <- app_assoc.
    + intros [|j] k Hk; simpl in Hk.
      * injection Hk as <-. exists pt. split_and!; [done..|].
        simpl. rewrite take_0, sum_over_cons. unfold sum_over. simpl.
        unfold rem1. lia.
      * destruct (Hpts j k Hk) as (p & Hp & Hday & Hdate & Hact).
        exists p. split_and!; [done..|]. rewrite Hact.
        change (take (S (S j)) (i :: days)) with (i :: take (S j) days).
        rewrite sum_over_cons. unfold rem1. lia.
Qed.

Lemma take_seqZ (n : Z) (j : nat) :
  Z.of_nat j < n → take (S j) (seqZ 0 n) = seqZ 0 (Z.of_nat j + 1).
Proof.
  intros Hj.
  replace n with ((Z.of_nat j + 1) + (n - (Z.of_nat j + 1))) at 1 by lia.
  rewrite seqZ_app by lia. apply take_app_length'.
  rewrite length_seqZ. lia.
Qed.

(** X13.  The dates and the actual line of the chart.  Day [k] carries the date
    [k] days after the start of the sprint, the last day being today, and
    its actual value is the total less the story points of the tasks done
    from the first day of the sprint up to that day: a task done before the
    sprint began, or done without a completion time, is never taken off.
    With no negative story points the line never rises. *)
Theorem calculate_burndown_actual_line (today : date) (db : Db)
    (project_id : string) (sprint_days : Z) :
  valid_date today →
  sum_story_points (get_project_tasks db project_id) ≠ 0 →
  1 ≤ sprint_days → MINORDINAL ≤ today - sprint_days →
  ∃ chart,
    calculate_burndown today db project_id sprint_days = Ok chart
    ∧ (∀ k, 0 ≤ k ≤ sprint_days →
         ∃ pt, chart !! Z.to_nat k = Some pt
           ∧ cp_day pt = k
           ∧ cp_date pt = today - sprint_days + k
           ∧ cp_actual pt
             = sum_story_points (get_project_tasks db project_id)
               - sum_over (λ j, completed_on (get_project_tasks db project_id)
                                  (today - sprint_days + j))
                   (seqZ 0 (k + 1)))
    ∧ ((∀ t, t ∈ get_project_tasks db project_id → 0 ≤ Task.story_points t) →
       ∀ k pt pt', 0 ≤ k < sprint_days →
         chart !! Z.to_nat k = Some pt → chart !! Z.to_nat (k + 1) = Some pt' →
         cp_actual pt' ≤ cp_actual pt
         ∧ cp_actual pt ≤ sum_story_points (get_project_tasks db project_id)).
Proof.
  intros [Hlo Hhi] Htotal Hdays Hstart.
  set (tasks := get_project_tasks db project_id) in *.
  set (start := today - sprint_days).
  assert (Hs : date_add_days today (- sprint_days) = Ok start).
  { apply date_add_days_valid. unfold valid_date in *. lia. }
  destruct (int_true_div (sum_story_points tasks) sprint_days)
    as [ipd| |] eqn:Hipd;
    [|unfold int_true_div in Hipd;
      by rewrite bool_decide_eq_false_2 in Hipd by lia..].
  destruct (for_each_burndown_day_actual start (sum_story_points tasks) ipd
              (foldl (add_completion start) ∅ tasks)
              (seqZ 0 (sprint_days + 1)) (sum_story_points tasks) [])
    as (rem' & chart & Hrun & Hpts).
  { intros i [Hi0 Hi1]%elem_of_seqZ. unfold valid_date, start in *. lia. }
  assert (Hline : ∀ k, 0 ≤ k ≤ sprint_days →
            ∃ pt, chart !! Z.to_nat k = Some pt
              ∧ cp_day pt = k ∧ cp_date pt = start + k
              ∧ cp_actual pt
                = sum_story_points tasks
                  - sum_over (λ j, completed_on tasks (start + j))
                      (seqZ 0 (k + 1))).
  { intros k Hk.
    destruct (Hpts (Z.to_nat k) k) as (pt & Hpt & Hday & Hdate & Hact).
    { apply lookup_seqZ. lia. }
    exists pt. split_and!; [done..|]. rewrite Hact, take_seqZ by lia.
    rewrite Z2Nat.id by lia. f_equal. apply sum_over_ext.
    intros j [Hj0 Hj1]%elem_of_seqZ.
    rewrite add_completion_lookup, lookup_empty. simpl.
    rewrite bool_decide_eq_true_2 by lia. done. }
  exists chart. split_and!.
  - by apply (calculate_burndown_unfold today db project_id sprint_days start
                ipd (rem', chart)).
  - done.
  - intros Hnonneg k pt pt' Hk Hpt Hpt'.
    destruct (Hline k) as (p & Hp & _ & _ & Hact); [lia|].
    destruct (Hline (k + 1)) as (p' & Hp' & _ & _ & Hact'); [lia|].
    rewrite Hpt in Hp. injection Hp as <-.
    rewrite Hpt' in Hp'. injection Hp' as <-.
    assert (Hdone : ∀ d, 0 ≤ completed_on tasks d).
    { intros d. unfold completed_on. apply sum_story_points_nonneg.
      intros t [_ Ht]%list_elem_of_filter. by apply Hnonneg. }
    rewrite Hact, Hact'.
    replace (k + 1 + 1) with ((k + 1) + 1) by lia.
    rewrite (seqZ_app 0 (k + 1) 1) by lia.
    unfold sum_over at 1. rewrite fmap_app, foldr_app. simpl.
    fold (sum_over (λ j, completed_on tasks (start + j)) (seqZ 0 (k + 1))).
    pose proof (sum_over_nonneg (λ j, completed_on tasks (start + j))
                  (seqZ 0 (k + 1)) ltac:(intros; apply Hdone)).
    assert (Hshift : ∀ (l : list Z) (a : Z),
              foldr Z.add a l = foldr Z.add 0 l + a).
    { induction l as [|x l IH]; intros a; simpl; [lia|]. rewrite IH. lia. }
    rewrite Hshift.
    fold (sum_over (λ j, completed_on tasks (start + j)) (seqZ 0 (k + 1))).
    match goal with
    | |- context [completed_on tasks ?d + 0] => pose proof (Hdone d)
    end.
    lia.
Qed.

Lemma calculate_burndown_actual_line_witness :
  ∃ chart,
    calculate_burndown 739001 stats_db "alpha" 2 = Ok chart
    ∧ (∀ k, 0 ≤ k ≤ 2 →
         ∃ pt, chart !! Z.to_nat k = Some pt
           ∧ cp_day pt = k
           ∧ cp_date pt = 739001 - 2 + k
           ∧ cp_actual pt
             = sum_story_points (get_project_tasks stats_db "alpha")
               - sum_over (λ j, completed_on (get_project_tasks stats_db "alpha")
                                  (739001 - 2 + j))
                   (seqZ 0 (k + 1)))
    ∧ ((∀ t, t ∈ get_project_tasks stats_db "alpha" → 0 ≤ Task.story_points t) →
       ∀ k pt pt', 0 ≤ k < 2 →
         chart !! Z.to_nat k = Some pt → chart !! Z.to_nat (k + 1) = Some pt' →
         cp_actual pt' ≤ cp_actual pt
         ∧ cp_actual pt ≤ sum_story_points (get_project_tasks stats_db "alpha")).
Proof.
  apply (calculate_burndown_actual_line 739001 stats_db "alpha" 2).
  - unfold valid_date, MINORDINAL, MAXORDINAL. lia.
  - by vm_compute.
  - lia.
  - unfold MINORDINAL. lia.
Defined.

(** A task of four points done on the second of three days: the line drops
    from 6 to 2 on that day and stays there. *)
Example calculate_burndown_actual_example :
  ∃ chart,
    calculate_burndown 739001 stats_db "alpha" 2 = Ok chart
    ∧ cp_date <$> chart = [738999; 739000; 739001]
    ∧ cp_actual <$> chart = [6; 2; 2].
Proof. eexists. split; [by vm_compute|]. by vm_compute. Qed.

(** X14.  A negative [sprint_days] is not refused: the loop over the days does not
    run, and a project with story points gets an empty chart, as a project
    without any does, unless the start of the sprint, now after today, leaves
    the calendar. *)
Theorem calculate_burndown_negative_sprint_days (today : date) (db : Db)
    (project_id : string) (sprint_days : Z) :
  sprint_days < 0 →
  sum_story_points (get_project_tasks db project_id) ≠ 0 →
  (valid_date (today - sprint_days) →
   calculate_burndown today db project_id sprint_days = Ok [])
  ∧ (¬ valid_date (today - sprint_days) →
     calculate_burndown today db project_id sprint_days = Raise OverflowError).
Proof.
  intros Hneg Htotal. unfold calculate_burndown.
  rewrite bool_decide_eq_false_2 by done. split; intros Hv.
  - rewrite date_add_days_valid by done. rewrite bind_Ok_l.
    unfold int_true_div. rewrite bool_decide_eq_false_2 by lia.
    rewrite bind_Ok_l, seqZ_nil by lia. done.
  - unfold date_add_days. by rewrite bool_decide_eq_false_2.
Qed.

Lemma calculate_burndown_negative_sprint_days_witness :
  (valid_date (739000 - -1) →
   calculate_burndown 739000 burndown_db "alpha" (-1) = Ok [])
  ∧ (¬ valid_date (739000 - -1) →
     calculate_burndown 739000 burndown_db "alpha" (-1) = Raise OverflowError).
Proof.
  apply (calculate_burndown_negative_sprint_days 739000 burndown_db "alpha" (-1)).
  - lia.
  - by vm_compute.
Defined.

(** * The readers of the task table agree *)

Lemma filter_key_unique {A} (key : A → string) (l : list A) (x : A) :
  NoDup (key <$> l) → x ∈ l → filter (λ y, key y = key x) l = [x].
Proof.
  induction l as [|y l IH]; intros Hnd Hx; [by apply elem_of_nil in Hx|].
  rewrite fmap_cons in Hnd. apply NoDup_cons in Hnd as [Hy Hnd].
  rewrite filter_cons. apply elem_of_cons in Hx as [->|Hx].
  - rewrite decide_True by done. f_equal. by apply filter_key_fresh.
  - rewrite decide_False; [by apply IH|].
    intros Heq. apply Hy. rewrite Heq. by apply list_elem_of_fmap_2.
Qed.

(** X15.  [get_project_tasks] and [get_task] read the same tasks: the tasks listed
    for a project are those that [get_task] returns with that project id,
    dependencies included. *)
Theorem get_project_tasks_get_task (db : Db) (project_id : string)
    (t : Task.t) :
  wf_db db →
  t ∈ get_project_tasks db project_id
  ↔ get_task db (Task.id t) = Some t ∧ Task.project_id t = project_id.
Proof.
  intros (_ & Hids & _). unfold get_project_tasks, get_task. split.
  - intros (row & -> & Hrow)%list_elem_of_fmap.
    rewrite stable_sort_Permutation in Hrow.
    apply list_elem_of_filter in Hrow as [Hpid Hrow]. simpl.
    by rewrite (filter_key_unique TaskRow.id _ row Hids Hrow).
  - intros [Hget Hpid].
    destruct (head _) as [row|] eqn:Hhead; [|done].
    apply head_Some_elem_of, list_elem_of_filter in Hhead as [Hid Hrow].
    injection Hget as Ht. apply list_elem_of_fmap. exists row. split.
    + by rewrite Hid.
    + rewrite stable_sort_Permutation. apply list_elem_of_filter.
      split; [|done]. by rewrite <- Hpid, <- Ht.
Qed.

Lemma get_project_tasks_get_task_witness :
  chain_b ∈ get_project_tasks chain_db "alpha"
  ↔ get_task chain_db (Task.id chain_b) = Some chain_b
    ∧ Task.project_id chain_b = "alpha".
Proof.
  apply (get_project_tasks_get_task chain_db "alpha" chain_b).
  apply wf_db_store_of.
Defined.

(** X16.  A task that [add_task] has stored joins the list of its project,
    whether or not that project exists, and the lists of the other projects
    stay as they were. *)
Theorem add_task_get_project_tasks (task : Task.t) (db db' : Db) (t : Task.t) :
  add_task task db = Ok (db', t) →
  ∃ t',
    get_task db' (Task.id task) = Some t'
    ∧ task_to_row t' = task_to_row task
    ∧ get_project_tasks db' (Task.project_id task)
      ≡ₚ t' :: get_project_tasks db (Task.project_id task)
    ∧ ∀ other, other ≠ Task.project_id task →
        get_project_tasks db' other = get_project_tasks db other.
Proof.
  unfold add_task. destruct (negb _); [done|].
  case_bool_decide as Hfresh; [done|]. intros [= <- <-].
  set (db' := mk_db _ _ _).
  assert (Hdeps : ∀ row, row ∈ tasks db →
            select_depends_on db' (TaskRow.id row)
            = select_depends_on db (TaskRow.id row)).
  { intros row Hrow. unfold select_depends_on. simpl.
    rewrite filter_insert_edges_other; [done|].
    intros Heq. apply Hfresh. rewrite <- Heq. by apply list_elem_of_fmap_2. }
  assert (Hold : ∀ rows : list TaskRow.t,
            (∀ row, row ∈ rows → row ∈ tasks db) →
            (λ row, _row_to_task row (select_depends_on db' (TaskRow.id row)))
              <$> rows
            = (λ row, _row_to_task row (select_depends_on db (TaskRow.id row)))
              <$> rows).
  { intros rows Hrows. apply list_fmap_ext. intros i row Hi.
    rewrite Hdeps; [done|]. by eapply Hrows, list_elem_of_lookup_2. }
  exists (_row_to_task (task_to_row task)
            (select_depends_on db' (Task.id task))).
  split_and!.
  - unfold get_task. simpl.
    rewrite filter_app, (filter_key_fresh TaskRow.id) by done.
    by rewrite filter_cons, decide_True.
  - apply task_to_row_to_task.
  - unfold get_project_tasks. simpl.
    rewrite filter_app, filter_cons, decide_True, filter_nil by done.
    rewrite stable_sort_Permutation, fmap_app, fmap_cons, fmap_nil.
    rewrite <- Permutation_cons_append. simpl. constructor.
    rewrite Hold by (by intros row [_ ?]%list_elem_of_filter).
    by rewrite stable_sort_Permutation.
  - intros other Hne. unfold get_project_tasks. simpl.
    rewrite filter_app, filter_cons, decide_False, filter_nil, app_nil_r
      by (simpl; congruence).
    apply Hold. intros row Hrow. rewrite stable_sort_Permutation in Hrow.
    by apply list_elem_of_filter in Hrow as [_ ?].
Qed.

Lemma add_task_get_project_tasks_witness :
  ∃ t',
    get_task (store_of [chain_a]) (Task.id chain_a) = Some t'
    ∧ task_to_row t' = task_to_row chain_a
    ∧ get_project_tasks (store_of [chain_a]) (Task.project_id chain_a)
      ≡ₚ t' :: get_project_tasks empty_db (Task.project_id chain_a)
    ∧ ∀ other, other ≠ Task.project_id chain_a →
        get_project_tasks (store_of [chain_a]) other
        = get_project_tasks empty_db other.
Proof.
  apply (add_task_get_project_tasks chain_a empty_db (store_of [chain_a]) chain_a).
  by vm_compute.
Defined.

(** * Further properties of the deadline alerts *)

Lemma filter_omap {A B} (f : A → option B) (P : A → Prop) (Q : B → Prop)
    `{∀ x, Decision (P x)} `{∀ y, Decision (Q y)} (l : list A) :
  (∀ x y, f x = Some y → (Q y ↔ P x)) →
  filter Q (omap f l) = omap f (filter P l).
Proof.
  intros Hf. induction l as [|x l IH]; [done|].
  rewrite filter_cons. destruct (f x) as [y|] eqn:Hy.
  - pose proof (Hf x y Hy) as Hxy.
    change (omap f (x :: l)) with (from_option (λ y, y :: omap f l) (omap f l) (f x)).
    rewrite Hy. simpl. rewrite filter_cons, IH.
    destruct (decide (Q y)) as [HQ|HQ]; destruct (decide (P x)) as [HP|HP];
      try tauto.
    change (omap f (x :: filter P l))
      with (from_option (λ y, y :: omap f (filter P l)) (omap f (filter P l)) (f x)).
    by rewrite Hy.
  - change (omap f (x :: l)) with (from_option (λ y, y :: omap f l) (omap f l) (f x)).
    rewrite Hy. simpl. rewrite IH. case_decide; [|done].
    change (omap f (x :: filter P l))
      with (from_option (λ y, y :: omap f (filter P l)) (omap f (filter P l)) (f x)).
    by rewrite Hy.
Qed.

(** X17.  The alerts with a given number of days remaining are the active
    projects with that deadline followed by the open tasks due that day,
    each group in the order of its table: the sort of the alerts is stable
    and keeps ties as they were collected.  No alert lies beyond the
    horizon, so a negative [days_ahead] leaves overdue alerts only. *)
Theorem check_deadlines_ties (today : date) (db : Db) (days_ahead : Z) :
  valid_date (today + days_ahead) →
  ∃ alerts,
    check_deadlines today db days_ahead = Ok alerts
    ∧ (∀ k, filter (λ a, alert_days_remaining a = k) alerts
            = omap (project_alert today days_ahead)
                (filter (λ p, Project.deadline p = today + k)
                   (filter (λ p, Project.status p = "active") (projects db)))
              ++ omap (task_alert today (today + days_ahead))
                   (filter (λ r, TaskRow.due_date r = Some (today + k))
                      (tasks db)))
    ∧ (∀ a, a ∈ alerts → alert_days_remaining a ≤ days_ahead)
    ∧ (days_ahead < 0 → ∀ a, a ∈ alerts → alert_urgency a = "overdue").
Proof.
  intros Hv. unfold check_deadlines. rewrite (date_add_days_valid _ _ Hv).
  rewrite bind_Ok_l. eexists. split; [done|].
  assert (Hbound : ∀ a,
    a ∈ sorted_by_key alert_days_remaining
          (omap (project_alert today days_ahead) (list_projects db (Some "active"))
           ++ omap (task_alert today (today + days_ahead)) (tasks db)) →
    alert_days_remaining a ≤ days_ahead
    ∧ alert_urgency a = urgency_of (alert_days_remaining a)).
  { intros a. rewrite sorted_by_key_Permutation, elem_of_app, !list_elem_of_omap.
    intros [(p & _ & [Hle ->]%project_alert_Some)
           |(r & _ & (due & _ & _ & _ & Hle & ->)%task_alert_Some)]; simpl;
      split; (done || lia). }
  split_and!.
  - intros k. rewrite sorted_by_key_stable, filter_app. f_equal.
    + etrans.
      { apply (filter_omap _ (λ p, Project.deadline p = today + k)).
        intros p a [_ ->]%project_alert_Some. simpl. lia. }
      unfold list_projects. rewrite bool_decide_eq_false_2 by done.
      by rewrite (sorted_by_key_stable Project.deadline).
    + apply filter_omap.
      intros r a (due & _ & _ & Hdue & _ & ->)%task_alert_Some. simpl.
      rewrite Hdue. split; [intros <-; f_equal; lia|intros [= ->]; lia].
  - intros a Ha. by apply Hbound.
  - intros Hneg a Ha. destruct (Hbound a Ha) as [Hle ->].
    apply urgency_of_cases. lia.
Qed.

Lemma check_deadlines_ties_witness :
  ∃ alerts,
    check_deadlines 739000 deadline_db 7 = Ok alerts
    ∧ (∀ k, filter (λ a, alert_days_remaining a = k) alerts
            = omap (project_alert 739000 7)
                (filter (λ p, Project.deadline p = 739000 + k)
                   (filter (λ p, Project.status p = "active")
                      (projects deadline_db)))
              ++ omap (task_alert 739000 (739000 + 7))
                   (filter (λ r, TaskRow.due_date r = Some (739000 + k))
                      (tasks deadline_db)))
    ∧ (∀ a, a ∈ alerts → alert_days_remaining a ≤ 7)
    ∧ (7 < 0 → ∀ a, a ∈ alerts → alert_urgency a = "overdue").
Proof.
  apply (check_deadlines_ties 739000 deadline_db 7).
  unfold valid_date, MINORDINAL, MAXORDINAL. lia.
Defined.

(** X18.  [Project.is_overdue] and [check_deadlines] do not take the same projects
    for overdue.  A stored project that [is_overdue] holds for has a negative
    number of days remaining; with a horizon of no less than zero days it is
    reported, with urgency "overdue", if its status is "active", and no
    project alert carries its id if its status is anything else. *)
Theorem overdue_project_alerted_iff_active (today : date) (db : Db)
    (days_ahead : Z) (p : Project.t) :
  wf_db db → valid_date (today + days_ahead) → 0 ≤ days_ahead →
  p ∈ projects db → Project.is_overdue today p = true →
  ∃ alerts,
    check_deadlines today db days_ahead = Ok alerts
    ∧ Project.days_remaining today p < 0
    ∧ (Project.status p = "active" →
       ProjectAlert (Project.id p) (Project.name p) (Project.owner p)
         (Project.deadline p) (Project.days_remaining today p) "overdue"
       ∈ alerts)
    ∧ ((∃ a, a ∈ alerts ∧ alert_type a = "project"
             ∧ alert_id a = Project.id p)
       ↔ Project.status p = "active").
Proof.
  intros (Hids & _ & _) Hv Hahead Hp Hover. unfold check_deadlines.
  rewrite (date_add_days_valid _ _ Hv). rewrite bind_Ok_l.
  eexists. split; [done|].
  apply andb_prop in Hover as [_ Hlate%bool_decide_eq_true].
  assert (Hrem : Project.days_remaining today p < 0)
    by (unfold Project.days_remaining; lia).
  assert (Halert : Project.status p = "active" →
    ProjectAlert (Project.id p) (Project.name p) (Project.owner p)
      (Project.deadline p) (Project.days_remaining today p) "overdue"
    ∈ sorted_by_key alert_days_remaining
        (omap (project_alert today days_ahead) (list_projects db (Some "active"))
         ++ omap (task_alert today (today + days_ahead)) (tasks db))).
  { intros Hactive.
    rewrite sorted_by_key_Permutation, elem_of_app, !list_elem_of_omap.
    left. exists p. split; [by apply elem_of_list_projects_active|].
    apply project_alert_Some. unfold Project.days_remaining in *.
    split; [lia|]. f_equal. symmetry. apply urgency_of_cases. lia. }
  split_and!; [done|done|]. split.
  - intros (a & Ha & Htype & Hid).
    rewrite sorted_by_key_Permutation, elem_of_app, !list_elem_of_omap in Ha.
    destruct Ha as [(q & [Hq Hactive]%elem_of_list_projects_active
                       & [_ ->]%project_alert_Some)
                   |(r & _ & (due & _ & _ & _ & _ & ->)%task_alert_Some)];
      [|done].
    simpl in Hid. assert (q = p) as ->; [|done].
    apply list_elem_of_lookup in Hq as [i Hi].
    apply list_elem_of_lookup in Hp as [j Hj].
    assert (i = j) as ->; [|congruence].
    eapply NoDup_lookup; [exact Hids| |];
      rewrite list_lookup_fmap; [by rewrite Hi|by rewrite Hj; simpl; rewrite Hid].
  - intros Hactive. eexists. split; [by apply Halert|]. done.
Qed.

Lemma overdue_project_alerted_iff_active_witness :
  ∃ alerts,
    check_deadlines 739010 deadline_db 7 = Ok alerts
    ∧ Project.days_remaining 739010
        (Project.mk "Urgent" "ed@br.io" 739002 "p1" "active" "" epoch) < 0
    ∧ (Project.status
         (Project.mk "Urgent" "ed@br.io" 739002 "p1" "active" "" epoch)
       = "active" →
       ProjectAlert "p1" "Urgent" "ed@br.io" 739002
         (Project.days_remaining 739010
            (Project.mk "Urgent" "ed@br.io" 739002 "p1" "active" "" epoch))
         "overdue"
       ∈ alerts)
    ∧ ((∃ a, a ∈ alerts ∧ alert_type a = "project" ∧ alert_id a = "p1")
       ↔ Project.status
           (Project.mk "Urgent" "ed@br.io" 739002 "p1" "active" "" epoch)
         = "active").
Proof.
  apply (overdue_project_alerted_iff_active 739010 deadline_db 7
           (Project.mk "Urgent" "ed@br.io" 739002 "p1" "active" "" epoch)).
  - apply wf_db_deadline_db.
  - unfold valid_date, MINORDINAL, MAXORDINAL. lia.
  - lia.
  - unfold deadline_db. simpl. set_solver.
  - by vm_compute.
Defined.

(** * Further properties of the Gantt export *)

(** ** Quoting *)

Lemma string_count_app (c : ascii) (s1 s2 : string) :
  string_count c (s1 +:+ s2) = (string_count c s1 + string_count c s2)%nat.
Proof.
  induction s1 as [|c' s1 IH]; [done|].
  change (String c' s1 +:+ s2) with (String c' (s1 +:+ s2)).
  simpl. rewrite IH. lia.
Qed.

Lemma string_count_double_quotes (s : string) :
  string_count quotechar (csv_double_quotes s)
  = (2 * string_count quotechar s)%nat.
Proof.
  induction s as [|c s IH]; [done|]. simpl.
  destruct (bool_decide (c = quotechar)) eqn:Hc; simpl; rewrite ?Hc, IH; lia.
Qed.

Lemma string_count_unquoted (s : string) :
  string_exists
    (λ c, bool_decide (c = ","%char ∨ c = quotechar ∨ c = CR ∨ c = LF)) s
  = false →
  string_count quotechar s = 0%nat.
Proof.
  induction s as [|c s IH]; [done|]. simpl.
  intros [Hc Hs]%orb_false_elim. rewrite (IH Hs).
  apply bool_decide_eq_false in Hc.
  rewrite bool_decide_eq_false_2 by tauto. done.
Qed.

Lemma csv_field_balanced (s : string) :
  Nat.even (string_count quotechar (csv_field s)) = true.
Proof.
  unfold csv_field. destruct (string_exists _ s) eqn:Hs.
  - change (String quotechar ?t) with (String quotechar EmptyString +:+ t).
    rewrite !string_count_app, string_count_double_quotes.
    change (string_count quotechar (String quotechar EmptyString)) with 1%nat.
    replace (1 + (2 * string_count quotechar s + 1))%nat
      with (2 * (string_count quotechar s + 1))%nat by lia.
    apply Nat.even_spec. by eexists.
  - by rewrite string_count_unquoted.
Qed.

Lemma string_count_concat_balanced (sep : string) (l : list string) :
  string_count quotechar sep = 0%nat →
  Forall (λ s, Nat.even (string_count quotechar s) = true) l →
  Nat.even (string_count quotechar (String.concat sep l)) = true.
Proof.
  intros Hsep. induction 1 as [|s l Hs Hl IH]; [done|].
  destruct l as [|s' l]; [done|].
  change (String.concat sep (s :: s' :: l))
    with (s +:+ sep +:+ String.concat sep (s' :: l)).
  rewrite !string_count_app, Hsep, !Nat.even_add, Hs, IH. done.
Qed.

Lemma csv_writerow_balanced (fields : list string) :
  Nat.even (string_count quotechar (csv_writerow fields)) = true.
Proof.
  unfold csv_writerow. rewrite string_count_app, Nat.even_add.
  rewrite string_count_concat_balanced; [done|done|].
  apply Forall_fmap, Forall_forall. intros s _. apply csv_field_balanced.
Qed.

(** X19.  The text that [export_gantt_csv] writes for a stored project has
    its quotes balanced, whatever the titles, assignees and statuses of the
    tasks hold: the call returns a text, and the text contains an even number
    of quote characters. *)
Theorem export_gantt_csv_balanced_quotes (isoformat : Z → string)
    (fuel : nat) (db : Db) (project_id : string) :
  wf_db db → project_id ∈ Project.id <$> projects db →
  (length (get_project_tasks db project_id) ≤ fuel)%nat →
  ∃ text,
    export_gantt_csv isoformat fuel db project_id = Ok text
    ∧ Nat.even (string_count quotechar text) = true.
Proof.
  intros Hdb Hin Hfuel. unfold export_gantt_csv.
  destruct (get_project db project_id) as [p|] eqn:Hp;
    [|by apply get_project_None in Hp].
  destruct (critical_path_total_tasks (get_project_tasks db project_id) fuel)
    as [cp Hcp]; [by apply get_project_tasks_wf|done|].
  unfold get_critical_path. rewrite Hcp, bind_Ok_l. eexists. split; [done|].
  rewrite string_count_app, Nat.even_add, csv_writerow_balanced.
  rewrite string_count_concat_balanced; [done|done|].
  apply Forall_fmap, Forall_forall. intros u _. apply csv_writerow_balanced.
Qed.

Lemma wf_db_quoted_db : wf_db quoted_db.
Proof. repeat apply wf_db_run_call. apply wf_db_empty. Qed.

Lemma export_gantt_csv_balanced_quotes_witness :
  ∃ text,
    export_gantt_csv (λ d, pretty d) 1 quoted_db "alpha" = Ok text
    ∧ Nat.even (string_count quotechar text) = true.
Proof.
  apply (export_gantt_csv_balanced_quotes (λ d, pretty d) 1 quoted_db "alpha").
  - apply wf_db_quoted_db.
  - apply (bool_decide_unpack _). by vm_compute.
  - vm_compute. lia.
Defined.

(** The title of the task of [quoted_db] holds two quotes; the row written
    for it holds six, the two around the field and each of its own twice. *)
Example export_gantt_csv_quoted_example :
  ∃ text,
    export_gantt_csv (λ d, pretty d) 1 quoted_db "alpha" = Ok text
    ∧ string_count quotechar text = 6%nat.
Proof. eexists. split; [by vm_compute|]. by vm_compute. Qed.

(** ** The column of the critical path *)

Lemma wf_db_cycle_project_db : wf_db cycle_project_db.
Proof. repeat apply wf_db_run_call. apply wf_db_empty. Qed.

(** X20.  For a stored project without tasks [export_gantt_csv] writes the header
    line alone.  For a project whose dependencies contain a cycle it marks
    every task as lying on the critical path: the fallback of
    [get_critical_path] returns all the tasks. *)
Theorem export_gantt_csv_critical_column (isoformat : Z → string) (db : Db)
    (project_id : string) (fuel : nat) :
  wf_db db → project_id ∈ Project.id <$> projects db →
  (length (get_project_tasks db project_id) ≤ fuel)%nat →
  (get_project_tasks db project_id = [] →
   export_gantt_csv isoformat fuel db project_id
   = Ok ("Task ID,Title,Assignee,Priority,Status,Story Points,Due Date,Dependencies,Critical Path"
         +:+ String CR (String LF EmptyString)))
  ∧ (cyclic (get_project_tasks db project_id) →
     export_gantt_csv isoformat fuel db project_id
     = Ok (csv_writerow gantt_header
           +:+ String.concat ""
                 ((λ t, csv_writerow
                          (gantt_row isoformat
                             (list_to_set (task_ids (get_project_tasks db project_id)))
                             t))
                  <$> get_project_tasks db project_id))
     ∧ ∀ t, t ∈ get_project_tasks db project_id →
         last (gantt_row isoformat
                 (list_to_set (task_ids (get_project_tasks db project_id))) t)
         = Some "YES").
Proof.
  intros Hdb Hin Hfuel. unfold export_gantt_csv.
  destruct (get_project db project_id) as [p|] eqn:Hp;
    [|by apply get_project_None in Hp].
  split.
  - intros Hnil. unfold get_critical_path. rewrite Hnil. done.
  - intros Hcyc. unfold get_critical_path.
    rewrite critical_path_cyclic_tasks;
      [|by apply get_project_tasks_wf|done..].
    rewrite bind_Ok_l. unfold task_ids.
    assert (Hset : list_to_set (C := gset string)
                     (Task.id <$> sorted_by_key Task.priority
                                    (get_project_tasks db project_id))
                   = list_to_set (Task.id <$> get_project_tasks db project_id)).
    { apply list_to_set_perm_L. by rewrite sorted_by_key_Permutation. }
    rewrite Hset. split; [done|]. intros t Ht. simpl.
    rewrite bool_decide_eq_true_2; [done|].
    apply elem_of_list_to_set. by apply list_elem_of_fmap_2.
Qed.

Lemma export_gantt_csv_critical_column_witness :
  (get_project_tasks cycle_project_db "alpha" = [] →
   export_gantt_csv (λ d, pretty d) 2 cycle_project_db "alpha"
   = Ok ("Task ID,Title,Assignee,Priority,Status,Story Points,Due Date,Dependencies,Critical Path"
         +:+ String CR (String LF EmptyString)))
  ∧ (cyclic (get_project_tasks cycle_project_db "alpha") →
     export_gantt_csv (λ d, pretty d) 2 cycle_project_db "alpha"
     = Ok (csv_writerow gantt_header
           +:+ String.concat ""
                 ((λ t, csv_writerow
                          (gantt_row (λ d, pretty d)
                             (list_to_set
                                (task_ids (get_project_tasks cycle_project_db "alpha")))
                             t))
                  <$> get_project_tasks cycle_project_db "alpha"))
     ∧ ∀ t, t ∈ get_project_tasks cycle_project_db "alpha" →
         last (gantt_row (λ d, pretty d)
                 (list_to_set
                    (task_ids (get_project_tasks cycle_project_db "alpha"))) t)
         = Some "YES").
Proof.
  apply (export_gantt_csv_critical_column (λ d, pretty d) cycle_project_db
           "alpha" 2).
  - apply wf_db_cycle_project_db.
  - apply (bool_decide_unpack _). by vm_compute.
  - vm_compute. lia.
Defined.

(** The cycle of [cycle_project_db] is seen by the export. *)
Example cycle_project_db_cyclic :
  cyclic (get_project_tasks cycle_project_db "alpha").
Proof.
  exists "a". apply tc_l with "b".
  - apply (dep_edge_intro _ (example_task "b" 1 1 None ["a"]));
      vm_compute; repeat constructor.
  - apply tc_once.
    apply (dep_edge_intro _ (example_task "a" 2 1 None ["b"]));
      vm_compute; repeat constructor.
Qed.

(** * The store's text columns on examples *)

(** Dependencies come back in the order of the primary-key index, not in the
    order they were listed. *)
Example get_task_dependencies_order :
  Task.dependencies <$> get_task deps_db "t" = Some ["a"; "m"; "z"]
  ∧ Task.dependencies <$> get_project_tasks deps_db "alpha" = [["a"; "m"; "z"]].
Proof. by vm_compute. Qed.

(** [[:8]] counts code points: of nine letters of two bytes each it keeps
    eight letters, sixteen bytes, and of ten ASCII letters eight. *)
Example str_prefix_code_points :
  let e := String (ascii_of_nat 195) (String (ascii_of_nat 169) EmptyString) in
  str_prefix 8 (e +:+ e +:+ e +:+ e +:+ e +:+ e +:+ e +:+ e +:+ e)
  = e +:+ e +:+ e +:+ e +:+ e +:+ e +:+ e +:+ e
  ∧ str_prefix 8 "0123456789" = "01234567".
Proof. by vm_compute. Qed.
